(** * ChiptunePractice: the DSP core, embedded and checked against its specification

    The development follows the C++ headers of the synthesiser, one class per
    module: [Bitcrusher], [Delay], [Phasor], [Vibrato], [Arpeggiator] and
    [PitchBend], and the per-sample master chain of [processBlock].

    Numbers.  An [int] field is a [Z]; where the C++ increments an [int] or
    converts between [int] and [size_t] the conversion is written out
    ([int32], [to_size_t]).  In [Bitcrusher], [Delay], [Phasor], [Vibrato]
    and [Arpeggiator] a [float] or [double] is an exact rational ([Q]): what
    is proved of them is proved in exact arithmetic, and the concrete runs
    evaluated there do not depend on rounding.  The pitch-bend ramp does
    depend on it, so [PitchBend] is written once over an interface of the
    floating operations ([FloatOps]) and read twice: over IEEE binary32 and
    binary64 ([IEEE.ops], on [SpecFloat]), as the compiled code computes, and
    over the rationals ([Exact.ops]).  Where a result turns on the rounding
    of a single [float] operation, that operation is rounded with
    [binary32], the nearest binary32 value of a rational: the product
    compared in [PulseWidthModulation.updateSustainParameters], and the
    modules [Delay32] and [Vibrato32].  The feedback limit of the delay
    is the value of the literal [0.99f], 4152361 / 4194304.  The waveforms,
    [Noise], [PulseWidthModulation], the triangle voice and the master
    chain over blocks are in exact arithmetic as well, and the theorems
    about them say so.

    What belongs to JUCE or to the C library stays a parameter:
    [getMidiNoteInHertz], the random engine, and the sine of [SinOsc]. *)

From Stdlib Require Import ZArith QArith Qround Qabs List Bool Lia Lqa.
From Stdlib Require Import Floats.SpecFloat.
Import ListNotations.

Local Open Scope Z_scope.

(** ** Machine integers and conversions *)

(** Two's-complement reading of an integer as a 32-bit [int]: the result of
    [int] arithmetic, with signed overflow (undefined in C++) read as
    wrap-around. *)
Definition int32 (z : Z) : Z := (z + 2 ^ 31) mod 2 ^ 32 - 2 ^ 31.

(** Conversion of an [int] to [size_t] (64-bit), as the usual arithmetic
    conversions do before a mixed comparison. *)
Definition to_size_t (z : Z) : Z := z mod 2 ^ 64.

(** [static_cast<int>] of a floating value: truncation toward zero. *)
Definition trunc (q : Q) : Z := Z.quot (Qnum q) (Zpos (Qden q)).

(** [std::round]: nearest integer, halfway cases away from zero. *)
Definition round (q : Q) : Z :=
  if Qle_bool 0 q then Qfloor (q + (1 # 2)) else Qceiling (q - (1 # 2)).

(** [std::clamp (v, lo, hi)]. *)
Definition clamp (v lo hi : Z) : Z :=
  if v <? lo then lo else if hi <? v then hi else v.

(** [juce::jlimit (lo, hi, v)]. *)
Definition jlimit (lo hi v : Q) : Q :=
  if Qlt_le_dec v lo then lo else if Qlt_le_dec hi v then hi else v.

(** ** Rounding to binary32 *)

(** The power [2 ^ e] for an exponent of either sign. *)
Definition pow2 (e : Z) : Q :=
  if 0 <=? e then inject_Z (2 ^ e) else (1 / inject_Z (2 ^ (- e)))%Q.

(** The nearest integer, ties to even. *)
Definition rne (q : Q) : Z :=
  let f := Qfloor q in
  match (q - inject_Z f ?= 1 # 2)%Q with
  | Lt => f
  | Gt => f + 1
  | Eq => if Z.even f then f else f + 1
  end.

(** The exponent of [q]: the floor of the binary logarithm of [|q|], for
    [q] other than 0. *)
Definition ilog2 (q : Q) : Z :=
  let l := Z.log2 (Z.abs (Qnum q)) - Z.log2 (Zpos (Qden q)) in
  if Qlt_le_dec (Qabs q) (pow2 l) then l - 1 else l.

(** The value of the binary floating-point number nearest to [q], ties to
    even, for a format of [prec] significant bits and least exponent
    [emin] (subnormal numbers included).  No value met here reaches the
    overflow threshold, so infinities are left out. *)
Definition binary (prec emin : Z) (q : Q) : Q :=
  if Qeq_bool q 0 then 0%Q
  else
    let e := Z.max (ilog2 q - (prec - 1)) emin in
    (inject_Z (rne (q / pow2 e)) * pow2 e)%Q.

(** [float] and [double].  A [float] product [a * b] of the code is
    [binary32 (a * b)] on the values of [a] and [b]. *)
Definition binary32 (q : Q) : Q := binary 24 (-149) q.
Definition binary64 (q : Q) : Q := binary 53 (-1074) q.

(** ** Bitcrusher.h *)

Module Bitcrusher.

Record t : Type := mk {
  sampleRateReduction : Z;
  bitDepth : Z;
  bitDepthScale : Q;
  lastProcessedSample : Q;
  currentSampleCount : Z
}.

(** The member initialisers of the class. *)
Definition init : t := mk 1 24 (inject_Z (2 ^ 24) - 1) 0 0.

Definition setSampleRateReduction (reductionFactor : Z) (b : t) : t :=
  mk (Z.max 1 reductionFactor) (bitDepth b) (bitDepthScale b)
     (lastProcessedSample b) (currentSampleCount b).

Definition setBitDepth (depth : Z) (b : t) : t :=
  let d := clamp depth 1 24 in
  mk (sampleRateReduction b) d (inject_Z (2 ^ d) - 1)
     (lastProcessedSample b) (currentSampleCount b).

(** [process]: the returned pair is the output sample and the new state. *)
Definition process (inVal : Q) (b : t) : Q * t :=
  let inVal := (2 * inVal)%Q in
  let count := int32 (currentSampleCount b + 1) in
  if sampleRateReduction b <=? count then
    let scaled := (inVal * bitDepthScale b)%Q in
    let quantized := inject_Z (round scaled) in
    let last := (quantized / bitDepthScale b)%Q in
    let last := (last / 2)%Q in
    (last, mk (sampleRateReduction b) (bitDepth b) (bitDepthScale b) last 0)
  else
    (lastProcessedSample b,
     mk (sampleRateReduction b) (bitDepth b) (bitDepthScale b)
        (lastProcessedSample b) count).

End Bitcrusher.

(** ** Delay.h *)

Module Delay.

Record t : Type := mk {
  buffer : list Q;
  readPos : Q;
  writePos : Q;
  feedback : Q;
  delayTime : Q;
  size : Z;
  dryWetMix : Q
}.

(** [std::vector::resize (n, 0.0f)]: keep the first [n] entries, pad with
    zeros. *)
Definition resize (n : nat) (l : list Q) : list Q :=
  firstn n l ++ repeat 0%Q (n - length l)%nat.

(** [buffer[i]] and [buffer[i] = v].  An index outside the vector is
    undefined behaviour in C++; here a read gives 0 and a write is dropped. *)
Definition read (l : list Q) (i : Z) : Q :=
  if i <? 0 then 0%Q else nth (Z.to_nat i) l 0%Q.

Fixpoint write_nat (l : list Q) (i : nat) (v : Q) : list Q :=
  match l, i with
  | [], _ => []
  | _ :: l', O => v :: l'
  | x :: l', S i' => x :: write_nat l' i' v
  end.

Definition write (l : list Q) (i : Z) (v : Q) : list Q :=
  if i <? 0 then l else write_nat l (Z.to_nat i) v.

Definition setSize (newSize : Z) (d : t) : t :=
  mk (resize (Z.to_nat newSize) (buffer d)) (readPos d) (writePos d)
     (feedback d) (delayTime d) newSize (dryWetMix d).

(** The upper limit is the literal [0.99f], the binary32 number nearest to
    0.99: 4152361 / 4194304, a little above 0.99. *)
Definition setFeedback (f : Q) (d : t) : t :=
  mk (buffer d) (readPos d) (writePos d) (jlimit 0 (4152361 # 4194304) f)
     (delayTime d) (size d) (dryWetMix d).

Definition setDelayTime (delayTimeinSamples : Q) (d : t) : t :=
  let rp := (writePos d - delayTimeinSamples)%Q in
  let rp := if Qlt_le_dec rp 0 then (rp + inject_Z (size d))%Q else rp in
  mk (buffer d) rp (writePos d) (feedback d) delayTimeinSamples (size d)
     (dryWetMix d).

Definition setDryWetMix (m : Q) (d : t) : t :=
  mk (buffer d) (readPos d) (writePos d) (feedback d) (delayTime d) (size d)
     (jlimit 0 1 m).

Definition linearInterpolation (d : t) : Q :=
  let indexA := Qfloor (readPos d) in
  let indexB := Z.rem (indexA + 1) (size d) in
  let ValA := read (buffer d) indexA in
  let ValB := read (buffer d) indexB in
  let frac := (readPos d - inject_Z indexA)%Q in
  ((1 - frac) * ValA + frac * ValB)%Q.

(** Increment and wrap of a position. *)
Definition advance (pos : Q) (size : Z) : Q :=
  let pos := (pos + 1)%Q in
  if Qlt_le_dec pos (inject_Z size) then pos else (pos - inject_Z size)%Q.

Definition process (inVal : Q) (d : t) : Q * t :=
  if Qlt_le_dec 0 (delayTime d) then
    let outVal := linearInterpolation d in
    let buf := write (buffer d) (trunc (writePos d))
                     (inVal + outVal * feedback d)%Q in
    ((inVal * (1 - dryWetMix d) + outVal * dryWetMix d)%Q,
     mk buf (advance (readPos d) (size d)) (advance (writePos d) (size d))
        (feedback d) (delayTime d) (size d) (dryWetMix d))
  else (inVal, d).

End Delay.

(** ** The master chain of [processBlock] *)

Module Master.

(** One channel: a bitcrusher followed by a delay. *)
Definition channel : Type := (Bitcrusher.t * Delay.t)%type.

(** The per-block parameter refresh of one channel.  The arguments are the
    host's sample rate and the raw (floating) parameter values; the two
    bitcrusher setters take [int], so their arguments are truncated. *)
Definition refresh (sampleRate rateReductionParam bitDepthParam
                    delayTimeParam feedbackParam dryWetMixParam : Q)
           (c : channel) : channel :=
  (Bitcrusher.setBitDepth (trunc bitDepthParam)
     (Bitcrusher.setSampleRateReduction (trunc rateReductionParam) (fst c)),
   Delay.setDryWetMix dryWetMixParam
     (Delay.setFeedback feedbackParam
        (Delay.setDelayTime (sampleRate * delayTimeParam)%Q (snd c)))).

(** One iteration of the sample loop on one channel. *)
Definition sample (x : Q) (c : channel) : Q * channel :=
  let (processed, b) := Bitcrusher.process x (fst c) in
  let (out, d) := Delay.process processed (snd c) in
  (out, (b, d)).

End Master.

(** ** PolyBLEPOscillator.h: the phase accumulator *)

Module Phasor.

Record t : Type := mk {
  frequency : Q;
  sampleRate : Q;
  phase : Q;
  phaseDelta : Q
}.

Definition init : t := mk 0 44100 0 0.

Definition setSampleRate (SR : Q) (p : t) : t :=
  mk (frequency p) SR (phase p) (phaseDelta p).

Definition setFrequency (Freq : Q) (p : t) : t :=
  mk Freq (sampleRate p) (phase p) (Freq / sampleRate p)%Q.

Definition getPhaseDelta (p : t) : Q := phaseDelta p.

Definition updatePhase (p : t) : t :=
  let ph := (phase p + phaseDelta p)%Q in
  mk (frequency p) (sampleRate p)
     (if Qlt_le_dec 1 ph then (ph - 1)%Q else ph) (phaseDelta p).

Definition getPhase (p : t) : Q * t :=
  let p := updatePhase p in (phase p, p).

(** [process] calls the virtual [output]; the waveform is the first
    argument. *)
Definition process (output : Q -> Q) (p : t) : Q * t :=
  let p := updatePhase p in (output (phase p), p).

(** The base class's [output]. *)
Definition output (p : Q) : Q := p.

(** [SawOsc::output]. *)
Definition saw_output (p : Q) : Q := (p - (1 # 2))%Q.

(** [n] ticks of [updatePhase]. *)
Fixpoint ticks (n : nat) (p : t) : t :=
  match n with
  | O => p
  | S n' => ticks n' (updatePhase p)
  end.

End Phasor.

(** ** Vibrato.h *)

Module Vibrato.

(** The controls the module polls from the parameter store. *)
Record params : Type := mkParams {
  vibSustain : Q;
  vibSpeed : Q;
  vibAmount : Q
}.

Record t : Type := mk {
  vibratoLFO : Phasor.t;
  VibratoFreq : Q;
  VibratoAmount : Q;
  sampleRate : Q;
  sustainSamples : Z;
  sustainCounter : Z
}.

Definition init : t := mk Phasor.init 5 (5 # 1000) 44100 0 0.

Definition setSampleRate (newSampleRate : Q) (v : t) : t :=
  mk (Phasor.setSampleRate newSampleRate (vibratoLFO v)) (VibratoFreq v)
     (VibratoAmount v) newSampleRate (sustainSamples v) (sustainCounter v).

Definition setFrequency (apvts : params) (v : t) : t :=
  mk (Phasor.setFrequency (vibSpeed apvts) (vibratoLFO v)) (vibSpeed apvts)
     (VibratoAmount v) (sampleRate v) (sustainSamples v) (sustainCounter v).

Definition resetSustainCounter (v : t) : t :=
  mk (vibratoLFO v) (VibratoFreq v) (VibratoAmount v) (sampleRate v)
     (sustainSamples v) 0.

Definition updateSustainParameters (apvts : params) (v : t) : t :=
  let newSustain := vibSustain apvts in
  if Qeq_bool (newSustain * sampleRate v) (inject_Z (sustainSamples v))
  then v
  else resetSustainCounter
         (mk (vibratoLFO v) (VibratoFreq v) (VibratoAmount v) (sampleRate v)
             (trunc (newSustain * sampleRate v)) (sustainCounter v)).

(** [process].  [sinOsc] is [SinOsc::output], the sine of [2 pi p]; it is a
    function of the C library and stays a parameter. *)
Definition process (sinOsc : Q -> Q) (apvts : params) (v : t) : Q * t :=
  let v := updateSustainParameters apvts v in
  if sustainCounter v <? sustainSamples v then
    (0%Q,
     mk (vibratoLFO v) (VibratoFreq v) (VibratoAmount v) (sampleRate v)
        (sustainSamples v) (int32 (sustainCounter v + 1)))
  else
    let freq := (vibSpeed apvts * 5 + 3)%Q in
    let amount := (vibAmount apvts / 20000)%Q in
    let (lfo, osc) :=
      Phasor.process sinOsc (Phasor.setFrequency freq (vibratoLFO v)) in
    ((lfo * amount)%Q,
     mk osc freq amount (sampleRate v) (sustainSamples v)
        (sustainCounter v)).


(** The outputs of [n] successive calls under fixed controls, first call
    first, and the state they leave. *)
Fixpoint run (sinOsc : Q -> Q) (apvts : params) (n : nat) (v : t)
  : list Q * t :=
  match n with
  | O => ([], v)
  | S n' =>
      let (y, v') := process sinOsc apvts v in
      let (ys, v'') := run sinOsc apvts n' v' in
      (y :: ys, v'')
  end.

End Vibrato.

(** ** Arpeggiator.h *)

Module Arpeggiator.

(** The controls the module polls from the parameter store. *)
Record params : Type := mkParams {
  arpPattern : Q;
  arpOctave : Q;
  arpSpeed : Q
}.

Section Class.

(** [juce::Random] with its [nextInt (Range<int>)], and
    [juce::MidiMessage::getMidiNoteInHertz], belong to the framework. *)
Variable Random : Type.
Variable nextInt : Z -> Z -> Random -> Z * Random.
Variable getMidiNoteInHertz : Z -> Q.

Record t : Type := mk {
  pattern : list Z;
  noteIndex : Z;
  noteIncrement : Z;
  numOctaves : Z;
  rootNote : Z;
  currentNote : Z;
  speed : Q;
  sampleRate : Q;
  samplesPerNote : Z;
  sampleCounter : Z;
  currentArpPattern : Z;
  currentArpOctave : Z;
  randomEngine : Random
}.

Definition with_pattern (l : list Z) (g : Random) (a : t) : t :=
  mk l (noteIndex a) (noteIncrement a) (numOctaves a) (rootNote a)
     (currentNote a) (speed a) (sampleRate a) (samplesPerNote a)
     (sampleCounter a) (currentArpPattern a) (currentArpOctave a) g.

Definition with_position (index increment : Z) (a : t) : t :=
  mk (pattern a) index increment (numOctaves a) (rootNote a)
     (currentNote a) (speed a) (sampleRate a) (samplesPerNote a)
     (sampleCounter a) (currentArpPattern a) (currentArpOctave a)
     (randomEngine a).

Definition with_currentNote (note : Z) (a : t) : t :=
  mk (pattern a) (noteIndex a) (noteIncrement a) (numOctaves a)
     (rootNote a) note (speed a) (sampleRate a) (samplesPerNote a)
     (sampleCounter a) (currentArpPattern a) (currentArpOctave a)
     (randomEngine a).

Definition with_sampleCounter (c : Z) (a : t) : t :=
  mk (pattern a) (noteIndex a) (noteIncrement a) (numOctaves a)
     (rootNote a) (currentNote a) (speed a) (sampleRate a)
     (samplesPerNote a) c (currentArpPattern a) (currentArpOctave a)
     (randomEngine a).

(** [size_t] to [int], as in [noteIndex = pattern.size() - 1]. *)
Definition size (a : t) : Z := Z.of_nat (length (pattern a)).

Definition incrementPattern (a : t) : t :=
  let index := int32 (noteIndex a + 1) in
  if size a <=? to_size_t index then
    if 0 <? numOctaves a then
      let increment := int32 (noteIncrement a + 1) in
      with_position 0
        (if numOctaves a <=? increment then 0 else increment) a
    else
      with_position (int32 (to_size_t (size a - 1))) (noteIncrement a) a
  else with_position index (noteIncrement a) a.

(** The six draws of [generateRandomPattern], in order. *)
Fixpoint draws (n : nat) (g : Random) : list Z * Random :=
  match n with
  | O => ([], g)
  | S n' =>
      let (v, g') := nextInt (-7) 8 g in
      let (vs, g'') := draws n' g' in
      (v :: vs, g'')
  end.

Definition generateRandomPattern (a : t) : t :=
  let (vs, g) := draws 6 (randomEngine a) in
  with_pattern (0 :: vs) g a.

Definition updateSamplesPerNote (apvts : params) (a : t) : t :=
  mk (pattern a) (noteIndex a) (noteIncrement a) (numOctaves a)
     (rootNote a) (currentNote a) (speed a) (sampleRate a)
     (trunc (sampleRate a * (1 # 2) * ((101 # 100) - arpSpeed apvts)))
     (sampleCounter a) (currentArpPattern a) (currentArpOctave a)
     (randomEngine a).

Definition setSpeed (apvts : params) (a : t) : t :=
  updateSamplesPerNote apvts
    (mk (pattern a) (noteIndex a) (noteIncrement a) (numOctaves a)
        (rootNote a) (currentNote a) (arpSpeed apvts) (sampleRate a)
        (samplesPerNote a) (sampleCounter a) (currentArpPattern a)
        (currentArpOctave a) (randomEngine a)).

Definition setSampleRate (apvts : params) (newSampleRate : Q) (a : t)
  : t :=
  updateSamplesPerNote apvts
    (mk (pattern a) (noteIndex a) (noteIncrement a) (numOctaves a)
        (rootNote a) (currentNote a) (speed a) newSampleRate
        (samplesPerNote a) (sampleCounter a) (currentArpPattern a)
        (currentArpOctave a) (randomEngine a)).

Definition switchArpPattern (apvts : params) (a : t) : t :=
  let sel := trunc (arpPattern apvts) in
  let a :=
    mk (pattern a) (noteIndex a) (noteIncrement a) (numOctaves a)
       (rootNote a) (currentNote a) (speed a) (sampleRate a)
       (samplesPerNote a) (sampleCounter a) sel (currentArpOctave a)
       (randomEngine a) in
  if sel =? 8 then generateRandomPattern a
  else
    match sel with
    | 0 => with_pattern [0; 3] (randomEngine a) a
    | 1 => with_pattern [0; 4] (randomEngine a) a
    | 2 => with_pattern [0; 5] (randomEngine a) a
    | 3 => with_pattern [0; 7] (randomEngine a) a
    | 4 => with_pattern [0; 3; 7] (randomEngine a) a
    | 5 => with_pattern [0; 4; 7] (randomEngine a) a
    | 6 => with_pattern [0; 4; 7; 11] (randomEngine a) a
    | 7 => with_pattern [0; 4; 7; 11; 14] (randomEngine a) a
    | _ => a
    end.

Definition switchArpOctave (apvts : params) (a : t) : t :=
  let sel := trunc (arpOctave apvts) in
  let octaves :=
    match sel with
    | 0 => 0
    | 1 => 1
    | 2 => 2
    | _ => numOctaves a
    end in
  mk (pattern a) (noteIndex a) (noteIncrement a) octaves (rootNote a)
     (currentNote a) (speed a) (sampleRate a) (samplesPerNote a)
     (sampleCounter a) (currentArpPattern a) sel (randomEngine a).

(** The constructor: member initialisers, then the two selectors. *)
Definition construct (apvts : params) (g : Random) : t :=
  switchArpOctave apvts
    (switchArpPattern apvts
       (mk [] 1 0 0 0 0 1 44100 44100 0 0 0 g)).

Definition startArpeggio (apvts : params) (_rootNote : Z) (a : t) : t :=
  switchArpOctave apvts
    (switchArpPattern apvts
       (mk (pattern a) 1 0 (numOctaves a) _rootNote _rootNote (speed a)
           (sampleRate a) (samplesPerNote a) 0 (currentArpPattern a)
           (currentArpOctave a) (randomEngine a))).

(** The body of the inner [if] of [getNextFrequency]: one pattern
    advance.  [None] is a read of [pattern] past its end. *)
Definition advance (a : t) : option t :=
  match nth_error (pattern a) (Z.to_nat (to_size_t (noteIndex a))) with
  | Some offset =>
      let newNote :=
        int32 (rootNote a + offset + 12 * noteIncrement a) in
      Some (incrementPattern (with_currentNote newNote a))
  | None => None
  end.

(** [getNextFrequency]: the frequency returned and the new state; [None]
    when the call reads [pattern] out of bounds. *)
Definition getNextFrequency (apvts : params) (a : t) : option (Q * t) :=
  let a := setSpeed apvts a in
  let stepped :=
    if samplesPerNote a <=? sampleCounter a then
      let a := with_sampleCounter 0 a in
      if to_size_t (noteIndex a) <=? size a then advance a else Some a
    else Some a in
  match stepped with
  | Some a =>
      let a := with_sampleCounter (int32 (sampleCounter a + 1)) a in
      Some (getMidiNoteInHertz (currentNote a), a)
  | None => None
  end.

(** Successive calls, one per snapshot of the controls: the frequencies
    returned, first call first, and the final state. *)
Fixpoint run (calls : list params) (a : t) : option (list Q * t) :=
  match calls with
  | [] => Some ([], a)
  | apvts :: rest =>
      match getNextFrequency apvts a with
      | Some (f, a') =>
          match run rest a' with
          | Some (fs, a'') => Some (f :: fs, a'')
          | None => None
          end
      | None => None
      end
  end.

(** [n] pattern advances in a row. *)
Fixpoint advances (n : nat) (a : t) : option t :=
  match n with
  | O => Some a
  | S n' =>
      match advance a with
      | Some a' => advances n' a'
      | None => None
      end
  end.

(** [noteIndex] indexes within a pattern of a size an [int] holds. *)
Definition in_pattern (a : t) : Prop :=
  0 <= noteIndex a < size a /\ size a < 2 ^ 31.

(** The state of the two-note hold: pattern [[0; 3]], no octaves, positioned
    on the second note. *)
Definition holding (root : Z) (a : t) : Prop :=
  pattern a = [0; 3] /\ numOctaves a = 0 /\ rootNote a = root /\
  noteIndex a = 1 /\ noteIncrement a = 0.

(** The position and the note a state shows. *)
Definition shown (a : option t) : option (Z * Z * Z) :=
  option_map (fun a => (noteIndex a, noteIncrement a, currentNote a)) a.

End Class.

Arguments in_pattern {Random}.
Arguments holding {Random}.
Arguments shown {Random}.
Arguments mk {Random}.
Arguments pattern {Random}.
Arguments noteIndex {Random}.
Arguments noteIncrement {Random}.
Arguments numOctaves {Random}.
Arguments rootNote {Random}.
Arguments currentNote {Random}.
Arguments sampleCounter {Random}.
Arguments samplesPerNote {Random}.
Arguments size {Random}.
Arguments incrementPattern {Random}.
Arguments draws {Random}.
Arguments generateRandomPattern {Random}.
Arguments randomEngine {Random}.
Arguments advance {Random}.
Arguments advances {Random}.
Arguments with_sampleCounter {Random}.
Arguments with_currentNote {Random}.
Arguments with_position {Random}.
Arguments setSpeed {Random}.
Arguments switchArpOctave {Random}.
Arguments switchArpPattern {Random}.
Arguments startArpeggio {Random}.
Arguments construct {Random}.
Arguments getNextFrequency {Random}.
Arguments run {Random}.

End Arpeggiator.

(** ** Floating-point operations *)

(** The operations [PitchBend] performs on [float] and [double] values.
    [flt a b] is [a < b]; [int_of_float] and [int_of_double] are the
    conversions to [int]. *)
Class FloatOps : Type := {
  float : Type;
  double : Type;
  float_of_int : Z -> float;
  double_of_int : Z -> double;
  float_of_double : double -> float;
  double_of_float : float -> double;
  int_of_float : float -> Z;
  int_of_double : double -> Z;
  fadd : float -> float -> float;
  fsub : float -> float -> float;
  fdiv : float -> float -> float;
  dmul : double -> double -> double;
  flt : float -> float -> bool
}.

(** IEEE arithmetic as the compiled code performs it: a [float] is a
    binary32 number and a [double] a binary64 number, both as [spec_float];
    the operations round to nearest, ties to even. *)
Module IEEE.

(** The dyadic [m * 2 ^ e] as a [float], and as a [double]. *)
Definition float_of (m e : Z) : spec_float :=
  binary_normalize 24 128 m e false.
Definition double_of (m e : Z) : spec_float :=
  binary_normalize 53 1024 m e false.

(** [float] to [double] is exact; [double] to [float] rounds. *)
Definition widen (x : spec_float) : spec_float :=
  match x with
  | S754_finite s m e => binary_normalize 53 1024 (cond_Zopp s (Zpos m)) e s
  | _ => x
  end.

Definition narrow (x : spec_float) : spec_float :=
  match x with
  | S754_finite s m e => binary_normalize 24 128 (cond_Zopp s (Zpos m)) e s
  | _ => x
  end.

(** Conversion to [int]: toward zero.  Infinities and NaN, for which the
    conversion is undefined in C++, give 0. *)
Definition int_of (x : spec_float) : Z :=
  match x with
  | S754_finite s m e =>
      cond_Zopp s
        (if 0 <=? e then Zpos m * 2 ^ e else Z.quot (Zpos m) (2 ^ (- e)))
  | _ => 0
  end.

Definition ops : FloatOps := {|
  float := spec_float;
  double := spec_float;
  float_of_int := fun z => float_of z 0;
  double_of_int := fun z => double_of z 0;
  float_of_double := narrow;
  double_of_float := widen;
  int_of_float := int_of;
  int_of_double := int_of;
  fadd := SFadd 24 128;
  fsub := SFsub 24 128;
  fdiv := SFdiv 24 128;
  dmul := SFmul 53 1024;
  flt := SFltb
|}.

End IEEE.

(** Exact arithmetic: both types are the rationals and nothing rounds. *)
Module Exact.

Definition lt (a b : Q) : bool := negb (Qle_bool b a).

Definition ops : FloatOps := {|
  float := Q;
  double := Q;
  float_of_int := inject_Z;
  double_of_int := inject_Z;
  float_of_double := fun x => x;
  double_of_float := fun x => x;
  int_of_float := trunc;
  int_of_double := trunc;
  fadd := Qplus;
  fsub := Qminus;
  fdiv := Qdiv;
  dmul := Qmult;
  flt := lt
|}.

End Exact.

(** ** PitchBend.h *)

Module PitchBend.

Section Class.

Context {F : FloatOps}.

(** The controls the module polls from the parameter store. *)
Record params : Type := mkParams {
  pbInitPitch : float;
  pbTime : float
}.

(** [juce::MidiMessage::getMidiNoteInHertz] returns a [double]. *)
Variable getMidiNoteInHertz : Z -> double.

Record t : Type := mk {
  inputNote : Z;
  initNote : Z;
  currentFreq : float;
  inputFreq : float;
  bendSamples : Z;
  bendDelta : float;
  sampleRate : double
}.

(** The member initialisers. *)
Definition init : t :=
  mk 0 0 (float_of_int 0) (float_of_int 0) 0 (float_of_int 0)
     (double_of_int 44100).

Definition calculateBendSamples (apvts : params) (p : t) : t :=
  mk (inputNote p) (initNote p) (currentFreq p) (inputFreq p)
     (int_of_double (dmul (double_of_float (pbTime apvts)) (sampleRate p)))
     (bendDelta p) (sampleRate p).

Definition setSampleRate (apvts : params) (_sampleRate : double) (p : t) : t :=
  calculateBendSamples apvts
    (mk (inputNote p) (initNote p) (currentFreq p) (inputFreq p)
        (bendSamples p) (bendDelta p) _sampleRate).

Definition startPitchBend (apvts : params) (_inputNote : Z) (p : t) : t :=
  let target := float_of_double (getMidiNoteInHertz _inputNote) in
  let init := int_of_float (pbInitPitch apvts) in
  let current :=
    float_of_double (getMidiNoteInHertz (int32 (_inputNote + init))) in
  mk _inputNote init current target (bendSamples p)
     (fdiv (fsub target current) (float_of_int (bendSamples p)))
     (sampleRate p).

Definition process (p : t) : float * t :=
  let zero := float_of_int 0 in
  let current :=
    if (flt zero (bendDelta p) && flt (currentFreq p) (inputFreq p))
       || (flt (bendDelta p) zero && flt (inputFreq p) (currentFreq p))
    then fadd (currentFreq p) (bendDelta p)
    else inputFreq p in
  (current,
   mk (inputNote p) (initNote p) current (inputFreq p) (bendSamples p)
      (bendDelta p) (sampleRate p)).

(** The state after [n] calls of [process]. *)
Definition calls (n : Z) (p : t) : t := Z.iter n (fun p => snd (process p)) p.

(** [currentFreq] lies strictly past the target in the direction of the
    bend. *)
Definition overshoots (p : t) : bool :=
  let zero := float_of_int 0 in
  (flt zero (bendDelta p) && flt (inputFreq p) (currentFreq p))
  || (flt (bendDelta p) zero && flt (currentFreq p) (inputFreq p)).

End Class.

End PitchBend.


(** ** The pitch-bend ramp in exact arithmetic *)

(** The states of a bend from [cur0] to [tgt] in [n] steps: the step is the
    [n]-th of the distance and [currentFreq] has made [j <= n] steps. *)
Definition on_ramp (cur0 tgt : Q) (n : Z)
           (p : PitchBend.t (F := Exact.ops)) : Prop :=
  (PitchBend.bendDelta p == (tgt - cur0) / inject_Z n)%Q /\
  (PitchBend.inputFreq p == tgt)%Q /\
  exists j : Z,
    0 <= j <= n /\
    (PitchBend.currentFreq p
     == cur0 + inject_Z j * PitchBend.bendDelta p)%Q.

(** ** Quantisation levels *)

(** The spec's [quantLevels] for a bit depth, and the [k]-th point of the grid
    of spacing [1 / (2 * quantLevels)] around 0. *)
Definition quantLevels (d : Z) : Z := 2 ^ d - 1.


(** The bitcrusher's output at depth [d] with no rate reduction. *)
Definition crush (d : Z) (b : Bitcrusher.t) (x : Q) : Q :=
  fst (Bitcrusher.process x
         (Bitcrusher.setBitDepth d (Bitcrusher.setSampleRateReduction 1 b))).

(** ** Runs of the bitcrusher *)

(** The outputs of successive calls of [Bitcrusher.process], one per input,
    and the state they leave. *)
Fixpoint crush_run (xs : list Q) (b : Bitcrusher.t) : list Q * Bitcrusher.t :=
  match xs with
  | [] => ([], b)
  | x :: rest =>
      let (y, b') := Bitcrusher.process x b in
      let (ys, b'') := crush_run rest b' in
      (y :: ys, b'')
  end.

(** The value [process] computes from an input when it re-quantises. *)
Definition requantized (b : Bitcrusher.t) (x : Q) : Q :=
  (inject_Z (round (2 * x * Bitcrusher.bitDepthScale b))
   / Bitcrusher.bitDepthScale b / 2)%Q.

(** ** Using the delay line *)

Module DelayLine.

(** A delay as its constructor leaves it: [delayTime] and [size] have no
    initialiser, so their values are arbitrary. *)
Definition fresh (delayTime0 : Q) (size0 : Z) : Delay.t :=
  Delay.mk [] 1 0 (1 # 2) delayTime0 size0 (1 # 5).

(** The calls a user makes on a sized delay. *)
Inductive op : Type :=
| SetDelayTime (t : Q)
| SetFeedback (f : Q)
| SetDryWetMix (m : Q)
| Process (x : Q).

Definition apply (o : op) (d : Delay.t) : Delay.t :=
  match o with
  | SetDelayTime t => Delay.setDelayTime t d
  | SetFeedback f => Delay.setFeedback f d
  | SetDryWetMix m => Delay.setDryWetMix m d
  | Process x => snd (Delay.process x d)
  end.

Fixpoint exec (ops : list op) (d : Delay.t) : Delay.t :=
  match ops with
  | [] => d
  | o :: rest => exec rest (apply o d)
  end.

(** The outputs of successive calls of [process], one per input, and the
    state they leave. *)
Fixpoint run (xs : list Q) (d : Delay.t) : list Q * Delay.t :=
  match xs with
  | [] => ([], d)
  | x :: rest =>
      let (y, d') := Delay.process x d in
      let (ys, d'') := run rest d' in
      (y :: ys, d'')
  end.

(** A delay time the buffer can hold. *)
Definition fits (n : Z) (o : op) : Prop :=
  match o with
  | SetDelayTime t => (0 <= t <= inject_Z n)%Q
  | _ => True
  end.

(** The buffer has [size] entries and both positions lie in [[0, size)]. *)
Definition wf (d : Delay.t) : Prop :=
  0 < Delay.size d /\
  Z.of_nat (length (Delay.buffer d)) = Delay.size d /\
  (0 <= Delay.readPos d < inject_Z (Delay.size d))%Q /\
  (0 <= Delay.writePos d < inject_Z (Delay.size d))%Q.

(** The three indices [process] uses (the two read by
    [linearInterpolation] and the one written) are indices of the buffer. *)
Definition in_bounds (d : Delay.t) : Prop :=
  let len := Z.of_nat (length (Delay.buffer d)) in
  0 <= Qfloor (Delay.readPos d) < len /\
  0 <= Z.rem (Qfloor (Delay.readPos d) + 1) (Delay.size d) < len /\
  0 <= trunc (Delay.writePos d) < len.

(** The read position is the write position less the delay time, modulo the
    size. *)
Definition trails (d : Delay.t) : Prop :=
  exists j : Z,
    0 <= j <= 1 /\
    (Delay.readPos d
     == Delay.writePos d - Delay.delayTime d
        + inject_Z j * inject_Z (Delay.size d))%Q.

(** Every stored sample lies within [M] of 0. *)
Definition bounded (M : Q) (l : list Q) : Prop :=
  Forall (fun v => (- M <= v <= M)%Q) l.

End DelayLine.

(** ** PolyBLEPOscillator.h: the waveforms *)

Module Waveforms.

(** [fmod (x, 1.0f)]: [x] less its integer part, with the sign of [x]. *)
Definition fmod1 (x : Q) : Q := (x - inject_Z (trunc x))%Q.

(** [Phasor::poly_blep], with the [phaseDelta] it reads passed in. *)
Definition poly_blep (phaseDelta t : Q) : Q :=
  let dt := phaseDelta in
  if Qlt_le_dec t dt then
    let t := (t / dt)%Q in (t + t - t * t - 1)%Q
  else if Qlt_le_dec (1 - dt) t then
    let t := ((t - 1) / dt)%Q in (t * t + t + t + 1)%Q
  else 0%Q.

(** [SquareOsc::output]. *)
Definition square_output (phaseDelta pulseWidth p : Q) : Q :=
  let outVal := if Qlt_le_dec p pulseWidth then 1%Q else (- (1))%Q in
  let outVal := (outVal + poly_blep phaseDelta p)%Q in
  (outVal - poly_blep phaseDelta (fmod1 (p + (1 - pulseWidth))))%Q.

(** [TriOsc::output]. *)
Definition tri_output (p : Q) : Q :=
  let p :=
    if Qlt_le_dec p (1 # 2) then (p * 4 - 1)%Q
    else
      let t := ((p - (1 # 2)) * 2)%Q in
      (1 - 2 * t * t)%Q in
  (p / 2)%Q.

(** [process] of a [SquareOsc] of pulse width [pulseWidth]. *)
Definition square_process (pulseWidth : Q) (p : Phasor.t) : Q * Phasor.t :=
  Phasor.process (square_output (Phasor.phaseDelta p) pulseWidth) p.

End Waveforms.

(** ** Noise.h *)

Module Noise.

Definition wtSize : Z := 3000.

Record t : Type := mk {
  waveTable : list Q;
  frequency : Q;
  phase : Q;
  increment : Q;
  sampleRate : Q
}.

(** The constructor fills the table from [wtSize] draws of [std::rand],
    here the sequence [rand]; the member [increment] has no initialiser and
    starts at whatever [increment0] the memory holds. *)
Definition construct (rand : nat -> Z) (increment0 : Q) : t :=
  mk (map (fun i => (inject_Z (Z.rem (rand i) 16 - 8) / 8)%Q)
          (seq 0 (Z.to_nat wtSize)))
     440 0 increment0 44100.

Definition setSampleRate (newSampleRate : Q) (n : t) : t :=
  mk (waveTable n) (frequency n) (phase n) (increment n) newSampleRate.

Definition setFrequency (freq : Q) (n : t) : t :=
  mk (waveTable n) freq (phase n)
     (freq * inject_Z wtSize / sampleRate n)%Q (sampleRate n).

(** [process]; [None] when [waveTable[index]] is outside the table. *)
Definition process (n : t) : option (Q * t) :=
  let index := trunc (phase n) in
  if (0 <=? index) && (index <? Z.of_nat (length (waveTable n))) then
    let output := nth (Z.to_nat index) (waveTable n) 0%Q in
    let ph := (phase n + increment n)%Q in
    let ph := if Qlt_le_dec ph (inject_Z wtSize) then ph
              else (ph - inject_Z wtSize)%Q in
    Some (output,
          mk (waveTable n) (frequency n) ph (increment n) (sampleRate n))
  else None.

(** [k] calls of [process], collecting what they return. *)
Fixpoint run (k : nat) (n : t) : option (list Q * t) :=
  match k with
  | O => Some ([], n)
  | S k' =>
      match process n with
      | None => None
      | Some (x, n') =>
          match run k' n' with
          | None => None
          | Some (xs, n'') => Some (x :: xs, n'')
          end
      end
  end.

(** One of the sixteen values [j/8], [-8 <= j <= 7]. *)
Definition four_bit (v : Q) : Prop :=
  exists j : Z, -8 <= j <= 7 /\ v = (inject_Z j / 8)%Q.

Definition wf (n : t) : Prop :=
  Z.of_nat (length (waveTable n)) = wtSize /\
  Forall four_bit (waveTable n) /\
  (0 <= phase n < inject_Z wtSize)%Q /\
  (0 <= increment n <= inject_Z wtSize)%Q.

End Noise.

(** ** PulseWidthModulation.h *)

Module PulseWidthModulation.

(** The controls the module polls from the parameter store. *)
Record params : Type := mkParams {
  pwmSustain : Q;
  pwmMode : Q;
  pwmRate : Q
}.

Section Class.

(** [juce::SmoothedValue<float>] is a class of the JUCE library and stays a
    parameter: its state and the three members the module calls. *)
Variable Smoothed : Type.
Variable reset : Q -> Q -> Smoothed -> Smoothed.
Variable setTargetValue : Q -> Smoothed -> Smoothed.
Variable getNextValue : Smoothed -> Q * Smoothed.

(** The members of the [Phasor] base class are never touched and are left
    out. *)
Record t : Type := mk {
  arpOsc : Phasor.t;
  sampleRate : Q;
  currentPwMode : Z;
  pwIndex : Z;
  sustainSamples : Z;
  sustainCounter : Z;
  smoothPulseWidth : Smoothed
}.

Definition pulseWidths : list Q := [(1 # 8)%Q; (1 # 4)%Q; (1 # 2)%Q].

Definition construct (s0 : Smoothed) : t := mk Phasor.init 44100 0 0 0 0 s0.

Definition setSampleRate (newSampleRate : Q) (p : t) : t :=
  mk (Phasor.setSampleRate newSampleRate (arpOsc p)) newSampleRate
     (currentPwMode p) (pwIndex p) (sustainSamples p) (sustainCounter p)
     (reset newSampleRate (1 # 100) (smoothPulseWidth p)).

Definition setRate (apvts : params) (p : t) : t :=
  mk (Phasor.setFrequency (pwmRate apvts * 10) (arpOsc p)) (sampleRate p)
     (currentPwMode p) (pwIndex p) (sustainSamples p) (sustainCounter p)
     (smoothPulseWidth p).

Definition resetSustainCounter (p : t) : t :=
  mk (arpOsc p) (sampleRate p) (currentPwMode p) (pwIndex p)
     (sustainSamples p) 0 (smoothPulseWidth p).

(** [newSustain * sampleRate] is a product of two [float]s, rounded to
    binary32, and the comparison converts [sustainSamples] to [float]. *)
Definition updateSustainParameters (apvts : params) (p : t) : t :=
  let newSustain := pwmSustain apvts in
  let product := binary32 (newSustain * sampleRate p) in
  let p :=
    if Qeq_bool product (binary32 (inject_Z (sustainSamples p)))
    then p
    else resetSustainCounter
           (mk (arpOsc p) (sampleRate p) (currentPwMode p) (pwIndex p)
               (trunc product) (sustainCounter p)
               (smoothPulseWidth p)) in
  let newMode := trunc (pwmMode apvts) in
  if newMode =? currentPwMode p then p
  else resetSustainCounter
         (mk (arpOsc p) (sampleRate p) newMode (pwIndex p)
             (sustainSamples p) (sustainCounter p) (smoothPulseWidth p)).

Definition calculateIndex (apvts : params) (p : t) : t :=
  let (oscOutput, osc) := Phasor.process Phasor.output (arpOsc p) in
  let mode := trunc (pwmMode apvts) in
  let index :=
    match mode with
    | 0 => trunc (oscOutput * (199 # 100))
    | 1 => trunc (oscOutput * (299 # 100))
    | 2 => int32 (trunc (oscOutput * (199 # 100)) + 1)
    | 3 => trunc ((1 - oscOutput) * (199 # 100))
    | 4 => int32 (trunc ((1 - oscOutput) * (199 # 100)) + 1)
    | 5 => trunc ((1 - oscOutput) * (299 # 100))
    | _ => pwIndex p
    end in
  mk osc (sampleRate p) mode index (sustainSamples p) (sustainCounter p)
     (smoothPulseWidth p).

(** [process] up to the choice of the pulse width index. *)
Definition select (apvts : params) (p : t) : t :=
  let p := setRate apvts p in
  let p := updateSustainParameters apvts p in
  if sustainCounter p <? sustainSamples p then
    let index :=
      match currentPwMode p with
      | 0 | 1 => 0
      | 2 | 3 => 1
      | 4 | 5 => 2
      | _ => pwIndex p
      end in
    mk (arpOsc p) (sampleRate p) (currentPwMode p) index (sustainSamples p)
       (int32 (sustainCounter p + 1)) (smoothPulseWidth p)
  else calculateIndex apvts p.

(** [process]; [None] when [pulseWidths[pwIndex]] is outside the table. *)
Definition process (apvts : params) (p : t) : option (Q * t) :=
  let p := select apvts p in
  if (0 <=? pwIndex p) && (pwIndex p <? Z.of_nat (length pulseWidths)) then
    let target := nth (Z.to_nat (pwIndex p)) pulseWidths 0%Q in
    let (y, s) := getNextValue (setTargetValue target (smoothPulseWidth p)) in
    Some (y,
          mk (arpOsc p) (sampleRate p) (currentPwMode p) (pwIndex p)
             (sustainSamples p) (sustainCounter p) s)
  else None.

(** One call of [process] per entry of [cs], the controls polled by that
    call; each call gives the index it chose and the value it returned. *)
Fixpoint run (cs : list params) (p : t) : option (list (Z * Q) * t) :=
  match cs with
  | [] => Some ([], p)
  | c :: cs' =>
      match process c p with
      | None => None
      | Some (y, p') =>
          match run cs' p' with
          | None => None
          | Some (out, p'') => Some ((pwIndex p', y) :: out, p'')
          end
      end
  end.

End Class.

Arguments mk {Smoothed}.
Arguments arpOsc {Smoothed}.
Arguments sampleRate {Smoothed}.
Arguments currentPwMode {Smoothed}.
Arguments pwIndex {Smoothed}.
Arguments sustainSamples {Smoothed}.
Arguments sustainCounter {Smoothed}.
Arguments smoothPulseWidth {Smoothed}.
Arguments construct {Smoothed}.
Arguments setSampleRate {Smoothed}.
Arguments setRate {Smoothed}.
Arguments resetSustainCounter {Smoothed}.
Arguments updateSustainParameters {Smoothed}.
Arguments calculateIndex {Smoothed}.
Arguments select {Smoothed}.
Arguments process {Smoothed}.
Arguments run {Smoothed}.

(** The controls as the parameter layout bounds them: a mode among the six
    choices and a rate in [[0, 1]]. *)
Definition in_layout (c : params) : Prop :=
  (exists m : Z, 0 <= m <= 5 /\ pwmMode c = inject_Z m) /\
  (0 <= pwmRate c <= 1)%Q.

(** The indices the mode [m] names: 12.5 to 25 and 25 to 12.5 percent use
    the first two widths, 25 to 50 and 50 to 25 percent the last two, the
    other two modes all three. *)
Definition in_mode (m i : Z) : Prop :=
  match m with
  | 0 | 3 => 0 <= i <= 1
  | 2 | 4 => 1 <= i <= 2
  | _ => 0 <= i <= 2
  end.

(** The modulation oscillator can run: a sample rate of at least 10 Hz and
    a phase in [[0, 1]]. *)
Definition ready {Smoothed : Type} (p : t Smoothed) : Prop :=
  (10 <= Phasor.sampleRate (arpOsc p))%Q /\
  (0 <= Phasor.phase (arpOsc p) <= 1)%Q.

End PulseWidthModulation.

(** ** The arpeggio as a sequence of notes *)

Module Arpeggio.

Import Arpeggiator.

(** The position in the loop: [noteIncrement] passes of the pattern, then
    [noteIndex] notes. *)
Definition place {Random : Type} (a : t Random) : Z :=
  noteIncrement a * size a + noteIndex a.

(** The state positioned at place [c] of the loop. *)
Definition at_place {Random : Type} (c : Z) (a : t Random) : t Random :=
  with_position (c mod size a) ((c / size a) mod numOctaves a) a.

(** The note [advance] emits at place [c]. *)
Definition note_at {Random : Type} (c : Z) (a : t Random) : Z :=
  int32 (rootNote a + nth (Z.to_nat (c mod size a)) (pattern a) 0
         + 12 * ((c / size a) mod numOctaves a)).

(** Two states that agree on all that [advance] reads and writes: they
    differ at most in the speed, the sample rate, the note length, the
    sample counter, the selectors and the random engine. *)
Definition same_notes {Random : Type} (a b : t Random) : Prop :=
  pattern a = pattern b /\ noteIndex a = noteIndex b /\
  noteIncrement a = noteIncrement b /\ numOctaves a = numOctaves b /\
  rootNote a = rootNote b /\ currentNote a = currentNote b.

(** The arpeggio around [root]: offsets of -7 to 14 semitones, at most two
    octaves, and a current note from 7 below to 26 above the root. *)
Definition ranged {Random : Type} (root : Z) (a : t Random) : Prop :=
  in_pattern a /\
  Forall (fun o => -7 <= o <= 14) (pattern a) /\
  0 <= noteIncrement a <= 1 /\ numOctaves a <= 2 /\
  rootNote a = root /\
  root - 7 <= currentNote a <= root + 26.

End Arpeggio.

(** ** ChiptuneSynthesiser.h: the triangle voice *)

Module Voice.

(** The triangle case of the sample loop of [renderNextBlock]: one sample
    at frequency [freq], with or without the distortion, on the voice's
    triangle oscillator and bitcrusher.  In exact arithmetic: the product
    by 1.2 is not rounded. *)
Definition triangle (triDistortionEnabled : bool) (freq : Q)
           (triWave : Phasor.t) (bitcrusher : Bitcrusher.t)
  : Q * (Phasor.t * Bitcrusher.t) :=
  let triWave := Phasor.setFrequency freq triWave in
  if triDistortionEnabled then
    let (rawSample, triWave) := Phasor.process Waveforms.tri_output triWave in
    let bitcrusher := Bitcrusher.setSampleRateReduction 2 bitcrusher in
    let bitcrusher := Bitcrusher.setBitDepth 4 bitcrusher in
    let (crushed, bitcrusher) := Bitcrusher.process rawSample bitcrusher in
    ((crushed * (12 # 10))%Q, (triWave, bitcrusher))
  else
    let (sample, triWave) := Phasor.process Waveforms.tri_output triWave in
    ((sample * (12 # 10))%Q, (triWave, bitcrusher)).

(** One sample per entry of [controls], the distortion switch and the
    frequency of that sample. *)
Fixpoint render (controls : list (bool * Q)) (triWave : Phasor.t)
         (bitcrusher : Bitcrusher.t) : list Q * (Phasor.t * Bitcrusher.t) :=
  match controls with
  | [] => ([], (triWave, bitcrusher))
  | (switch, freq) :: rest =>
      let '(y, (triWave, bitcrusher)) :=
        triangle switch freq triWave bitcrusher in
      let (ys, final) := render rest triWave bitcrusher in
      (y :: ys, final)
  end.

(** One of the 31 values the 4-bit quantiser produces, [k/30] with
    [-15 <= k <= 15]. *)
Definition four_bit (v : Q) : Prop :=
  exists k : Z, -15 <= k <= 15 /\ (v == inject_Z k / 30)%Q.

(** The voice between two samples: the oscillator runs at sample rate [sr]
    with a phase in [[0, 1]], the bitcrusher holds a 4-bit value. *)
Definition steady (sr : Q) (triWave : Phasor.t) (bitcrusher : Bitcrusher.t)
  : Prop :=
  Phasor.sampleRate triWave = sr /\
  (0 <= Phasor.phase triWave <= 1)%Q /\
  four_bit (Bitcrusher.lastProcessedSample bitcrusher) /\
  0 <= Bitcrusher.currentSampleCount bitcrusher < 2 ^ 31 - 1.

End Voice.

(** ** The delay line as a shift register *)

Module Echo.

(** A delay of [D] samples with feedback [f] and mix [m], as a shift
    register: [hist] holds the samples stored so far, the latest first; the
    wet signal is the sample stored [D] steps ago (0 before there is one),
    the sample stored is the input plus the wet signal times [f], and the
    output mixes the input and the wet signal. *)
Fixpoint shift_register (D : Z) (f m : Q) (hist xs : list Q) : list Q :=
  match xs with
  | [] => []
  | x :: rest =>
      let wet := nth (Z.to_nat (D - 1)) hist 0%Q in
      (x * (1 - m) + wet * m)%Q
      :: shift_register D f m ((x + wet * f)%Q :: hist) rest
  end.

(** The circular buffer of [d] holds the history [hist]: the write position
    is the whole number [w], the read position is [D] behind it, and the
    entry [j + 1] places behind [w] is the [j]-th latest stored sample. *)
Definition stores (D : Z) (hist : list Q) (d : Delay.t) : Prop :=
  Z.of_nat (length (Delay.buffer d)) = Delay.size d /\
  exists w : Z,
    0 <= w < Delay.size d /\
    (Delay.writePos d == inject_Z w)%Q /\
    (Delay.readPos d == inject_Z ((w - D) mod Delay.size d))%Q /\
    forall j : Z,
      0 <= j < Delay.size d ->
      (Delay.read (Delay.buffer d) ((w - 1 - j) mod Delay.size d)
       == nth (Z.to_nat j) hist 0)%Q.

End Echo.

(** ** PluginProcessor.cpp: the master chain over blocks *)

Module Plugin.

(** The five controls [processBlock] reads for the master effects. *)
Record controls : Type := mkControls {
  rateReductionParam : Q;
  bitDepthParam : Q;
  delayTimeParam : Q;
  feedbackParam : Q;
  dryWetMixParam : Q
}.

(** One channel as [prepareToPlay] sets it up; the delay's [delayTime] and
    [size] members have no initialiser.  The feedback 0.1 and the mix 0.2
    reach their [float] parameters as the binary32 numbers
    13421773 / 134217728 and 13421773 / 67108864. *)
Definition prepareToPlay (sampleRate delayTime0 : Q) (size0 : Z)
  : Master.channel :=
  (Bitcrusher.setBitDepth 24
     (Bitcrusher.setSampleRateReduction 1 Bitcrusher.init),
   Delay.setDryWetMix (13421773 # 67108864)
     (Delay.setFeedback (13421773 # 134217728)
        (Delay.setDelayTime (sampleRate * (1 # 2))
           (Delay.setSize (trunc (sampleRate * 3))
              (DelayLine.fresh delayTime0 size0))))).

(** The sample loop of [processBlock] on one channel. *)
Fixpoint samples (xs : list Q) (c : Master.channel)
  : list Q * Master.channel :=
  match xs with
  | [] => ([], c)
  | x :: rest =>
      let (y, c') := Master.sample x c in
      let (ys, c'') := samples rest c' in
      (y :: ys, c'')
  end.

(** [processBlock] on one channel: the parameter refresh, then the
    samples [xs] the synthesiser rendered. *)
Definition processBlock (sampleRate : Q) (p : controls) (xs : list Q)
           (c : Master.channel) : list Q * Master.channel :=
  samples xs
    (Master.refresh sampleRate (rateReductionParam p) (bitDepthParam p)
       (delayTimeParam p) (feedbackParam p) (dryWetMixParam p) c).

(** Successive blocks, each with its controls and its rendered samples. *)
Fixpoint blocks (sampleRate : Q) (bs : list (controls * list Q))
         (c : Master.channel) : list (list Q) * Master.channel :=
  match bs with
  | [] => ([], c)
  | (p, xs) :: rest =>
      let (ys, c') := processBlock sampleRate p xs c in
      let (yss, c'') := blocks sampleRate rest c' in
      (ys :: yss, c'')
  end.

(** The ranges the parameter layout gives the rate reduction and the delay
    time. *)
Definition in_layout (p : controls) : Prop :=
  (1 <= rateReductionParam p <= 10)%Q /\ (0 <= delayTimeParam p <= 1)%Q.

(** What a channel keeps between samples: the bitcrusher holds a sample of
    [[-1/2, 1/2]] and a counter an [int] can increment; the delay, of size
    [n], is well formed, stores samples within 50.5 and has its feedback and
    mix within their limits. *)
Definition sound (n : Z) (c : Master.channel) : Prop :=
  ((- (1 # 2) <= Bitcrusher.lastProcessedSample (fst c) <= 1 # 2)%Q /\
   0 <= Bitcrusher.currentSampleCount (fst c) < 2 ^ 31 - 1) /\
  (DelayLine.wf (snd c) /\ Delay.size (snd c) = n /\
   DelayLine.bounded (101 # 2) (Delay.buffer (snd c)) /\
   (0 <= Delay.feedback (snd c) <= 4152361 # 4194304)%Q /\
   (0 <= Delay.dryWetMix (snd c) <= 1)%Q).

End Plugin.

(** ** Delay.h and Vibrato.h with their [float] operations rounded *)

Module Delay32.

(** The delay time [processBlock] passes to [setDelayTime]: the [double]
    product of the sample rate and the [float] control, converted to the
    [float] parameter. *)
Definition delayTime (sampleRate delayTimeParam : Q) : Q :=
  binary32 (binary64 (sampleRate * delayTimeParam)).

(** The read position [setDelayTime] computes, every [float] operation
    rounded to binary32; [size] is converted to [float] for the sum. *)
Definition readPos (writePos delayTimeinSamples : Q) (size : Z) : Q :=
  let rp := binary32 (writePos - delayTimeinSamples) in
  if Qlt_le_dec rp 0 then binary32 (rp + binary32 (inject_Z size)) else rp.

End Delay32.

Module Vibrato32.

(** [Vibrato::updateSustainParameters] with the [float] product rounded to
    binary32 and [sustainSamples] converted to [float] for the
    comparison. *)
Definition updateSustainParameters (apvts : Vibrato.params) (v : Vibrato.t)
  : Vibrato.t :=
  let newSustain := Vibrato.vibSustain apvts in
  let product := binary32 (newSustain * Vibrato.sampleRate v) in
  if Qeq_bool product (binary32 (inject_Z (Vibrato.sustainSamples v)))
  then v
  else Vibrato.resetSustainCounter
         (Vibrato.mk (Vibrato.vibratoLFO v) (Vibrato.VibratoFreq v)
            (Vibrato.VibratoAmount v) (Vibrato.sampleRate v)
            (trunc product) (Vibrato.sustainCounter v)).

(** [Vibrato::process] with that sustain test; the effect computed after
    the sustain is the one of [Vibrato.process]. *)
Definition process (sinOsc : Q -> Q) (apvts : Vibrato.params)
           (v : Vibrato.t) : Q * Vibrato.t :=
  let v := updateSustainParameters apvts v in
  if Vibrato.sustainCounter v <? Vibrato.sustainSamples v then
    (0%Q,
     Vibrato.mk (Vibrato.vibratoLFO v) (Vibrato.VibratoFreq v)
       (Vibrato.VibratoAmount v) (Vibrato.sampleRate v)
       (Vibrato.sustainSamples v) (int32 (Vibrato.sustainCounter v + 1)))
  else
    let freq := (Vibrato.vibSpeed apvts * 5 + 3)%Q in
    let amount := (Vibrato.vibAmount apvts / 20000)%Q in
    let (lfo, osc) :=
      Phasor.process sinOsc
        (Phasor.setFrequency freq (Vibrato.vibratoLFO v)) in
    ((lfo * amount)%Q,
     Vibrato.mk osc freq amount (Vibrato.sampleRate v)
       (Vibrato.sustainSamples v) (Vibrato.sustainCounter v)).

(** The outputs of [n] successive calls under fixed controls, and the
    state they leave. *)
Fixpoint run (sinOsc : Q -> Q) (apvts : Vibrato.params) (n : nat)
         (v : Vibrato.t) : list Q * Vibrato.t :=
  match n with
  | O => ([], v)
  | S n' =>
      let (y, v') := process sinOsc apvts v in
      let (ys, v'') := run sinOsc apvts n' v' in
      (y :: ys, v'')
  end.

End Vibrato32.

(** * Properties *)

(** ** Rounding *)

Lemma round_nearest (q : Q) :
  (Qabs (inject_Z (round q) - q) <= 1 # 2)%Q.
Proof.
  unfold round. apply Qabs_Qle_condition.
  destruct (Qle_bool 0 q).
  - pose proof (Qfloor_le (q + (1 # 2))) as Hlo.
    pose proof (Qlt_floor (q + (1 # 2))) as Hhi.
    rewrite inject_Z_plus in Hhi.
    generalize dependent (inject_Z (Qfloor (q + (1 # 2)))). intros f Hlo Hhi.
    change (inject_Z 1) with 1%Q in Hhi. split; lra.
  - pose proof (Qle_ceiling (q - (1 # 2))) as Hlo.
    pose proof (Qceiling_lt (q - (1 # 2))) as Hhi.
    unfold Z.sub in Hhi. rewrite inject_Z_plus, inject_Z_opp in Hhi.
    generalize dependent (inject_Z (Qceiling (q - (1 # 2)))). intros f Hlo Hhi.
    change (inject_Z 1) with 1%Q in Hhi. split; lra.
Qed.


Lemma round_bounded (q : Q) (n : Z) :
  (- inject_Z n <= q <= inject_Z n)%Q -> - n <= round q <= n.
Proof.
  intros [Hlo Hhi]. pose proof (round_nearest q) as H.
  apply Qabs_Qle_condition in H. destruct H as [H1 H2].
  assert (L1 : (inject_Z (round q) < inject_Z (n + 1))%Q)
    by (rewrite inject_Z_plus; change (inject_Z 1) with 1%Q; lra).
  assert (L2 : (inject_Z (- n) < inject_Z (round q + 1))%Q)
    by (rewrite inject_Z_plus, inject_Z_opp; change (inject_Z 1) with 1%Q;
        lra).
  rewrite <- Zlt_Qlt in L1, L2. lia.
Qed.

#[local] Instance round_proper : Proper (Qeq ==> eq) round.
Proof.
  intros q1 q2 E. unfold round.
  rewrite (Qleb_comp 0%Q 0%Q (Qeq_refl 0%Q) q1 q2 E).
  destruct (Qle_bool 0 q2).
  - apply Qfloor_comp. rewrite E. reflexivity.
  - apply Qceiling_comp. rewrite E. reflexivity.
Qed.

(** The error of quantising to a grid of [S] steps per unit. *)
Lemma quantize_error (x S : Q) :
  (0 < S)%Q ->
  (Qabs (inject_Z (round (2 * x * S)) / S / 2 - x) <= 1 / (4 * S))%Q.
Proof.
  intros HS. pose proof (round_nearest (2 * x * S)) as Hr.
  set (r := inject_Z (round (2 * x * S))) in *. clearbody r.
  assert (E : (r / S / 2 - x == (r - 2 * x * S) * / (2 * S))%Q)
    by (field; lra).
  rewrite E, Qabs_Qmult.
  assert (Hpos : (0 < / (2 * S))%Q) by (apply Qinv_lt_0_compat; lra).
  rewrite (Qabs_pos (/ (2 * S))) by lra.
  assert (E2 : (1 / (4 * S) == (1 # 2) * / (2 * S))%Q) by (field; lra).
  rewrite E2. apply Qmult_le_compat_r; [exact Hr | lra].
Qed.

(** ** Machine integers *)

Lemma int32_small (z : Z) : - 2 ^ 31 <= z < 2 ^ 31 -> int32 z = z.
Proof.
  intros H. unfold int32. rewrite Z.mod_small; lia.
Qed.

Lemma to_size_t_small (z : Z) : 0 <= z < 2 ^ 64 -> to_size_t z = z.
Proof.
  intros H. unfold to_size_t. apply Z.mod_small. exact H.
Qed.

(** ** Bitcrusher *)

(** With a reduction factor of 1 every call re-quantises its input. *)
Lemma crush_eq (d : Z) (b : Bitcrusher.t) (x : Q) :
  0 <= Bitcrusher.currentSampleCount b < 2 ^ 31 - 1 ->
  crush d b x =
  (inject_Z (round (2 * x * (inject_Z (2 ^ clamp d 1 24) - 1)))
   / (inject_Z (2 ^ clamp d 1 24) - 1) / 2)%Q.
Proof.
  intros Hc. unfold crush, Bitcrusher.process. cbn [Bitcrusher.setBitDepth
    Bitcrusher.setSampleRateReduction Bitcrusher.sampleRateReduction
    Bitcrusher.currentSampleCount Bitcrusher.bitDepthScale].
  rewrite int32_small by lia.
  change (Z.max 1 1) with 1.
  destruct (1 <=? Bitcrusher.currentSampleCount b + 1) eqn:E;
    [reflexivity | apply Z.leb_gt in E; lia].
Qed.

Lemma clamp_id (v lo hi : Z) : lo <= v <= hi -> clamp v lo hi = v.
Proof.
  intros H. unfold clamp.
  destruct (v <? lo) eqn:E1; [apply Z.ltb_lt in E1; lia |].
  destruct (hi <? v) eqn:E2; [apply Z.ltb_lt in E2; lia | reflexivity].
Qed.

Lemma scale_quantLevels (d : Z) :
  (inject_Z (2 ^ d) - 1 == inject_Z (quantLevels d))%Q.
Proof.
  unfold quantLevels, Z.sub. rewrite inject_Z_plus, inject_Z_opp.
  reflexivity.
Qed.



(** C1.  With a rate reduction of 1 and a bit depth of 24, the bitcrusher
    returns every input [x] of [[-1/2, 1/2]] within [1 / (4 * (2^24 - 1))] in
    exact arithmetic; and so does one iteration of the master chain
    (bitcrusher, then delay) once the block's parameter refresh has also set
    the delay time to 0, whatever the feedback and the mix. *)
Theorem bitcrusher_transparent_at_full_depth
  (b : Bitcrusher.t) (d : Delay.t) (sampleRate feedback mix x : Q) :
  0 <= Bitcrusher.currentSampleCount b < 2 ^ 31 - 1 ->
  (- (1 # 2) <= x <= 1 # 2)%Q ->
  (Qabs (crush 24 b x - x) <= 1 / (4 * (inject_Z (2 ^ 24) - 1)))%Q /\
  (Qabs (fst (Master.sample x
                (Master.refresh sampleRate 1 24 0 feedback mix (b, d))) - x)
   <= 1 / (4 * (inject_Z (2 ^ 24) - 1)))%Q.
Proof.
  intros Hc _.
  assert (Hcrush :
    (Qabs (crush 24 b x - x) <= 1 / (4 * (inject_Z (2 ^ 24) - 1)))%Q).
  { rewrite crush_eq by exact Hc. rewrite clamp_id by lia.
    apply quantize_error. reflexivity. }
  split; [exact Hcrush |].
  unfold Master.sample, Master.refresh. cbn [fst snd].
  change (trunc 24) with 24. change (trunc 1) with 1.
  fold (crush 24 b x) in Hcrush.
  unfold crush in Hcrush.
  destruct (Bitcrusher.process x
              (Bitcrusher.setBitDepth 24
                 (Bitcrusher.setSampleRateReduction 1 b))) as [y b'].
  cbn [fst] in Hcrush.
  unfold Delay.process.
  cbn [Delay.setDryWetMix Delay.setFeedback Delay.setDelayTime
       Delay.delayTime].
  destruct (Qlt_le_dec 0 (sampleRate * 0)) as [Hlt | _].
  - exfalso. lra.
  - exact Hcrush.
Qed.

Lemma bitcrusher_transparent_at_full_depth_witness :
  (Qabs (crush 24 Bitcrusher.init (1 # 3) - (1 # 3))
   <= 1 / (4 * (inject_Z (2 ^ 24) - 1)))%Q /\
  (Qabs (fst (Master.sample (1 # 3)
                (Master.refresh 44100 1 24 0 (1 # 2) (1 # 5)
                   (Bitcrusher.init,
                    Delay.mk (repeat 0%Q 8) 1 0 (1 # 2) 4 8 (1 # 5))))
         - (1 # 3))
   <= 1 / (4 * (inject_Z (2 ^ 24) - 1)))%Q.
Proof.
  apply (bitcrusher_transparent_at_full_depth Bitcrusher.init
           (Delay.mk (repeat 0%Q 8) 1 0 (1 # 2) 4 8 (1 # 5))
           44100 (1 # 2) (1 # 5) (1 # 3)).
  - cbn. lia.
  - split; lra.
Defined.

(** ** Delay *)

(** C2.  A delay whose [delayTime] is 0 or negative returns its input itself
    and leaves its whole state (buffer, read and write positions, settings)
    as it was. *)
Theorem delay_bypass (d : Delay.t) (x : Q) :
  (Delay.delayTime d <= 0)%Q -> Delay.process x d = (x, d).
Proof.
  intros H. unfold Delay.process.
  destruct (Qlt_le_dec 0 (Delay.delayTime d)) as [Hlt | _].
  - exfalso. lra.
  - reflexivity.
Qed.

Lemma delay_bypass_witness :
  (Delay.delayTime
     (Delay.setDelayTime 0 (Delay.mk [1 # 2; 0%Q; 1 # 4] 2 1 (1 # 2) 1 3 (1 # 5)))
   <= 0)%Q /\
  Delay.process (7 # 10)
    (Delay.setDelayTime 0 (Delay.mk [1 # 2; 0%Q; 1 # 4] 2 1 (1 # 2) 1 3 (1 # 5)))
  = (7 # 10,
     Delay.setDelayTime 0
       (Delay.mk [1 # 2; 0%Q; 1 # 4] 2 1 (1 # 2) 1 3 (1 # 5))).
Proof.
  split.
  - cbn. lra.
  - apply (delay_bypass
             (Delay.setDelayTime 0
                (Delay.mk [1 # 2; 0%Q; 1 # 4] 2 1 (1 # 2) 1 3 (1 # 5)))
             (7 # 10)).
    cbn. lra.
Defined.






(** ** Phasor *)

Lemma updatePhase_range (p : Phasor.t) :
  (0 <= Phasor.phaseDelta p <= 1)%Q ->
  (0 <= Phasor.phase p <= 1)%Q ->
  (0 <= Phasor.phase (Phasor.updatePhase p) <= 1)%Q /\
  Phasor.phaseDelta (Phasor.updatePhase p) = Phasor.phaseDelta p.
Proof.
  intros Hd Hp. unfold Phasor.updatePhase. cbn [Phasor.phase Phasor.phaseDelta].
  split; [| reflexivity].
  destruct (Qlt_le_dec 1 (Phasor.phase p + Phasor.phaseDelta p)); split; lra.
Qed.

Lemma ticks_range (n : nat) (p : Phasor.t) :
  (0 <= Phasor.phaseDelta p <= 1)%Q ->
  (0 <= Phasor.phase p <= 1)%Q ->
  (0 <= Phasor.phase (Phasor.ticks n p) <= 1)%Q.
Proof.
  revert p. induction n as [| n IH]; intros p Hd Hp; cbn [Phasor.ticks].
  - exact Hp.
  - destruct (updatePhase_range p Hd Hp) as [Hp' Hd'].
    apply IH; [rewrite Hd'; exact Hd | exact Hp'].
Qed.

(** C8 as stated fails at a quarter of the sample rate: the fourth tick
    lands on 1, outside [[0, 1)], and is not wrapped. *)
Lemma phasor_phase_reaches_one :
  ~ (0 <= Phasor.phase
            (Phasor.ticks 4
               (Phasor.setFrequency 11025
                  (Phasor.setSampleRate 44100 Phasor.init))) < 1)%Q.
Proof.
  intros [_ H]. vm_compute in H. discriminate H.
Qed.

(** C8, amended.  When the frequency lies between 0 and the sample rate (so
    that [phaseDelta] is in [[0, 1]]) and the phase starts in [[0, 1]], the
    phase lies in [[0, 1]] after every tick, in exact arithmetic; a tick adds
    [phaseDelta] and takes 1 off or not. *)
Theorem phasor_phase_range (p : Phasor.t) (sr f : Q) (n : nat) :
  (0 < sr)%Q -> (0 <= f <= sr)%Q -> (0 <= Phasor.phase p <= 1)%Q ->
  (0 <= Phasor.phase
          (Phasor.ticks n (Phasor.setFrequency f (Phasor.setSampleRate sr p)))
   <= 1)%Q /\
  (forall q : Phasor.t,
     (Phasor.phase (Phasor.updatePhase q)
      == Phasor.phase q + Phasor.phaseDelta q)%Q \/
     (Phasor.phase (Phasor.updatePhase q)
      == Phasor.phase q + Phasor.phaseDelta q - 1)%Q).
Proof.
  intros Hsr Hf Hp. split.
  - apply ticks_range; cbn [Phasor.setFrequency Phasor.setSampleRate
      Phasor.phase Phasor.phaseDelta Phasor.sampleRate]; [| exact Hp].
    split.
    + apply Qle_shift_div_l; lra.
    + apply Qle_shift_div_r; lra.
  - intros q. unfold Phasor.updatePhase. cbn [Phasor.phase].
    destruct (Qlt_le_dec 1 (Phasor.phase q + Phasor.phaseDelta q));
      [right | left]; reflexivity.
Qed.

Lemma phasor_phase_range_witness :
  (0 <= Phasor.phase
          (Phasor.ticks 4
             (Phasor.setFrequency 11025
                (Phasor.setSampleRate 44100 Phasor.init)))
   <= 1)%Q /\
  (forall q : Phasor.t,
     (Phasor.phase (Phasor.updatePhase q)
      == Phasor.phase q + Phasor.phaseDelta q)%Q \/
     (Phasor.phase (Phasor.updatePhase q)
      == Phasor.phase q + Phasor.phaseDelta q - 1)%Q).
Proof.
  apply (phasor_phase_range Phasor.init 44100 11025 4).
  - reflexivity.
  - split; discriminate.
  - split; discriminate.
Defined.

(** ** Arpeggiator *)

Section ArpeggiatorFacts.

Import Arpeggiator.

Variable Random : Type.
Variable nextInt : Z -> Z -> Random -> Z * Random.
Variable getMidiNoteInHertz : Z -> Q.

Lemma incrementPattern_pattern (a : t Random) :
  pattern (incrementPattern a) = pattern a.
Proof.
  unfold incrementPattern.
  destruct (size a <=? to_size_t (int32 (noteIndex a + 1)));
    [destruct (0 <? numOctaves a) |]; reflexivity.
Qed.

Lemma incrementPattern_size (a : t Random) :
  size (incrementPattern a) = size a.
Proof.
  unfold size. rewrite incrementPattern_pattern. reflexivity.
Qed.

Lemma incrementPattern_in_pattern (a : t Random) :
  in_pattern a -> in_pattern (incrementPattern a).
Proof.
  intros [Hi Hs]. unfold in_pattern.
  rewrite incrementPattern_size. split; [| exact Hs].
  unfold incrementPattern.
  rewrite (int32_small (noteIndex a + 1)) by lia.
  rewrite (to_size_t_small (noteIndex a + 1)) by lia.
  destruct (size a <=? noteIndex a + 1) eqn:E.
  - destruct (0 <? numOctaves a); cbn [with_position noteIndex].
    + lia.
    + rewrite to_size_t_small by lia. rewrite int32_small by lia. lia.
  - apply Z.leb_gt in E. cbn [with_position noteIndex]. lia.
Qed.

(** From a state that indexes within its pattern, an advance reads in
    bounds, keeps the pattern and indexes within it again. *)
Lemma advance_in_pattern (a : t Random) :
  in_pattern a ->
  exists a', advance a = Some a' /\ pattern a' = pattern a /\ in_pattern a'.
Proof.
  intros Ha. pose proof Ha as [Hi Hs]. unfold advance.
  rewrite to_size_t_small by lia.
  destruct (nth_error (pattern a) (Z.to_nat (noteIndex a))) as [offset |] eqn:E.
  - eexists. split; [reflexivity |]. split.
    + rewrite incrementPattern_pattern. reflexivity.
    + apply incrementPattern_in_pattern. exact Ha.
  - apply nth_error_None in E. unfold size in Hi. lia.
Qed.

Lemma getNextFrequency_in_pattern (apvts : params) (a : t Random) :
  in_pattern a ->
  exists f a',
    getNextFrequency getMidiNoteInHertz apvts a = Some (f, a') /\
    pattern a' = pattern a /\ in_pattern a'.
Proof.
  intros Ha. unfold getNextFrequency.
  set (a1 := setSpeed apvts a).
  assert (Ha1 : in_pattern a1 /\ pattern a1 = pattern a) by (split; exact Ha || reflexivity).
  destruct Ha1 as [Ha1 Hp1]. clearbody a1.
  destruct (samplesPerNote a1 <=? sampleCounter a1).
  - assert (Ha2 : in_pattern (with_sampleCounter 0 a1)) by exact Ha1.
    destruct (to_size_t (noteIndex (with_sampleCounter 0 a1))
              <=? size (with_sampleCounter 0 a1)).
    + destruct (advance_in_pattern _ Ha2) as [a' [E [Hp Ha']]].
      rewrite E. eexists. eexists. split; [reflexivity |].
      split; [cbn [with_sampleCounter pattern]; rewrite Hp; exact Hp1
             | exact Ha'].
    + eexists. eexists. split; [reflexivity |].
      split; [exact Hp1 | exact Ha1].
  - eexists. eexists. split; [reflexivity |].
    split; [exact Hp1 | exact Ha1].
Qed.

Lemma run_in_pattern (calls : list params) (a : t Random) :
  in_pattern a ->
  exists fs a',
    run getMidiNoteInHertz calls a = Some (fs, a') /\
    pattern a' = pattern a /\ in_pattern a'.
Proof.
  revert a. induction calls as [| apvts rest IH]; intros a Ha.
  - exists [], a. split; [reflexivity |]. split; [reflexivity | exact Ha].
  - destruct (getNextFrequency_in_pattern apvts a Ha) as [f [a1 [E [Hp Ha1]]]].
    destruct (IH a1 Ha1) as [fs [a' [Er [Hp' Ha']]]].
    exists (f :: fs), a'. cbn [run]. rewrite E, Er.
    split; [reflexivity |]. split; [congruence | exact Ha'].
Qed.

Lemma draws_length (n : nat) (g : Random) :
  length (fst (draws nextInt n g)) = n.
Proof.
  revert g. induction n as [| n IH]; intros g; cbn [draws].
  - reflexivity.
  - destruct (nextInt (-7) 8 g) as [v g'].
    specialize (IH g'). destruct (draws nextInt n g') as [vs g''].
    cbn [fst length] in *. rewrite IH. reflexivity.
Qed.

(** What [startArpeggio] leaves behind, for each of the nine selectors. *)
Lemma startArpeggio_armed (apvts : params) (root : Z) (a : t Random) :
  0 <= trunc (arpPattern apvts) <= 8 ->
  2 <= size (startArpeggio nextInt apvts root a) <= 7 /\
  noteIndex (startArpeggio nextInt apvts root a) = 1 /\
  noteIncrement (startArpeggio nextInt apvts root a) = 0 /\
  rootNote (startArpeggio nextInt apvts root a) = root /\
  currentNote (startArpeggio nextInt apvts root a) = root.
Proof.
  intros Hsel. unfold startArpeggio, switchArpOctave, switchArpPattern, size.
  cbn [pattern noteIndex noteIncrement rootNote currentNote].
  destruct (trunc (arpPattern apvts) =? 8) eqn:E8.
  - unfold generateRandomPattern. cbn [randomEngine].
    pose proof (draws_length 6 (randomEngine a)) as Hlen.
    destruct (draws nextInt 6 (randomEngine a)) as [vs g].
    cbn [fst] in Hlen. cbn. rewrite Hlen. repeat split; lia.
  - apply Z.eqb_neq in E8.
    destruct (trunc (arpPattern apvts)) as [| sel | sel]; [| | lia].
    + cbn. repeat split; lia.
    + repeat (destruct sel as [sel | sel |]; try lia);
        cbn; repeat split; lia.
Qed.

(** C9.  After [startArpeggio] with one of the nine selectable patterns (each
    of length 2 at least) and any number of [getNextFrequency] calls, under
    any controls, no call has read [pattern] out of bounds, and [noteIndex]
    satisfies [0 <= noteIndex < pattern.size()]: the next read is in bounds
    too, and [noteIndex = pattern.size()], which the guard of
    [getNextFrequency] would let through, is never reached. *)
Theorem arpeggiator_reads_in_bounds
  (apvts : params) (root : Z) (a : t Random) (calls : list params) :
  0 <= trunc (arpPattern apvts) <= 8 ->
  2 <= size (startArpeggio nextInt apvts root a) /\
  exists fs a',
    run getMidiNoteInHertz calls (startArpeggio nextInt apvts root a)
    = Some (fs, a') /\
    0 <= noteIndex a' < size a' /\
    exists offset,
      nth_error (pattern a') (Z.to_nat (to_size_t (noteIndex a')))
      = Some offset.
Proof.
  intros Hsel.
  destruct (startArpeggio_armed apvts root a Hsel) as [Hs [Hi _]].
  split; [lia |].
  assert (Ha0 : in_pattern (startArpeggio nextInt apvts root a))
    by (unfold in_pattern; rewrite Hi; lia).
  destruct (run_in_pattern calls _ Ha0) as [fs [a' [E [_ [Hi' Hs']]]]].
  exists fs, a'. split; [exact E |]. split; [exact Hi' |].
  rewrite to_size_t_small by lia.
  destruct (nth_error (pattern a') (Z.to_nat (noteIndex a'))) as [o |] eqn:En.
  - exists o. reflexivity.
  - apply nth_error_None in En. unfold size in Hi'. lia.
Qed.

(** An advance without wrap-around, spelled out: the note it emits and the
    position it moves to. *)
Lemma advance_eq (a : t Random) (offset : Z) :
  in_pattern a ->
  nth_error (pattern a) (Z.to_nat (noteIndex a)) = Some offset ->
  - 2 ^ 31 <= rootNote a + offset + 12 * noteIncrement a < 2 ^ 31 ->
  - 2 ^ 31 <= noteIncrement a + 1 < 2 ^ 31 ->
  advance a =
  Some
    (let a1 :=
       with_currentNote (rootNote a + offset + 12 * noteIncrement a) a in
     if size a <=? noteIndex a + 1 then
       if 0 <? numOctaves a then
         with_position 0
           (if numOctaves a <=? noteIncrement a + 1 then 0
            else noteIncrement a + 1) a1
       else with_position (size a - 1) (noteIncrement a) a1
     else with_position (noteIndex a + 1) (noteIncrement a) a1).
Proof.
  intros [Hi Hs] Hn Hnote Hinc. unfold advance.
  rewrite to_size_t_small by lia. rewrite Hn.
  rewrite int32_small by exact Hnote.
  unfold incrementPattern.
  cbn [with_currentNote noteIndex noteIncrement numOctaves].
  change (size (with_currentNote (rootNote a + offset + 12 * noteIncrement a)
                  a)) with (size a).
  rewrite (int32_small (noteIndex a + 1)) by lia.
  rewrite (to_size_t_small (noteIndex a + 1)) by lia.
  rewrite (int32_small (noteIncrement a + 1)) by exact Hinc.
  rewrite (to_size_t_small (size a - 1)) by lia.
  rewrite (int32_small (size a - 1)) by lia.
  reflexivity.
Qed.

Lemma advance_holding (root : Z) (a : t Random) :
  0 <= root <= 127 -> holding root a ->
  advance a = Some (with_currentNote (root + 3) a).
Proof.
  intros Hr [Hp [Ho [Hroot [Hi Hinc]]]].
  rewrite (advance_eq a 3).
  - unfold size. rewrite Hp, Ho, Hi, Hinc, Hroot. cbn.
    replace (root + 3 + 0) with (root + 3) by lia.
    destruct a; cbn in *; subst; reflexivity.
  - unfold in_pattern, size. rewrite Hp, Hi. cbn. lia.
  - rewrite Hp, Hi. reflexivity.
  - rewrite Hroot, Hinc. lia.
  - rewrite Hinc. lia.
Qed.

Lemma getNextFrequency_holding (root : Z) (apvts : params) (a : t Random) :
  0 <= root <= 127 -> holding root a ->
  exists a',
    getNextFrequency getMidiNoteInHertz apvts a
    = Some (getMidiNoteInHertz (currentNote a'), a') /\
    holding root a' /\
    (currentNote a' = currentNote a \/ currentNote a' = root + 3) /\
    (currentNote a = root + 3 -> currentNote a' = root + 3).
Proof.
  intros Hr Ha. unfold getNextFrequency.
  set (a1 := setSpeed apvts a).
  assert (Ha1 : holding root a1) by exact Ha.
  assert (Hc1 : currentNote a1 = currentNote a) by reflexivity.
  clearbody a1.
  destruct (samplesPerNote a1 <=? sampleCounter a1).
  - assert (Ha2 : holding root (with_sampleCounter 0 a1)) by exact Ha1.
    destruct Ha1 as [Hp [Ho [Hroot [Hi Hinc]]]].
    unfold size. cbn [with_sampleCounter noteIndex pattern].
    rewrite Hi, Hp. cbn [length Z.of_nat].
    change (to_size_t 1 <=? Z.of_nat 2) with true. cbv iota.
    rewrite (advance_holding root _ Hr Ha2).
    eexists. split; [reflexivity |].
    cbn [with_sampleCounter with_currentNote currentNote].
    split; [| split; [right; reflexivity | intros _; reflexivity]].
    unfold holding. cbn. repeat split; assumption.
  - eexists. split; [reflexivity |].
    cbn [with_sampleCounter currentNote].
    split; [exact Ha1 | split; [left; exact Hc1 | intros H; congruence]].
Qed.

Lemma run_holding (root : Z) (calls : list params) (a : t Random) :
  0 <= root <= 127 -> holding root a ->
  (currentNote a = root + 3 ->
   exists a',
     run getMidiNoteInHertz calls a
     = Some (repeat (getMidiNoteInHertz (root + 3)) (length calls), a') /\
     holding root a' /\ currentNote a' = root + 3) /\
  (currentNote a = root ->
   exists j a',
     (j <= length calls)%nat /\
     run getMidiNoteInHertz calls a
     = Some (repeat (getMidiNoteInHertz root) j
             ++ repeat (getMidiNoteInHertz (root + 3)) (length calls - j),
             a') /\
     holding root a').
Proof.
  intros Hr. revert a.
  induction calls as [| apvts rest IH]; intros a Ha.
  - split; intros Hc.
    + exists a. split; [reflexivity | split; assumption].
    + exists 0%nat, a. split; [cbn; lia | split; [reflexivity | exact Ha]].
  - destruct (getNextFrequency_holding root apvts a Hr Ha)
      as [a1 [E [Ha1 [Hc1 Hkeep]]]].
    destruct (IH a1 Ha1) as [IHheld IHarmed].
    split; intros Hc.
    + destruct (IHheld (Hkeep Hc)) as [a' [Er [Ha' Hc']]].
      exists a'. cbn [run length repeat]. rewrite E, Er, (Hkeep Hc).
      split; [reflexivity | split; assumption].
    + destruct Hc1 as [Hsame | Hmoved].
      * destruct IHarmed as [j [a' [Hj [Er Ha']]]]; [congruence |].
        exists (S j), a'. cbn [run length repeat app Nat.sub].
        rewrite E, Er. replace (currentNote a1) with root by congruence.
        split; [lia | split; [reflexivity | exact Ha']].
      * destruct (IHheld Hmoved) as [a' [Er [Ha' Hc']]].
        exists 0%nat, a'. cbn [run length repeat app Nat.sub].
        rewrite E, Er, Hmoved.
        split; [lia | split; [reflexivity | exact Ha']].
Qed.

Lemma startArpeggio_minor_third (apvts : params) (root : Z) (a : t Random) :
  trunc (arpPattern apvts) = 0 -> trunc (arpOctave apvts) = 0 ->
  holding root (startArpeggio nextInt apvts root a) /\
  currentNote (startArpeggio nextInt apvts root a) = root.
Proof.
  intros Hp Ho. unfold startArpeggio, switchArpOctave, switchArpPattern.
  rewrite Hp, Ho. cbn. unfold holding. cbn. repeat split; reflexivity.
Qed.

Lemma int32_succ (z : Z) : int32 (int32 z + 1) = int32 (z + 1).
Proof.
  unfold int32.
  replace ((z + 2 ^ 31) mod 2 ^ 32 - 2 ^ 31 + 1 + 2 ^ 31)
    with ((z + 2 ^ 31) mod 2 ^ 32 + 1) by lia.
  rewrite Z.add_mod_idemp_l by lia.
  replace (z + 2 ^ 31 + 1) with (z + 1 + 2 ^ 31) by lia. reflexivity.
Qed.

(** One call before the hold: it advances exactly when the note length
    polled by this call has elapsed, and counts one sample otherwise. *)
Lemma getNextFrequency_armed (root : Z) (apvts : params) (a : t Random) :
  0 <= root <= 127 -> holding root a -> currentNote a = root ->
  exists a',
    holding root a' /\ sampleRate Random a' = sampleRate Random a /\
    if samplesPerNote (setSpeed apvts a) <=? sampleCounter a then
      getNextFrequency getMidiNoteInHertz apvts a
      = Some (getMidiNoteInHertz (root + 3), a') /\
      currentNote a' = root + 3
    else
      getNextFrequency getMidiNoteInHertz apvts a
      = Some (getMidiNoteInHertz root, a') /\
      currentNote a' = root /\
      sampleCounter a' = int32 (sampleCounter a + 1).
Proof.
  intros Hr Ha Hc. unfold getNextFrequency.
  set (a1 := setSpeed apvts a).
  assert (Ha1 : holding root a1) by exact Ha.
  assert (Hc1 : currentNote a1 = root) by exact Hc.
  assert (Hs1 : sampleRate Random a1 = sampleRate Random a) by reflexivity.
  assert (Hk1 : sampleCounter a1 = sampleCounter a) by reflexivity.
  rewrite <- Hk1. clearbody a1.
  destruct (samplesPerNote a1 <=? sampleCounter a1).
  - assert (Ha2 : holding root (with_sampleCounter 0 a1)) by exact Ha1.
    destruct Ha1 as [Hp [Ho [Hroot [Hi Hinc]]]].
    unfold size. cbn [with_sampleCounter noteIndex pattern].
    rewrite Hi, Hp. cbn [length Z.of_nat].
    change (to_size_t 1 <=? Z.of_nat 2) with true. cbv iota.
    rewrite (advance_holding root _ Hr Ha2).
    eexists. split; [| split; [| split; [reflexivity |]]].
    + unfold holding. cbn. repeat split; assumption.
    + exact Hs1.
    + reflexivity.
  - eexists.
    split; [| split; [| split;
      [cbn [with_sampleCounter currentNote]; rewrite Hc1; reflexivity
      | split]]].
    + exact Ha1.
    + exact Hs1.
    + exact Hc1.
    + reflexivity.
Qed.

(** The calls before the hold count samples from [k]: the first call whose
    note length has elapsed advances, and the hold begins with it. *)
Lemma run_armed (root : Z) (calls : list params) :
  0 <= root <= 127 ->
  forall (k : nat) (a : t Random),
    holding root a -> currentNote a = root ->
    sampleCounter a = int32 (Z.of_nat k) ->
    exists (j : nat) (a' : t Random),
      (j <= length calls)%nat /\
      (forall (i : nat) (c : params),
         (i < j)%nat -> nth_error calls i = Some c ->
         int32 (Z.of_nat (k + i)) < samplesPerNote (setSpeed c a)) /\
      (forall c : params,
         nth_error calls j = Some c ->
         samplesPerNote (setSpeed c a) <= int32 (Z.of_nat (k + j))) /\
      run getMidiNoteInHertz calls a
      = Some (repeat (getMidiNoteInHertz root) j
              ++ repeat (getMidiNoteInHertz (root + 3)) (length calls - j),
              a') /\
      holding root a'.
Proof.
  intros Hr. induction calls as [| c rest IH]; intros k a Ha Hc Hk.
  - exists 0%nat, a. split; [lia |].
    split; [intros i c Hi; lia |].
    split; [intros c E; discriminate E |].
    split; [reflexivity | exact Ha].
  - destruct (getNextFrequency_armed root c a Hr Ha Hc)
      as (a1 & Ha1 & Hsr & Hstep).
    destruct (samplesPerNote (setSpeed c a) <=? sampleCounter a) eqn:E.
    + apply Z.leb_le in E. destruct Hstep as [Eg Hc1].
      destruct (run_holding root rest a1 Hr Ha1) as [Hheld _].
      destruct (Hheld Hc1) as (a' & Er & Ha' & _).
      exists 0%nat, a'. split; [lia |].
      split; [intros i c' Hi; lia |].
      split.
      * intros c' Ec. cbn [nth_error] in Ec. injection Ec as <-.
        rewrite Nat.add_0_r, <- Hk. exact E.
      * cbn [run length repeat app Nat.sub]. rewrite Eg, Er.
        split; [reflexivity | exact Ha'].
    + apply Z.leb_gt in E. destruct Hstep as (Eg & Hc1 & Hk1).
      rewrite Hk, int32_succ in Hk1.
      replace (Z.of_nat k + 1) with (Z.of_nat (S k)) in Hk1 by lia.
      destruct (IH (S k) a1 Ha1 Hc1 Hk1)
        as (j & a' & Hj & Hbefore & Hat & Er & Ha').
      assert (Hspn : forall c' : params,
                 samplesPerNote (setSpeed c' a1)
                 = samplesPerNote (setSpeed c' a)).
      { intros c'. unfold setSpeed, updateSamplesPerNote.
        cbn [samplesPerNote sampleRate]. rewrite Hsr. reflexivity. }
      exists (S j), a'. split; [cbn [length]; lia |].
      split; [| split].
      * intros [| i] c' Hi Ec; cbn [nth_error] in Ec.
        -- injection Ec as <-. rewrite Nat.add_0_r, <- Hk. exact E.
        -- rewrite <- Hspn. replace (k + S i)%nat with (S k + i)%nat by lia.
           apply Hbefore; [lia | exact Ec].
      * intros c' Ec. cbn [nth_error] in Ec. rewrite <- Hspn.
        replace (k + S j)%nat with (S k + j)%nat by lia.
        apply Hat. exact Ec.
      * cbn [run length repeat app Nat.sub]. rewrite Eg, Er.
        split; [reflexivity | exact Ha'].
Qed.

(** C5.  Pattern [[0; 3]] without octaves.  The one advance that traverses
    the pattern after [startArpeggio] emits the last element, [root + 3], and
    leaves the position where it was; an advance from there changes nothing.
    So the calls of [getNextFrequency], under any controls, return the
    frequency of [root] on the first [j] calls and the frequency of
    [root + 3] on every call from then on, where call [j] (counted from 0)
    is the first whose note length [samplesPerNote] has elapsed: before it
    the sample counter, [i] at call [i], is below the note length of that
    call, and at call [j] it has reached it.  [noteIndex] and
    [noteIncrement] stay at 1 and 0. *)
Theorem arpeggiator_holds_last_note
  (apvts : params) (root : Z) (a : t Random) (calls : list params) :
  trunc (arpPattern apvts) = 0 -> trunc (arpOctave apvts) = 0 ->
  0 <= root <= 127 ->
  advance (startArpeggio nextInt apvts root a)
  = Some (with_currentNote (root + 3) (startArpeggio nextInt apvts root a)) /\
  advance (with_currentNote (root + 3) (startArpeggio nextInt apvts root a))
  = Some (with_currentNote (root + 3) (startArpeggio nextInt apvts root a)) /\
  exists (j : nat) (a' : t Random),
    (j <= length calls)%nat /\
    (forall (i : nat) (c : params),
       (i < j)%nat -> nth_error calls i = Some c ->
       int32 (Z.of_nat i)
       < samplesPerNote (setSpeed c (startArpeggio nextInt apvts root a))) /\
    (forall c : params,
       nth_error calls j = Some c ->
       samplesPerNote (setSpeed c (startArpeggio nextInt apvts root a))
       <= int32 (Z.of_nat j)) /\
    run getMidiNoteInHertz calls (startArpeggio nextInt apvts root a)
    = Some (repeat (getMidiNoteInHertz root) j
            ++ repeat (getMidiNoteInHertz (root + 3)) (length calls - j),
            a') /\
    pattern a' = [0; 3] /\ noteIndex a' = 1 /\ noteIncrement a' = 0.
Proof.
  intros Hp Ho Hr.
  destruct (startArpeggio_minor_third apvts root a Hp Ho) as [Hh Hc].
  split; [apply advance_holding; assumption |].
  split.
  - rewrite (advance_holding root) by (exact Hr || exact Hh). reflexivity.
  - destruct (run_armed root calls Hr 0 _ Hh Hc)
      as (j & a' & Hj & Hbefore & Hat & Er & Ha').
    { unfold startArpeggio, switchArpOctave, switchArpPattern.
      rewrite Hp, Ho. reflexivity. }
    exists j, a'. split; [exact Hj |].
    split; [exact Hbefore |]. split; [exact Hat |]. split; [exact Er |].
    destruct Ha' as [Hp' [_ [_ [Hi' Hinc']]]]. repeat split; assumption.
Qed.

Lemma advances_add (n m : nat) (a : t Random) :
  advances (n + m) a =
  match advances n a with
  | Some a' => advances m a'
  | None => None
  end.
Proof.
  revert a. induction n as [| n IH]; intros a; cbn [advances Nat.add].
  - reflexivity.
  - destruct (advance a) as [a' |]; [apply IH | reflexivity].
Qed.

(** One advance of a concrete state, by [advance_eq]. *)
Ltac arp_step offset st :=
  rewrite (advance_eq _ offset); unfold in_pattern, size; cbn;
  [ f_equal; cbv [with_position with_currentNote]; unfold st; cbn;
    f_equal; lia
  | lia | reflexivity | lia | lia ].

(** C6.  Pattern [[0; 4; 7]] over two octaves.  The six advances after
    [startArpeggio] go through six different positions, emit the triad in the
    first octave, then in the second, and end in the state they started from
    ([noteIncrement] back to 0); hence any number of advances and six more
    leave the same state as that number alone, and the notes repeat. *)
Theorem arpeggiator_octave_wrap
  (apvts : params) (root : Z) (a : t Random) :
  trunc (arpPattern apvts) = 5 -> trunc (arpOctave apvts) = 2 ->
  0 <= root <= 127 ->
  map (fun k => shown (advances k (startArpeggio nextInt apvts root a)))
      [1; 2; 3; 4; 5; 6]%nat
  = [Some (2, 0, root + 4); Some (0, 1, root + 7); Some (1, 1, root + 12);
     Some (2, 1, root + 16); Some (0, 0, root + 19); Some (1, 0, root)] /\
  advances 6 (startArpeggio nextInt apvts root a)
  = Some (startArpeggio nextInt apvts root a) /\
  forall k : nat,
    advances (k + 6) (startArpeggio nextInt apvts root a)
    = advances k (startArpeggio nextInt apvts root a).
Proof.
  intros Hp Ho Hr.
  assert (E0 : startArpeggio nextInt apvts root a
               = mk [0; 4; 7] 1 0 2 root root (speed Random a)
                    (sampleRate Random a) (samplesPerNote a) 0 5 2
                    (randomEngine a)).
  { unfold startArpeggio, switchArpOctave, switchArpPattern.
    rewrite Hp, Ho. reflexivity. }
  rewrite E0. clear E0.
  set (st := fun i inc note =>
    mk [0; 4; 7] i inc 2 root note (speed Random a) (sampleRate Random a)
       (samplesPerNote a) 0 5 2 (randomEngine a)).
  assert (S1 : advance (st 1 0 root) = Some (st 2 0 (root + 4))).
  { arp_step 4 st. }
  assert (S2 : advance (st 2 0 (root + 4)) = Some (st 0 1 (root + 7))).
  { arp_step 7 st. }
  assert (S3 : advance (st 0 1 (root + 7)) = Some (st 1 1 (root + 12))).
  { arp_step 0 st. }
  assert (S4 : advance (st 1 1 (root + 12)) = Some (st 2 1 (root + 16))).
  { arp_step 4 st. }
  assert (S5 : advance (st 2 1 (root + 16)) = Some (st 0 0 (root + 19))).
  { arp_step 7 st. }
  assert (S6 : advance (st 0 0 (root + 19)) = Some (st 1 0 root)).
  { arp_step 0 st. }
  fold (st 1 0 root).
  assert (E6 : advances 6 (st 1 0 root) = Some (st 1 0 root)).
  { cbn [advances]. rewrite S1, S2, S3, S4, S5, S6. reflexivity. }
  split; [| split].
  - cbn [map advances]. rewrite S1, S2, S3, S4, S5, S6. reflexivity.
  - exact E6.
  - intros k. rewrite Nat.add_comm, advances_add, E6. reflexivity.
Qed.

End ArpeggiatorFacts.

Lemma arpeggiator_reads_in_bounds_witness :
  let nextInt := fun (_ _ : Z) (g : unit) => (0, g) in
  let apvts := Arpeggiator.mkParams 8 2 (1 # 2) in
  let a0 :=
    Arpeggiator.startArpeggio nextInt apvts 60
      (Arpeggiator.construct nextInt apvts tt) in
  2 <= Arpeggiator.size a0 /\
  exists fs a',
    Arpeggiator.run inject_Z [apvts; apvts; apvts] a0 = Some (fs, a') /\
    0 <= Arpeggiator.noteIndex a' < Arpeggiator.size a' /\
    exists offset,
      nth_error (Arpeggiator.pattern a')
        (Z.to_nat (to_size_t (Arpeggiator.noteIndex a')))
      = Some offset.
Proof.
  intros nextInt apvts.
  apply (arpeggiator_reads_in_bounds unit nextInt inject_Z apvts 60
           (Arpeggiator.construct nextInt apvts tt) [apvts; apvts; apvts]).
  cbn. lia.
Defined.

Lemma arpeggiator_holds_last_note_witness :
  let nextInt := fun (_ _ : Z) (g : unit) => (0, g) in
  let apvts := Arpeggiator.mkParams 0 0 (1 # 2) in
  let calls := [apvts; apvts; apvts; apvts; apvts] in
  let a0 :=
    Arpeggiator.startArpeggio nextInt apvts 60
      (Arpeggiator.setSampleRate unit apvts 10
         (Arpeggiator.construct nextInt apvts tt)) in
  (Arpeggiator.advance a0 = Some (Arpeggiator.with_currentNote (60 + 3) a0) /\
   Arpeggiator.advance (Arpeggiator.with_currentNote (60 + 3) a0)
   = Some (Arpeggiator.with_currentNote (60 + 3) a0) /\
   exists (j : nat) (a' : Arpeggiator.t unit),
     (j <= length calls)%nat /\
     (forall (i : nat) (c : Arpeggiator.params),
        (i < j)%nat -> nth_error calls i = Some c ->
        int32 (Z.of_nat i)
        < Arpeggiator.samplesPerNote (Arpeggiator.setSpeed c a0)) /\
     (forall c : Arpeggiator.params,
        nth_error calls j = Some c ->
        Arpeggiator.samplesPerNote (Arpeggiator.setSpeed c a0)
        <= int32 (Z.of_nat j)) /\
     Arpeggiator.run inject_Z calls a0
     = Some (repeat (inject_Z 60) j
             ++ repeat (inject_Z (60 + 3)) (length calls - j),
             a') /\
     Arpeggiator.pattern a' = [0; 3] /\
     Arpeggiator.noteIndex a' = 1 /\ Arpeggiator.noteIncrement a' = 0) /\
  option_map fst (Arpeggiator.run inject_Z calls a0)
  = Some [inject_Z 60; inject_Z 60; inject_Z 63; inject_Z 63; inject_Z 63].
Proof.
  intros nextInt apvts calls a0. split; [| reflexivity].
  apply (arpeggiator_holds_last_note unit nextInt inject_Z apvts 60
           (Arpeggiator.setSampleRate unit apvts 10
              (Arpeggiator.construct nextInt apvts tt))
           [apvts; apvts; apvts; apvts; apvts]).
  - reflexivity.
  - reflexivity.
  - lia.
Defined.

Lemma arpeggiator_octave_wrap_witness :
  let nextInt := fun (_ _ : Z) (g : unit) => (0, g) in
  let apvts := Arpeggiator.mkParams 5 2 (1 # 2) in
  let a0 :=
    Arpeggiator.startArpeggio nextInt apvts 60
      (Arpeggiator.construct nextInt apvts tt) in
  map (fun k => Arpeggiator.shown (Arpeggiator.advances k a0))
      [1; 2; 3; 4; 5; 6]%nat
  = [Some (2, 0, 60 + 4); Some (0, 1, 60 + 7); Some (1, 1, 60 + 12);
     Some (2, 1, 60 + 16); Some (0, 0, 60 + 19); Some (1, 0, 60)] /\
  Arpeggiator.advances 6 a0 = Some a0 /\
  forall k : nat,
    Arpeggiator.advances (k + 6) a0 = Arpeggiator.advances k a0.
Proof.
  intros nextInt apvts.
  apply (arpeggiator_octave_wrap unit nextInt apvts 60
           (Arpeggiator.construct nextInt apvts tt)).
  - reflexivity.
  - reflexivity.
  - lia.
Defined.

(** ** Vibrato *)

Lemma trunc_integer (q : Q) (n : Z) : (q == inject_Z n)%Q -> trunc q = n.
Proof.
  unfold Qeq, trunc. cbn. intros E. rewrite Z.mul_1_r in E. rewrite E.
  apply Z.quot_mul. discriminate.
Qed.

Section VibratoFacts.

Import Vibrato.

Variable sinOsc : Q -> Q.
Variable apvts : params.
Variable sr : Q.
Variable N : Z.
Hypothesis whole : (vibSustain apvts * sr == inject_Z N)%Q.
Hypothesis N_range : 0 <= N < 2 ^ 31.






End VibratoFacts.

(** When the product of the sustain control and the sample rate is not a
    whole number and reaches 1, the comparison in
    [updateSustainParameters] fails on every call, every call resets the
    counter, and the effect never starts. *)
Lemma vibrato_stuck_in_sustain
  (sinOsc : Q -> Q) (apvts : Vibrato.params) (n : nat) (v : Vibrato.t) :
  (forall z : Z,
     ~ (Vibrato.vibSustain apvts * Vibrato.sampleRate v == inject_Z z)%Q) ->
  1 <= trunc (Vibrato.vibSustain apvts * Vibrato.sampleRate v) ->
  fst (Vibrato.run sinOsc apvts n v) = repeat 0%Q n.
Proof.
  revert v. induction n as [| n IH]; intros v Hfrac Hone.
  - reflexivity.
  - cbn [Vibrato.run]. unfold Vibrato.process at 1.
    unfold Vibrato.updateSustainParameters.
    destruct (Qeq_bool (Vibrato.vibSustain apvts * Vibrato.sampleRate v)
                (inject_Z (Vibrato.sustainSamples v))) eqn:E.
    + apply Qeq_bool_eq in E. destruct (Hfrac _ E).
    + cbn [Vibrato.resetSustainCounter Vibrato.sustainCounter
           Vibrato.sustainSamples Vibrato.vibratoLFO Vibrato.VibratoFreq
           Vibrato.VibratoAmount Vibrato.sampleRate].
      destruct (0 <? trunc (Vibrato.vibSustain apvts * Vibrato.sampleRate v))
        eqn:E0; [| apply Z.ltb_ge in E0; lia].
      match goal with
      | |- context [Vibrato.run sinOsc apvts n ?v1] =>
          specialize (IH v1 Hfrac Hone);
          destruct (Vibrato.run sinOsc apvts n v1) as [ys v2]
      end.
      cbn [fst] in *. rewrite IH. reflexivity.
Qed.




(** ** PitchBend *)

Lemma SFltb_irrefl (x : spec_float) : SFltb x x = false.
Proof.
  unfold SFltb, SFcompare.
  destruct x as [s | s | | s m e]; try reflexivity.
  - destruct s; reflexivity.
  - rewrite Z.compare_refl, Pos.compare_cont_refl. destruct s; reflexivity.
Qed.

Lemma exact_lt_spec (a b : Q) : Exact.lt a b = true <-> (a < b)%Q.
Proof.
  unfold Exact.lt. rewrite negb_true_iff. split.
  - intros H. apply Qnot_le_lt. intros Hle.
    apply Qle_bool_iff in Hle. congruence.
  - intros H. destruct (Qle_bool b a) eqn:E; [| reflexivity].
    apply Qle_bool_iff in E. exfalso. apply (Qlt_not_le _ _ H E).
Qed.

(** Once [currentFreq] equals the target, [process] returns the target and
    changes nothing, whatever the arithmetic, as long as no value is below
    itself. *)
Lemma pitch_bend_pinned (F : FloatOps) (p : PitchBend.t) :
  (forall x : float, flt x x = false) ->
  PitchBend.currentFreq p = PitchBend.inputFreq p ->
  PitchBend.process p = (PitchBend.inputFreq p, p).
Proof.
  intros Hirr Heq. unfold PitchBend.process. rewrite Heq, Hirr.
  rewrite !andb_false_r. cbn [orb]. destruct p; cbn in *. subst.
  reflexivity.
Qed.

(** *** In exact arithmetic the ramp lands on the target *)

Section PitchBendExact.

Variables (cur0 tgt : Q) (n : Z).
Hypothesis n_pos : 1 <= n.

Lemma ramp_end (d : Q) :
  (d == (tgt - cur0) / inject_Z n)%Q -> (tgt == cur0 + inject_Z n * d)%Q.
Proof.
  intros Hd. rewrite Hd.
  assert (Hn : (1 <= inject_Z n)%Q)
    by (change 1%Q with (inject_Z 1); rewrite <- Zle_Qle; exact n_pos).
  field. lra.
Qed.

Lemma on_ramp_process (p : PitchBend.t (F := Exact.ops)) :
  on_ramp cur0 tgt n p -> on_ramp cur0 tgt n (snd (PitchBend.process p)).
Proof.
  intros [Hd [Ht [j [Hj Hc]]]].
  pose proof (ramp_end _ Hd) as Hend.
  unfold on_ramp, PitchBend.process.
  cbn [snd PitchBend.bendDelta PitchBend.inputFreq PitchBend.currentFreq].
  split; [exact Hd |]. split; [exact Ht |].
  cbn [flt float_of_int Exact.ops fadd].
  destruct ((Exact.lt (inject_Z 0) (PitchBend.bendDelta p)
             && Exact.lt (PitchBend.currentFreq p) (PitchBend.inputFreq p))
            || (Exact.lt (PitchBend.bendDelta p) (inject_Z 0)
                && Exact.lt (PitchBend.inputFreq p) (PitchBend.currentFreq p)))
    eqn:E.
  - exists (j + 1). split.
    + assert (j <> n); [| lia].
      intros ->.
      assert (Heq : (PitchBend.currentFreq p == PitchBend.inputFreq p)%Q)
        by (rewrite Hc, Ht, Hend; reflexivity).
      apply orb_true_iff in E.
      destruct E as [E | E]; apply andb_true_iff in E; destruct E as [_ E];
        apply exact_lt_spec in E; lra.
    + rewrite Hc, inject_Z_plus. change (inject_Z 1) with 1%Q. ring.
  - exists n. split; [lia |]. rewrite Ht. exact Hend.
Qed.

Lemma on_ramp_calls (k : Z) (p : PitchBend.t (F := Exact.ops)) :
  on_ramp cur0 tgt n p -> on_ramp cur0 tgt n (PitchBend.calls k p).
Proof.
  intros Hp. unfold PitchBend.calls, Z.iter.
  destruct k as [| k | k]; try exact Hp.
  apply Pos.iter_invariant; [| exact Hp].
  intros q Hq. apply on_ramp_process. exact Hq.
Qed.

Lemma on_ramp_no_overshoot (p : PitchBend.t (F := Exact.ops)) :
  on_ramp cur0 tgt n p -> PitchBend.overshoots p = false.
Proof.
  intros [Hd [Ht [j [Hj Hc]]]].
  pose proof (ramp_end _ Hd) as Hend.
  assert (Hgap : (PitchBend.inputFreq p - PitchBend.currentFreq p
                  == inject_Z (n - j) * PitchBend.bendDelta p)%Q).
  { rewrite Hc, Ht, Hend. unfold Z.sub.
    rewrite inject_Z_plus, inject_Z_opp. ring. }
  assert (Hnj : (0 <= inject_Z (n - j))%Q)
    by (change 0%Q with (inject_Z 0); rewrite <- Zle_Qle; lia).
  unfold PitchBend.overshoots. cbn [flt float_of_int Exact.ops].
  apply orb_false_iff. split; apply andb_false_iff.
  - destruct (Exact.lt (inject_Z 0) (PitchBend.bendDelta p)) eqn:E;
      [right | left; reflexivity].
    apply exact_lt_spec in E. change (inject_Z 0) with 0%Q in E.
    apply not_true_is_false. intros H. apply exact_lt_spec in H.
    assert (0 <= inject_Z (n - j) * PitchBend.bendDelta p)%Q
      by (apply Qmult_le_0_compat; lra).
    lra.
  - destruct (Exact.lt (PitchBend.bendDelta p) (inject_Z 0)) eqn:E;
      [right | left; reflexivity].
    apply exact_lt_spec in E. change (inject_Z 0) with 0%Q in E.
    apply not_true_is_false. intros H. apply exact_lt_spec in H.
    assert (0 <= inject_Z (n - j) * - PitchBend.bendDelta p)%Q
      by (apply Qmult_le_0_compat; lra).
    assert (inject_Z (n - j) * - PitchBend.bendDelta p
            == - (inject_Z (n - j) * PitchBend.bendDelta p))%Q by ring.
    lra.
Qed.

End PitchBendExact.

(** Over the rationals [startPitchBend] followed by any number of calls of
    [process] never leaves [currentFreq] past the target, provided
    [bendSamples] is positive. *)
Lemma pitch_bend_exact_no_overshoot
  (getMidiNoteInHertz : Z -> @double Exact.ops)
  (apvts : PitchBend.params (F := Exact.ops)) (note k : Z)
  (p : PitchBend.t (F := Exact.ops)) :
  1 <= PitchBend.bendSamples p ->
  PitchBend.overshoots
    (PitchBend.calls k
       (PitchBend.startPitchBend getMidiNoteInHertz apvts note p))
  = false.
Proof.
  intros Hn.
  apply (on_ramp_no_overshoot
           (getMidiNoteInHertz
              (int32 (note + trunc (PitchBend.pbInitPitch apvts))))
           (getMidiNoteInHertz note) (PitchBend.bendSamples p) Hn).
  apply on_ramp_calls; [exact Hn |].
  unfold on_ramp, PitchBend.startPitchBend.
  cbn [PitchBend.bendDelta PitchBend.inputFreq PitchBend.currentFreq
       PitchBend.bendSamples].
  cbn [float_of_double float_of_int int_of_float fdiv fsub Exact.ops].
  split; [reflexivity |]. split; [reflexivity |].
  exists 0. split; [lia |]. change (inject_Z 0) with 0%Q.
  generalize (getMidiNoteInHertz
                (int32 (note + trunc (PitchBend.pbInitPitch apvts)))).
  generalize (getMidiNoteInHertz note).
  cbv [float double Exact.ops]. intros a b. ring.
Qed.

(** *** In binary32 it can step past it *)

(** C4, at a failing input.  Note 69 (440 Hz) bent up from an octave below
    (initial pitch -12, 220 Hz) over 1/64 s at 48000 Hz: [bendSamples] is 750
    and the step is the binary32 quotient of 220 by 750.  The 750th call of
    [process] leaves [currentFreq] at
    [14417960 * 2^-15 = 440.001220703125], strictly above the target
    [inputFreq = 440] in the direction of the bend; the call after that one
    pins it to the target. *)
Theorem pitch_bend_overshoots
  (getMidiNoteInHertz : Z -> @double IEEE.ops) :
  getMidiNoteInHertz 69 = IEEE.double_of 440 0 ->
  getMidiNoteInHertz 57 = IEEE.double_of 220 0 ->
  let apvts :=
    PitchBend.mkParams (F := IEEE.ops)
      (SFopp (IEEE.float_of 12 0)) (IEEE.float_of 1 (-6)) in
  let p0 :=
    PitchBend.startPitchBend getMidiNoteInHertz apvts 69
      (PitchBend.setSampleRate apvts (IEEE.double_of 48000 0)
         PitchBend.init) in
  PitchBend.bendSamples p0 = 750 /\
  PitchBend.inputFreq p0 = IEEE.float_of 440 0 /\
  PitchBend.currentFreq p0 = IEEE.float_of 220 0 /\
  PitchBend.currentFreq (PitchBend.calls 750 p0)
  = IEEE.float_of 14417960 (-15) /\
  PitchBend.overshoots (PitchBend.calls 750 p0) = true /\
  PitchBend.currentFreq (PitchBend.calls 751 p0) = PitchBend.inputFreq p0.
Proof.
  intros H69 H57 apvts p0.
  assert (E : p0 =
              PitchBend.mk (F := IEEE.ops) 69 (-12) (IEEE.float_of 220 0)
                (IEEE.float_of 440 0) 750
                (SFdiv 24 128
                   (SFsub 24 128 (IEEE.float_of 440 0) (IEEE.float_of 220 0))
                   (IEEE.float_of 750 0))
                (IEEE.double_of 48000 0)).
  { unfold p0, PitchBend.startPitchBend.
    change (int_of_float (PitchBend.pbInitPitch apvts)) with (-12).
    change (int32 (69 + -12)) with 57.
    rewrite H69, H57. reflexivity. }
  clearbody p0. subst p0. clear H69 H57.
  split; [| split; [| split; [| split; [| split]]]]; vm_compute; reflexivity.
Qed.

Lemma pitch_bend_overshoots_witness :
  let hz : Z -> @double IEEE.ops := fun n : Z =>
    if n =? 69 then IEEE.double_of 440 0 else IEEE.double_of 220 0 in
  let apvts :=
    PitchBend.mkParams (F := IEEE.ops)
      (SFopp (IEEE.float_of 12 0)) (IEEE.float_of 1 (-6)) in
  let p0 :=
    PitchBend.startPitchBend hz apvts 69
      (PitchBend.setSampleRate apvts (IEEE.double_of 48000 0)
         PitchBend.init) in
  PitchBend.bendSamples p0 = 750 /\
  PitchBend.inputFreq p0 = IEEE.float_of 440 0 /\
  PitchBend.currentFreq p0 = IEEE.float_of 220 0 /\
  PitchBend.currentFreq (PitchBend.calls 750 p0)
  = IEEE.float_of 14417960 (-15) /\
  PitchBend.overshoots (PitchBend.calls 750 p0) = true /\
  PitchBend.currentFreq (PitchBend.calls 751 p0) = PitchBend.inputFreq p0.
Proof.
  intros hz. exact (pitch_bend_overshoots hz eq_refl eq_refl).
Defined.

(** * Further properties of the code *)

(** ** Rounding to binary32 *)

Lemma rne_integer (q : Q) (m : Z) : (q == inject_Z m)%Q -> rne q = m.
Proof.
  intros E. unfold rne.
  assert (Ef : Qfloor q = m) by (rewrite (Qfloor_comp _ _ E); apply Qfloor_Z).
  rewrite Ef.
  assert (E0 : (q - inject_Z m == 0)%Q) by (rewrite E; ring).
  rewrite (Qcompare_comp _ _ E0 (1 # 2) (1 # 2) (Qeq_refl _)).
  reflexivity.
Qed.

Lemma binary32_int (z : Z) :
  - 2 ^ 24 < z < 2 ^ 24 -> (binary32 (inject_Z z) == inject_Z z)%Q.
Proof.
  intros Hz. unfold binary32, binary.
  destruct (Z.eq_dec z 0) as [-> | Hnz]; [reflexivity |].
  replace (Qeq_bool (inject_Z z) 0) with false.
  2:{ symmetry. apply not_true_is_false. intros H. apply Qeq_bool_eq in H.
      unfold Qeq in H. cbn in H. lia. }
  cbv zeta.
  assert (Hl : ilog2 (inject_Z z) <= 23).
  { unfold ilog2. cbn [inject_Z Qnum Qden].
    change (Z.log2 1) with 0. rewrite Z.sub_0_r.
    assert (Z.log2 (Z.abs z) < 24) by (apply Z.log2_lt_pow2; lia).
    destruct (Qlt_le_dec _ _); lia. }
  set (e := Z.max (ilog2 (inject_Z z) - (24 - 1)) (-149)).
  assert (He : -149 <= e <= 0) by (unfold e; lia).
  clearbody e.
  assert (Hp : (pow2 e == 1 / inject_Z (2 ^ (- e)))%Q).
  { unfold pow2. destruct (0 <=? e) eqn:E0; [| reflexivity].
    apply Z.leb_le in E0. replace e with 0 by lia. reflexivity. }
  assert (Hk : 0 < 2 ^ (- e)) by (apply Z.pow_pos_nonneg; lia).
  assert (Hq : (0 < inject_Z (2 ^ (- e)))%Q)
    by (change 0%Q with (inject_Z 0); rewrite <- Zlt_Qlt; exact Hk).
  assert (Em : (inject_Z z / pow2 e == inject_Z (z * 2 ^ (- e)))%Q).
  { rewrite Hp, inject_Z_mult. field. lra. }
  rewrite (rne_integer _ _ Em), Hp, inject_Z_mult. field. lra.
Qed.


(** ** Bitcrusher: every depth, and the sample-and-hold *)

Lemma pow2_clamped (d : Z) : 2 <= 2 ^ clamp d 1 24.
Proof.
  assert (H : 1 <= clamp d 1 24 <= 24).
  { unfold clamp. destruct (d <? 1) eqn:E1; [lia |].
    destruct (24 <? d) eqn:E2; [lia |].
    apply Z.ltb_ge in E1, E2. lia. }
  change 2 with (2 ^ 1) at 1. apply Z.pow_le_mono_r; lia.
Qed.

(** Whatever depth is asked for, [setBitDepth] leaves a scale of 1 at least,
    and with no rate reduction [process] returns its input within
    [1 / (4 * bitDepthScale)], and within [[-1/2, 1/2]] when the input is. *)
Theorem bitcrusher_error_any_depth (d : Z) (b : Bitcrusher.t) (x : Q) :
  0 <= Bitcrusher.currentSampleCount b < 2 ^ 31 - 1 ->
  (1 <= Bitcrusher.bitDepthScale (Bitcrusher.setBitDepth d b))%Q /\
  (Qabs (crush d b x - x)
   <= 1 / (4 * Bitcrusher.bitDepthScale (Bitcrusher.setBitDepth d b)))%Q /\
  ((- (1 # 2) <= x <= 1 # 2)%Q -> (- (1 # 2) <= crush d b x <= 1 # 2)%Q).
Proof.
  intros Hc. pose proof (pow2_clamped d) as H2.
  cbn [Bitcrusher.setBitDepth Bitcrusher.bitDepthScale].
  pose proof (scale_quantLevels (clamp d 1 24)) as ES.
  assert (Hn : 1 <= quantLevels (clamp d 1 24)) by (unfold quantLevels; lia).
  assert (HS : (1 <= inject_Z (quantLevels (clamp d 1 24)))%Q)
    by (change 1%Q with (inject_Z 1); rewrite <- Zle_Qle; exact Hn).
  rewrite crush_eq by exact Hc.
  rewrite (round_proper _ (2 * x * inject_Z (quantLevels (clamp d 1 24)))%Q)
    by (rewrite ES; reflexivity).
  rewrite ES.
  split; [exact HS |]. split.
  - apply quantize_error. lra.
  - intros [Hlo Hhi].
    destruct (round_bounded (2 * x * inject_Z (quantLevels (clamp d 1 24)))
                (quantLevels (clamp d 1 24))) as [Rlo Rhi].
    { split.
      - setoid_replace (- inject_Z (quantLevels (clamp d 1 24)))%Q
          with ((2 * - (1 # 2)) * inject_Z (quantLevels (clamp d 1 24)))%Q
          by ring.
        apply Qmult_le_compat_r; lra.
      - setoid_replace (inject_Z (quantLevels (clamp d 1 24)))%Q
          with ((2 * (1 # 2)) * inject_Z (quantLevels (clamp d 1 24)))%Q at 2
          by ring.
        apply Qmult_le_compat_r; lra. }
    rewrite Zle_Qle in Rlo, Rhi. rewrite inject_Z_opp in Rlo.
    set (r := inject_Z (round _)) in *. clearbody r.
    set (S := inject_Z (quantLevels (clamp d 1 24))) in *. clearbody S.
    split.
    + apply Qle_shift_div_l; [lra |]. apply Qle_shift_div_l; lra.
    + apply Qle_shift_div_r; [lra |]. apply Qle_shift_div_r; lra.
Qed.

Lemma bitcrusher_error_any_depth_witness :
  (1 <= Bitcrusher.bitDepthScale (Bitcrusher.setBitDepth 99 Bitcrusher.init))%Q
  /\
  (Qabs (crush 99 Bitcrusher.init (1 # 3) - (1 # 3))
   <= 1 / (4 * Bitcrusher.bitDepthScale
                  (Bitcrusher.setBitDepth 99 Bitcrusher.init)))%Q /\
  ((- (1 # 2) <= 1 # 3 <= 1 # 2)%Q ->
   (- (1 # 2) <= crush 99 Bitcrusher.init (1 # 3) <= 1 # 2)%Q).
Proof.
  apply (bitcrusher_error_any_depth 99 Bitcrusher.init (1 # 3)).
  cbn. lia.
Defined.

(** Sample and hold.  With the counter at [c] and a reduction factor [r],
    the next [r - c - 1] calls return the held sample, whatever their
    inputs; the call after them returns its own input re-quantised, holds
    it and leaves the counter at 0. *)
Theorem bitcrusher_sample_and_hold
  (xs : list Q) (x : Q) (b : Bitcrusher.t) :
  0 <= Bitcrusher.currentSampleCount b ->
  Bitcrusher.sampleRateReduction b < 2 ^ 31 ->
  Bitcrusher.currentSampleCount b + Z.of_nat (length xs) + 1
  = Bitcrusher.sampleRateReduction b ->
  crush_run (xs ++ [x]) b
  = (repeat (Bitcrusher.lastProcessedSample b) (length xs)
     ++ [requantized b x],
     Bitcrusher.mk (Bitcrusher.sampleRateReduction b) (Bitcrusher.bitDepth b)
       (Bitcrusher.bitDepthScale b) (requantized b x) 0).
Proof.
  revert b. induction xs as [| y ys IH]; intros b Hc Hr Hlen.
  - cbn [app crush_run length repeat]. unfold Bitcrusher.process.
    rewrite int32_small by (cbn [length] in Hlen; lia).
    cbn [length Z.of_nat] in Hlen.
    destruct (Bitcrusher.sampleRateReduction b
              <=? Bitcrusher.currentSampleCount b + 1) eqn:E;
      [reflexivity | apply Z.leb_gt in E; lia].
  - cbn [app crush_run length repeat]. unfold Bitcrusher.process at 1.
    rewrite int32_small by (cbn [length] in Hlen; lia).
    destruct (Bitcrusher.sampleRateReduction b
              <=? Bitcrusher.currentSampleCount b + 1) eqn:E;
      [apply Z.leb_le in E; cbn [length] in Hlen; lia |].
    rewrite IH.
    + reflexivity.
    + cbn. lia.
    + exact Hr.
    + cbn [Bitcrusher.currentSampleCount Bitcrusher.sampleRateReduction].
      cbn [length] in Hlen. lia.
Qed.


Lemma bitcrusher_sample_and_hold_witness :
  let b := Bitcrusher.setBitDepth 4
             (Bitcrusher.setSampleRateReduction 3 Bitcrusher.init) in
  crush_run ([1 # 4; 1 # 3] ++ [1 # 5]) b
  = (repeat (Bitcrusher.lastProcessedSample b) (length [1 # 4; 1 # 3])
     ++ [requantized b (1 # 5)],
     Bitcrusher.mk (Bitcrusher.sampleRateReduction b) (Bitcrusher.bitDepth b)
       (Bitcrusher.bitDepthScale b) (requantized b (1 # 5)) 0).
Proof.
  intros b.
  apply (bitcrusher_sample_and_hold [1 # 4; 1 # 3] (1 # 5) b).
  - cbn. lia.
  - cbn. lia.
  - reflexivity.
Defined.

(** ** Delay: bounds, positions and stability *)

Lemma trunc_floor (q : Q) : (0 <= q)%Q -> trunc q = Qfloor q.
Proof.
  intros H. unfold trunc, Qfloor. destruct q as [n dq]. cbn [Qnum Qden].
  apply Z.quot_div_nonneg; [| lia].
  unfold Qle in H. cbn in H. lia.
Qed.

Lemma floor_in_range (q : Q) (n : Z) :
  (0 <= q < inject_Z n)%Q -> 0 <= Qfloor q < n.
Proof.
  intros [Hlo Hhi]. split.
  - change 0 with (Qfloor 0). apply Qfloor_resp_le. exact Hlo.
  - rewrite Zlt_Qlt. apply Qle_lt_trans with q; [apply Qfloor_le | exact Hhi].
Qed.

Lemma write_nat_length (l : list Q) (i : nat) (v : Q) :
  length (Delay.write_nat l i v) = length l.
Proof.
  revert i. induction l as [| x l IH]; intros i; [reflexivity |].
  destruct i; cbn; [reflexivity | rewrite IH; reflexivity].
Qed.

Lemma write_length (l : list Q) (i : Z) (v : Q) :
  length (Delay.write l i v) = length l.
Proof.
  unfold Delay.write. destruct (i <? 0); [reflexivity |].
  apply write_nat_length.
Qed.

Lemma resize_length (n : nat) (l : list Q) : length (Delay.resize n l) = n.
Proof.
  unfold Delay.resize. rewrite length_app, length_firstn, repeat_length. lia.
Qed.

Lemma advance_in_range (pos : Q) (n : Z) :
  0 < n -> (0 <= pos < inject_Z n)%Q ->
  (0 <= Delay.advance pos n < inject_Z n)%Q.
Proof.
  intros Hn [Hlo Hhi]. unfold Delay.advance.
  assert (H1 : (1 <= inject_Z n)%Q)
    by (change 1%Q with (inject_Z 1); rewrite <- Zle_Qle; lia).
  destruct (Qlt_le_dec (pos + 1) (inject_Z n)); split; lra.
Qed.

Lemma wf_in_bounds (d : Delay.t) : DelayLine.wf d -> DelayLine.in_bounds d.
Proof.
  intros [Hn [Hlen [Hr Hw]]]. unfold DelayLine.in_bounds. rewrite Hlen.
  pose proof (floor_in_range _ _ Hr) as Hf.
  split; [exact Hf |]. split.
  - destruct (Z.rem_bound_pos (Qfloor (Delay.readPos d) + 1) (Delay.size d));
      lia.
  - rewrite trunc_floor by apply Hw. apply floor_in_range. exact Hw.
Qed.

Lemma wf_apply (n : Z) (o : DelayLine.op) (d : Delay.t) :
  DelayLine.fits n o -> DelayLine.wf d -> Delay.size d = n ->
  DelayLine.wf (DelayLine.apply o d) /\ Delay.size (DelayLine.apply o d) = n.
Proof.
  intros Hfit [Hn [Hlen [Hr Hw]]] Hsize.
  destruct o as [t | f | m | x]; cbn [DelayLine.apply].
  - split; [| exact Hsize]. unfold DelayLine.wf.
    cbn [Delay.setDelayTime Delay.size Delay.buffer Delay.readPos
         Delay.writePos].
    cbn [DelayLine.fits] in Hfit. rewrite <- Hsize in Hfit.
    repeat split; try assumption; try apply Hw;
      destruct (Qlt_le_dec (Delay.writePos d - t) 0); lra.
  - split; [| exact Hsize]. repeat split; assumption || apply Hr || apply Hw.
  - split; [| exact Hsize]. repeat split; assumption || apply Hr || apply Hw.
  - unfold Delay.process.
    destruct (Qlt_le_dec 0 (Delay.delayTime d)); cbn [snd];
      [| split; [repeat split; assumption || apply Hr || apply Hw
                | exact Hsize]].
    split; [| exact Hsize]. unfold DelayLine.wf.
    cbn [Delay.size Delay.buffer Delay.readPos Delay.writePos].
    rewrite write_length.
    pose proof (advance_in_range _ _ Hn Hr).
    pose proof (advance_in_range _ _ Hn Hw).
    repeat split; tauto.
Qed.

Lemma wf_exec (n : Z) (ops : list DelayLine.op) (d : Delay.t) :
  Forall (DelayLine.fits n) ops -> DelayLine.wf d -> Delay.size d = n ->
  DelayLine.wf (DelayLine.exec ops d) /\ Delay.size (DelayLine.exec ops d) = n.
Proof.
  revert d. induction ops as [| o rest IH]; intros d Hfit Hwf Hsize.
  - split; assumption.
  - inversion Hfit as [| ? ? Ho Hrest]; subst.
    destruct (wf_apply _ o d Ho Hwf eq_refl) as [Hwf' Hsize'].
    cbn [DelayLine.exec]. apply IH; assumption.
Qed.

(** In exact arithmetic: sized once to [n >= 2] samples, a delay stays
    well-formed through any calls of its setters and of [process], as long
    as the delay times asked for lie in [[0, n]]: its buffer keeps [n]
    entries, both positions stay in [[0, n)], and the two indices
    [linearInterpolation] reads and the index [process] writes are indices
    of the buffer.  This rests on the sum [readPos + size] of
    [setDelayTime] staying below [size], which holds over the rationals and
    can fail once the sum is rounded to binary32. *)
Theorem delay_accesses_in_bounds
  (n : Z) (delayTime0 : Q) (size0 : Z) (ops : list DelayLine.op) :
  2 <= n ->
  Forall (DelayLine.fits n) ops ->
  DelayLine.wf
    (DelayLine.exec ops (Delay.setSize n (DelayLine.fresh delayTime0 size0)))
  /\
  DelayLine.in_bounds
    (DelayLine.exec ops (Delay.setSize n (DelayLine.fresh delayTime0 size0)))
  /\
  Z.of_nat
    (length
       (Delay.buffer
          (DelayLine.exec ops
             (Delay.setSize n (DelayLine.fresh delayTime0 size0)))))
  = n.
Proof.
  intros Hn Hfit.
  assert (H0 : DelayLine.wf (Delay.setSize n (DelayLine.fresh delayTime0 size0))).
  { unfold DelayLine.wf, Delay.setSize, DelayLine.fresh.
    cbn [Delay.size Delay.buffer Delay.readPos Delay.writePos].
    rewrite resize_length.
    assert (H2 : (2 <= inject_Z n)%Q)
      by (change 2%Q with (inject_Z 2); rewrite <- Zle_Qle; exact Hn).
    repeat split; try lia; try lra. }
  destruct (wf_exec n ops _ Hfit H0 eq_refl) as [Hwf Hsize].
  split; [exact Hwf |]. split; [apply wf_in_bounds; exact Hwf |].
  destruct Hwf as [_ [Hlen _]]. rewrite Hlen. exact Hsize.
Qed.

Lemma delay_accesses_in_bounds_witness :
  let d :=
    DelayLine.exec
      [DelayLine.SetDelayTime 3; DelayLine.Process (1 # 2);
       DelayLine.SetFeedback 7; DelayLine.Process (1 # 3)]
      (Delay.setSize 8 (DelayLine.fresh 5 0)) in
  DelayLine.wf d /\ DelayLine.in_bounds d /\
  Z.of_nat (length (Delay.buffer d)) = 8.
Proof.
  apply (delay_accesses_in_bounds 8 5 0
           [DelayLine.SetDelayTime 3; DelayLine.Process (1 # 2);
            DelayLine.SetFeedback 7; DelayLine.Process (1 # 3)]).
  - lia.
  - repeat apply Forall_cons; try apply Forall_nil;
      cbn [DelayLine.fits]; try exact I.
    change (inject_Z 8) with 8%Q. lra.
Defined.

Lemma trails_setDelayTime (t : Q) (d : Delay.t) :
  DelayLine.trails (Delay.setDelayTime t d).
Proof.
  unfold DelayLine.trails, Delay.setDelayTime.
  cbn [Delay.readPos Delay.writePos Delay.delayTime Delay.size].
  destruct (Qlt_le_dec (Delay.writePos d - t) 0).
  - exists 1. split; [lia |]. change (inject_Z 1) with 1%Q. ring.
  - exists 0. split; [lia |]. change (inject_Z 0) with 0%Q. ring.
Qed.

Lemma trails_process (x : Q) (d : Delay.t) :
  DelayLine.wf d ->
  (0 <= Delay.delayTime d <= inject_Z (Delay.size d))%Q ->
  DelayLine.trails d -> DelayLine.trails (snd (Delay.process x d)).
Proof.
  intros [Hn [Hlen [Hr Hw]]] Ht [j [Hj E]].
  unfold Delay.process.
  destruct (Qlt_le_dec 0 (Delay.delayTime d)); cbn [snd];
    [| exists j; split; assumption].
  pose proof (advance_in_range _ _ Hn Hr) as Hr'.
  pose proof (advance_in_range _ _ Hn Hw) as Hw'.
  unfold DelayLine.trails.
  cbn [Delay.readPos Delay.writePos Delay.delayTime Delay.size].
  unfold Delay.advance in *.
  set (n := inject_Z (Delay.size d)) in *.
  assert (Hn1 : (1 <= n)%Q)
    by (unfold n; change 1%Q with (inject_Z 1); rewrite <- Zle_Qle; lia).
  clearbody n.
  assert (Hj' : j = 0 \/ j = 1) by lia.
  destruct Hj' as [-> | ->];
    [change (inject_Z 0) with 0%Q in E | change (inject_Z 1) with 1%Q in E];
    destruct (Qlt_le_dec (Delay.readPos d + 1) n);
    destruct (Qlt_le_dec (Delay.writePos d + 1) n);
    first
      [ exists 0; split; [lia |]; change (inject_Z 0) with 0%Q; lra
      | exists 1; split; [lia |]; change (inject_Z 1) with 1%Q; lra
      | exfalso; lra ].
Qed.

Lemma trails_exec (n : Z) (ops : list DelayLine.op) (d : Delay.t) :
  Forall (DelayLine.fits n) ops ->
  DelayLine.wf d -> Delay.size d = n ->
  (0 <= Delay.delayTime d <= inject_Z n)%Q ->
  DelayLine.trails d ->
  DelayLine.trails (DelayLine.exec ops d).
Proof.
  revert d. induction ops as [| o rest IH]; intros d Hfit Hwf Hsize Ht Htr.
  - exact Htr.
  - inversion Hfit as [| ? ? Ho Hrest]; subst.
    destruct (wf_apply _ o d Ho Hwf eq_refl) as [Hwf' Hsize'].
    cbn [DelayLine.exec]. apply IH; try assumption.
    + destruct o as [t | f | m | x]; cbn [DelayLine.apply];
        try exact Ht.
      * cbn [Delay.setDelayTime Delay.delayTime]. exact Ho.
      * unfold Delay.process.
        destruct (Qlt_le_dec 0 (Delay.delayTime d)); exact Ht.
    + destruct o as [t | f | m | x]; cbn [DelayLine.apply].
      * apply trails_setDelayTime.
      * exact Htr.
      * exact Htr.
      * apply trails_process; assumption.
Qed.

(** In exact arithmetic: after [setDelayTime (t)] on a well-formed delay,
    with [t] in [[0, size]], the read position equals the write position
    less [t], modulo the size, and stays so through any later calls of the
    setters and of [process].  (In binary32 the difference and the sum are
    rounded, and the relation holds up to that rounding only.) *)
Theorem delay_read_trails_write
  (t : Q) (ops : list DelayLine.op) (d : Delay.t) :
  DelayLine.wf d ->
  (0 <= t <= inject_Z (Delay.size d))%Q ->
  Forall (DelayLine.fits (Delay.size d)) ops ->
  DelayLine.trails (DelayLine.exec ops (Delay.setDelayTime t d)) /\
  DelayLine.wf (DelayLine.exec ops (Delay.setDelayTime t d)).
Proof.
  intros Hwf Ht Hfit.
  destruct (wf_apply (Delay.size d) (DelayLine.SetDelayTime t) d Ht Hwf eq_refl)
    as [Hwf' Hsize']. cbn [DelayLine.apply] in Hwf', Hsize'.
  split.
  - apply (trails_exec (Delay.size d)); try assumption.
    apply trails_setDelayTime.
  - apply (wf_exec (Delay.size d)); assumption.
Qed.

Lemma delay_read_trails_write_witness :
  let d := Delay.setSize 8 (DelayLine.fresh 5 0) in
  let ops := [DelayLine.Process (1 # 2); DelayLine.Process (1 # 3);
              DelayLine.SetDryWetMix 2; DelayLine.Process 1] in
  DelayLine.trails (DelayLine.exec ops (Delay.setDelayTime 3 d)) /\
  DelayLine.wf (DelayLine.exec ops (Delay.setDelayTime 3 d)).
Proof.
  intros d ops.
  apply (delay_read_trails_write 3 ops d).
  - unfold DelayLine.wf, d. cbn. change (inject_Z 8) with 8%Q.
    repeat split; try lia; try lra.
  - unfold d. cbn. change (inject_Z 8) with 8%Q. lra.
  - repeat apply Forall_cons; try apply Forall_nil; exact I.
Defined.

Lemma jlimit_range (lo hi v : Q) :
  (lo <= hi)%Q -> (lo <= jlimit lo hi v <= hi)%Q.
Proof.
  intros H. unfold jlimit.
  destruct (Qlt_le_dec v lo); [lra |].
  destruct (Qlt_le_dec hi v); lra.
Qed.

Lemma bounded_nth (M : Q) (l : list Q) (i : nat) :
  (0 <= M)%Q -> DelayLine.bounded M l -> (- M <= nth i l 0 <= M)%Q.
Proof.
  intros HM Hl. revert i. induction Hl as [| v l Hv Hl IH]; intros i.
  - destruct i; cbn; lra.
  - destruct i; cbn; [exact Hv | apply IH].
Qed.

Lemma bounded_read (M : Q) (l : list Q) (i : Z) :
  (0 <= M)%Q -> DelayLine.bounded M l -> (- M <= Delay.read l i <= M)%Q.
Proof.
  intros HM Hl. unfold Delay.read.
  destruct (i <? 0); [lra | apply bounded_nth; assumption].
Qed.

Lemma bounded_write_nat (M v : Q) (l : list Q) (i : nat) :
  (- M <= v <= M)%Q -> DelayLine.bounded M l ->
  DelayLine.bounded M (Delay.write_nat l i v).
Proof.
  intros Hv Hl. revert i. induction Hl as [| x l Hx Hl IH]; intros i.
  - destruct i; apply Forall_nil.
  - destruct i; cbn [Delay.write_nat].
    + apply Forall_cons; [exact Hv | exact Hl].
    + apply Forall_cons; [exact Hx | apply IH].
Qed.

Lemma bounded_write (M v : Q) (l : list Q) (i : Z) :
  (- M <= v <= M)%Q -> DelayLine.bounded M l ->
  DelayLine.bounded M (Delay.write l i v).
Proof.
  intros Hv Hl. unfold Delay.write.
  destruct (i <? 0); [exact Hl | apply bounded_write_nat; assumption].
Qed.

(** A product with a factor of [[0, 1]] (or of [[0, c]]) stays within the
    bound of the other factor. *)
Lemma scaled_within (a c M : Q) :
  (0 <= c)%Q -> (- M <= a <= M)%Q -> (- (M * c) <= a * c <= M * c)%Q.
Proof.
  intros Hc [Hlo Hhi]. split.
  - setoid_replace (- (M * c))%Q with ((- M) * c)%Q by ring.
    apply Qmult_le_compat_r; assumption.
  - apply Qmult_le_compat_r; assumption.
Qed.

Lemma linearInterpolation_bounded (M : Q) (d : Delay.t) :
  (0 <= M)%Q -> DelayLine.bounded M (Delay.buffer d) ->
  (- M <= Delay.linearInterpolation d <= M)%Q.
Proof.
  intros HM Hb. unfold Delay.linearInterpolation.
  pose proof (Qfloor_le (Delay.readPos d)) as Hlo.
  pose proof (Qlt_floor (Delay.readPos d)) as Hhi.
  rewrite inject_Z_plus in Hhi. change (inject_Z 1) with 1%Q in Hhi.
  set (frac := (Delay.readPos d - inject_Z (Qfloor (Delay.readPos d)))%Q).
  assert (Hfrac : (0 <= frac <= 1)%Q) by (unfold frac; split; lra).
  clearbody frac.
  pose proof (bounded_read M _ (Qfloor (Delay.readPos d)) HM Hb) as HA.
  pose proof (bounded_read M _
                (Z.rem (Qfloor (Delay.readPos d) + 1) (Delay.size d)) HM Hb)
    as HB.
  set (A := Delay.read _ (Qfloor _)) in *. clearbody A.
  set (B := Delay.read _ (Z.rem _ _)) in *. clearbody B.
  assert (H1 : (0 <= 1 - frac)%Q) by lra.
  pose proof (scaled_within A (1 - frac) M H1 HA) as PA.
  pose proof (scaled_within B frac M (proj1 Hfrac) HB) as PB.
  assert (EA : ((1 - frac) * A == A * (1 - frac))%Q) by ring.
  assert (EB : (frac * B == B * frac)%Q) by ring.
  assert (EM : (M * (1 - frac) + M * frac == M)%Q) by ring.
  split; lra.
Qed.

Lemma process_bounded (B M x : Q) (d : Delay.t) :
  (0 <= B)%Q -> (0 <= M)%Q -> (0 <= Delay.feedback d)%Q ->
  (B + M * Delay.feedback d <= M)%Q ->
  (0 <= Delay.dryWetMix d <= 1)%Q ->
  (- B <= x <= B)%Q ->
  DelayLine.bounded M (Delay.buffer d) ->
  (- M <= fst (Delay.process x d) <= M)%Q /\
  DelayLine.bounded M (Delay.buffer (snd (Delay.process x d))) /\
  Delay.feedback (snd (Delay.process x d)) = Delay.feedback d /\
  Delay.dryWetMix (snd (Delay.process x d)) = Delay.dryWetMix d.
Proof.
  intros HB HM0 Hf HM Hm Hx Hb.
  assert (HBM : (B <= M)%Q).
  { assert (0 <= M * Delay.feedback d)%Q by (apply Qmult_le_0_compat; lra).
    lra. }
  unfold Delay.process.
  destruct (Qlt_le_dec 0 (Delay.delayTime d)); cbn [fst snd].
  - pose proof (linearInterpolation_bounded M d HM0 Hb) as Ho.
    set (out := Delay.linearInterpolation d) in *. clearbody out.
    cbn [Delay.buffer Delay.feedback Delay.dryWetMix].
    pose proof (scaled_within out (Delay.feedback d) M Hf Ho) as Pf.
    pose proof (scaled_within out (Delay.dryWetMix d) M (proj1 Hm) Ho) as Pm.
    assert (H1 : (0 <= 1 - Delay.dryWetMix d)%Q) by lra.
    assert (Hx' : (- M <= x <= M)%Q) by lra.
    pose proof (scaled_within x (1 - Delay.dryWetMix d) M H1 Hx') as Px.
    assert (EM : (M * (1 - Delay.dryWetMix d) + M * Delay.dryWetMix d == M)%Q)
      by ring.
    split; [split; lra |]. split; [| split; reflexivity].
    apply bounded_write; [split; lra | exact Hb].
  - split; [lra |]. split; [exact Hb | split; reflexivity].
Qed.

Lemma run_bounded (B M : Q) (xs : list Q) (d : Delay.t) :
  (0 <= B)%Q -> (0 <= M)%Q -> (0 <= Delay.feedback d)%Q ->
  (B + M * Delay.feedback d <= M)%Q ->
  (0 <= Delay.dryWetMix d <= 1)%Q ->
  DelayLine.bounded B xs ->
  DelayLine.bounded M (Delay.buffer d) ->
  DelayLine.bounded M (fst (DelayLine.run xs d)) /\
  DelayLine.bounded M (Delay.buffer (snd (DelayLine.run xs d))).
Proof.
  intros HB HM0. revert d.
  induction xs as [| x xs IH]; intros d Hf HM Hm Hxs Hb.
  - split; [apply Forall_nil | exact Hb].
  - inversion Hxs as [| ? ? Hx Hrest]; subst.
    destruct (process_bounded B M x d HB HM0 Hf HM Hm Hx Hb)
      as [Hy [Hb' [Ef Em]]].
    cbn [DelayLine.run].
    destruct (Delay.process x d) as [y d']. cbn [fst snd] in *.
    destruct (IH d') as [Hys Hb''];
      [rewrite Ef; exact Hf | rewrite Ef; exact HM | rewrite Em; exact Hm
      | exact Hrest | exact Hb' |].
    destruct (DelayLine.run xs d') as [ys d'']. cbn [fst snd] in *.
    split; [apply Forall_cons; assumption | exact Hb''].
Qed.

(** In exact arithmetic the delay does not blow up.  Whatever feedback and
    mix are asked for (the setters limit them to [[0, 0.99f]] and
    [[0, 1]], and [0.99f] is 4152361 / 4194304, above 0.99), if the stored
    samples lie within [101 * B] and the inputs within [B], every output of
    [process] and every stored sample stay within [101 * B].  (The bound
    [100 * B] would not do: the gain of the loop at the limit,
    [1 / (1 - 0.99f)], is a little above 100.) *)
Theorem delay_stays_bounded
  (B f m : Q) (xs : list Q) (d : Delay.t) :
  (0 <= B)%Q ->
  DelayLine.wf d ->
  DelayLine.bounded B xs ->
  DelayLine.bounded (101 * B) (Delay.buffer d) ->
  DelayLine.bounded (101 * B)
    (fst (DelayLine.run xs (Delay.setDryWetMix m (Delay.setFeedback f d)))) /\
  DelayLine.bounded (101 * B)
    (Delay.buffer
       (snd (DelayLine.run xs
               (Delay.setDryWetMix m (Delay.setFeedback f d))))).
Proof.
  intros HB _ Hxs Hb.
  pose proof (jlimit_range 0 (4152361 # 4194304) f) as Hf.
  pose proof (jlimit_range 0 1 m) as Hm.
  apply (run_bounded B (101 * B)); try assumption.
  - lra.
  - cbn [Delay.setDryWetMix Delay.setFeedback Delay.feedback]. lra.
  - cbn [Delay.setDryWetMix Delay.setFeedback Delay.feedback].
    assert (H : (101 * B * jlimit 0 (4152361 # 4194304) f <= 101 * B * (4152361 # 4194304))%Q).
    { rewrite (Qmult_comm (101 * B) (jlimit 0 (4152361 # 4194304) f)).
      rewrite (Qmult_comm (101 * B) (4152361 # 4194304)).
      apply Qmult_le_compat_r; lra. }
    lra.
  - cbn [Delay.setDryWetMix Delay.dryWetMix]. lra.
Qed.

Lemma delay_stays_bounded_witness :
  let d := Delay.setDelayTime 3 (Delay.setSize 8 (DelayLine.fresh 5 0)) in
  DelayLine.bounded (101 * 1)
    (fst (DelayLine.run [1%Q; (- (1 # 2))%Q; (1 # 3)%Q]
            (Delay.setDryWetMix 7 (Delay.setFeedback 7 d)))) /\
  DelayLine.bounded (101 * 1)
    (Delay.buffer
       (snd (DelayLine.run [1%Q; (- (1 # 2))%Q; (1 # 3)%Q]
               (Delay.setDryWetMix 7 (Delay.setFeedback 7 d))))).
Proof.
  intros d.
  apply (delay_stays_bounded 1 7 7 [1%Q; (- (1 # 2))%Q; (1 # 3)%Q] d).
  - lra.
  - unfold DelayLine.wf, d. cbn. change (inject_Z 8) with 8%Q.
    repeat split; try lia; try lra.
  - repeat apply Forall_cons; try apply Forall_nil; lra.
  - unfold d. cbn. repeat apply Forall_cons; try apply Forall_nil; lra.
Defined.

(** ** Oscillator waveforms *)

Lemma sq_unit (a : Q) : (0 <= a <= 1)%Q -> (0 <= a * a <= 1)%Q.
Proof.
  intros [Hlo Hhi]. split.
  - apply Qmult_le_0_compat; assumption.
  - apply Qle_trans with (1 * a)%Q; [| lra].
    apply Qmult_le_compat_r; assumption.
Qed.

Lemma tri_output_range (p : Q) :
  (0 <= p <= 1)%Q -> (- (1 # 2) <= Waveforms.tri_output p <= 1 # 2)%Q.
Proof.
  intros [Hlo Hhi]. unfold Waveforms.tri_output.
  destruct (Qlt_le_dec p (1 # 2)).
  - split.
    + apply Qle_shift_div_l; lra.
    + apply Qle_shift_div_r; lra.
  - assert (Ht : (0 <= (p - (1 # 2)) * 2 <= 1)%Q) by (split; lra).
    pose proof (sq_unit _ Ht) as Hsq.
    set (t := ((p - (1 # 2)) * 2)%Q) in *. clearbody t.
    assert (E : (1 - 2 * t * t == 1 - 2 * (t * t))%Q) by ring.
    split.
    + apply Qle_shift_div_l; lra.
    + apply Qle_shift_div_r; lra.
Qed.

Lemma saw_output_range (p : Q) :
  (0 <= p <= 1)%Q -> (- (1 # 2) <= Phasor.saw_output p <= 1 # 2)%Q.
Proof.
  intros H. unfold Phasor.saw_output. split; lra.
Qed.

(** The triangle and the sawtooth oscillators stay within half of full
    scale: for a frequency between 0 and the sample rate, every sample
    [process] returns lies in [[-1/2, 1/2]]; and the triangle is continuous
    where its rise meets its fall. *)
Theorem tri_and_saw_within_half_scale
  (p : Phasor.t) (sr f : Q) (n : nat) :
  (0 < sr)%Q -> (0 <= f <= sr)%Q -> (0 <= Phasor.phase p <= 1)%Q ->
  (- (1 # 2)
   <= fst (Phasor.process Waveforms.tri_output
             (Phasor.ticks n
                (Phasor.setFrequency f (Phasor.setSampleRate sr p))))
   <= 1 # 2)%Q /\
  (- (1 # 2)
   <= fst (Phasor.process Phasor.saw_output
             (Phasor.ticks n
                (Phasor.setFrequency f (Phasor.setSampleRate sr p))))
   <= 1 # 2)%Q /\
  (Waveforms.tri_output 0 == - (1 # 2))%Q /\
  (Waveforms.tri_output (1 # 2) == 1 # 2)%Q /\
  (Waveforms.tri_output 1 == - (1 # 2))%Q.
Proof.
  intros Hsr Hf Hp.
  assert (Hd : (0 <= Phasor.phaseDelta
                       (Phasor.setFrequency f (Phasor.setSampleRate sr p))
                <= 1)%Q).
  { cbn [Phasor.setFrequency Phasor.setSampleRate Phasor.phaseDelta
         Phasor.sampleRate]. split.
    - apply Qle_shift_div_l; lra.
    - apply Qle_shift_div_r; lra. }
  assert (Hph : (0 <= Phasor.phase
                        (Phasor.updatePhase
                           (Phasor.ticks n
                              (Phasor.setFrequency f
                                 (Phasor.setSampleRate sr p))))
                 <= 1)%Q).
  { change (Phasor.updatePhase (Phasor.ticks n ?q))
      with (Phasor.updatePhase (Phasor.ticks n q)).
    assert (E : forall q, Phasor.updatePhase (Phasor.ticks n q)
                          = Phasor.ticks n (Phasor.updatePhase q)).
    { clear. induction n as [| n IH]; intros q; cbn [Phasor.ticks];
        [reflexivity | apply IH]. }
    rewrite E. apply ticks_range.
    - destruct (updatePhase_range _ Hd Hp) as [_ Hd']. rewrite Hd'. exact Hd.
    - apply updatePhase_range; assumption. }
  unfold Phasor.process. cbn [fst].
  split; [apply tri_output_range; exact Hph |].
  split; [apply saw_output_range; exact Hph |].
  repeat split; vm_compute; reflexivity.
Qed.

Lemma tri_and_saw_within_half_scale_witness :
  let q := Phasor.ticks 5
             (Phasor.setFrequency 440 (Phasor.setSampleRate 44100 Phasor.init))
  in
  (- (1 # 2) <= fst (Phasor.process Waveforms.tri_output q) <= 1 # 2)%Q /\
  (- (1 # 2) <= fst (Phasor.process Phasor.saw_output q) <= 1 # 2)%Q /\
  (Waveforms.tri_output 0 == - (1 # 2))%Q /\
  (Waveforms.tri_output (1 # 2) == 1 # 2)%Q /\
  (Waveforms.tri_output 1 == - (1 # 2))%Q.
Proof.
  apply (tri_and_saw_within_half_scale Phasor.init 44100 440 5).
  - reflexivity.
  - split; discriminate.
  - split; discriminate.
Defined.
Lemma poly_blep_low (dt t : Q) :
  (0 < dt)%Q -> (0 <= t <= 1 - dt)%Q ->
  (- (1) <= Waveforms.poly_blep dt t <= 0)%Q.
Proof.
  intros Hdt [Hlo Hhi]. unfold Waveforms.poly_blep.
  destruct (Qlt_le_dec t dt) as [Hlt | Hge].
  - assert (Hu : (0 <= 1 - t / dt <= 1)%Q).
    { assert (0 <= t / dt)%Q by (apply Qle_shift_div_l; lra).
      assert (t / dt <= 1)%Q by (apply Qle_shift_div_r; lra).
      split; lra. }
    pose proof (sq_unit _ Hu) as Hsq.
    set (u := (t / dt)%Q) in *. clearbody u.
    assert (E : (u + u - u * u - 1 == - ((1 - u) * (1 - u)))%Q) by ring.
    rewrite E. split; lra.
  - destruct (Qlt_le_dec (1 - dt) t) as [Hgt | _]; [lra |].
    split; lra.
Qed.

Lemma poly_blep_high (dt t : Q) :
  (0 < dt)%Q -> (dt <= t <= 1)%Q ->
  (0 <= Waveforms.poly_blep dt t <= 1)%Q.
Proof.
  intros Hdt [Hlo Hhi]. unfold Waveforms.poly_blep.
  destruct (Qlt_le_dec t dt) as [Hlt | _]; [lra |].
  destruct (Qlt_le_dec (1 - dt) t) as [Hgt | Hle].
  - assert (Hu : (0 <= (t - 1) / dt + 1 <= 1)%Q).
    { assert (- (1) <= (t - 1) / dt)%Q by (apply Qle_shift_div_l; lra).
      assert ((t - 1) / dt <= 0)%Q by (apply Qle_shift_div_r; lra).
      split; lra. }
    pose proof (sq_unit _ Hu) as Hsq.
    set (u := ((t - 1) / dt)%Q) in *. clearbody u.
    assert (E : (u * u + u + u + 1 == (u + 1) * (u + 1))%Q) by ring.
    rewrite E. exact Hsq.
  - split; lra.
Qed.

Lemma trunc_unit (x : Q) (k : Z) :
  0 <= k -> (inject_Z k <= x < inject_Z k + 1)%Q -> trunc x = k.
Proof.
  intros Hk [Hlo Hhi].
  assert (Hx : (0 <= x)%Q).
  { apply Qle_trans with (inject_Z k); [| exact Hlo].
    change 0%Q with (inject_Z 0). rewrite <- Zle_Qle. exact Hk. }
  rewrite (trunc_floor _ Hx).
  assert (k <= Qfloor x)
    by (apply Qfloor_resp_le in Hlo; rewrite Qfloor_Z in Hlo; exact Hlo).
  assert (Qfloor x < k + 1).
  { rewrite Zlt_Qlt. apply Qle_lt_trans with x; [apply Qfloor_le |].
    rewrite inject_Z_plus. exact Hhi. }
  lia.
Qed.

Lemma square_output_range (dt pw p : Q) :
  (0 < dt)%Q -> (dt <= pw <= 1 - dt)%Q -> (0 <= p <= 1)%Q ->
  (- (1) <= Waveforms.square_output dt pw p <= 1)%Q.
Proof.
  intros Hdt [Hpl Hph] [Hlo Hhi]. unfold Waveforms.square_output.
  destruct (Qlt_le_dec p pw) as [Hlt | Hge].
  - assert (T : trunc (p + (1 - pw)) = 0)
      by (apply trunc_unit; [lia | change (inject_Z 0) with 0%Q; split; lra]).
    assert (Hq : (dt <= Waveforms.fmod1 (p + (1 - pw)) <= 1)%Q).
    { unfold Waveforms.fmod1. rewrite T. change (inject_Z 0) with 0%Q.
      split; lra. }
    pose proof (poly_blep_high dt _ Hdt Hq) as H1.
    assert (Hp : (0 <= p <= 1 - dt)%Q) by (split; lra).
    pose proof (poly_blep_low dt _ Hdt Hp) as H2.
    split; lra.
  - assert (T : trunc (p + (1 - pw)) = 1)
      by (apply trunc_unit; [lia | change (inject_Z 1) with 1%Q; split; lra]).
    assert (Hq : (0 <= Waveforms.fmod1 (p + (1 - pw)) <= 1 - dt)%Q).
    { unfold Waveforms.fmod1. rewrite T. change (inject_Z 1) with 1%Q.
      split; lra. }
    pose proof (poly_blep_low dt _ Hdt Hq) as H1.
    assert (Hp : (dt <= p <= 1)%Q) by (split; lra).
    pose proof (poly_blep_high dt _ Hdt Hp) as H2.
    split; lra.
Qed.

(** The band-limited square wave stays within full scale: when the phase
    step [phaseDelta] is positive and the pulse width lies in
    [[phaseDelta, 1 - phaseDelta]] (the two edges do not overlap), every
    sample [SquareOsc::process] returns lies in [[-1, 1]], so the voice's
    halved square is within [[-1/2, 1/2]]. *)
Theorem square_within_full_scale (pw : Q) (p : Phasor.t) :
  (0 < Phasor.phaseDelta p)%Q ->
  (Phasor.phaseDelta p <= pw <= 1 - Phasor.phaseDelta p)%Q ->
  (0 <= Phasor.phase p <= 1)%Q ->
  (- (1) <= fst (Waveforms.square_process pw p) <= 1)%Q /\
  (0 <= Phasor.phase (snd (Waveforms.square_process pw p)) <= 1)%Q /\
  Phasor.phaseDelta (snd (Waveforms.square_process pw p))
  = Phasor.phaseDelta p.
Proof.
  intros Hdt Hpw Hp.
  assert (Hd : (0 <= Phasor.phaseDelta p <= 1)%Q) by (split; lra).
  destruct (updatePhase_range p Hd Hp) as [Hr Hd'].
  unfold Waveforms.square_process, Phasor.process. cbn [fst snd].
  split; [| split; [exact Hr | exact Hd']].
  apply square_output_range; assumption.
Qed.

Lemma square_within_full_scale_witness :
  let p := Phasor.setFrequency 4410 (Phasor.setSampleRate 44100 Phasor.init) in
  (- (1) <= fst (Waveforms.square_process (1 # 4) p) <= 1)%Q /\
  (0 <= Phasor.phase (snd (Waveforms.square_process (1 # 4) p)) <= 1)%Q /\
  Phasor.phaseDelta (snd (Waveforms.square_process (1 # 4) p))
  = Phasor.phaseDelta p.
Proof.
  apply (square_within_full_scale (1 # 4)
           (Phasor.setFrequency 4410
              (Phasor.setSampleRate 44100 Phasor.init))).
  - reflexivity.
  - split; discriminate.
  - split; discriminate.
Defined.

(** ** Noise generator *)

Lemma noise_construct_wf (rand : nat -> Z) (increment0 : Q) :
  (forall i, 0 <= rand i) ->
  Z.of_nat (length (Noise.waveTable (Noise.construct rand increment0)))
  = Noise.wtSize /\
  Forall Noise.four_bit (Noise.waveTable (Noise.construct rand increment0)).
Proof.
  intros Hr. cbn [Noise.construct Noise.waveTable]. split.
  - rewrite length_map, length_seq. reflexivity.
  - apply Forall_forall. intros v Hv. apply in_map_iff in Hv.
    destruct Hv as [i [E _]]. subst v.
    exists (Z.rem (rand i) 16 - 8). split; [| reflexivity].
    pose proof (Z.rem_bound_pos (rand i) 16 (Hr i)). lia.
Qed.

Lemma noise_process_wf (n : Noise.t) :
  Noise.wf n ->
  exists x n', Noise.process n = Some (x, n') /\ Noise.four_bit x /\
               Noise.wf n' /\ In x (Noise.waveTable n) /\
               Noise.waveTable n' = Noise.waveTable n.
Proof.
  intros (Hlen & Htab & Hph & Hinc). unfold Noise.process.
  assert (Hi : 0 <= trunc (Noise.phase n) < Noise.wtSize).
  { rewrite trunc_floor by apply Hph. apply floor_in_range. exact Hph. }
  rewrite Hlen.
  replace ((0 <=? trunc (Noise.phase n))
           && (trunc (Noise.phase n) <? Noise.wtSize)) with true
    by (symmetry; apply andb_true_intro; split;
        [apply Z.leb_le | apply Z.ltb_lt]; lia).
  assert (Hin : In (nth (Z.to_nat (trunc (Noise.phase n)))
                        (Noise.waveTable n) 0%Q) (Noise.waveTable n))
    by (apply nth_In; lia).
  eexists. eexists. split; [reflexivity |].
  split; [exact (proj1 (Forall_forall _ _) Htab _ Hin) |].
  split; [| split; [exact Hin | reflexivity]].
  unfold Noise.wf. cbn [Noise.waveTable Noise.phase Noise.increment].
  split; [exact Hlen |]. split; [exact Htab |]. split; [| exact Hinc].
  destruct (Qlt_le_dec (Noise.phase n + Noise.increment n)
                       (inject_Z Noise.wtSize)); split; lra.
Qed.

Lemma noise_run_wf (k : nat) (n : Noise.t) :
  Noise.wf n ->
  exists xs n', Noise.run k n = Some (xs, n') /\ length xs = k /\
                Forall Noise.four_bit xs /\ Noise.wf n'.
Proof.
  revert n. induction k as [| k IH]; intros n Hn; cbn [Noise.run].
  - exists [], n. repeat split; try apply Hn. apply Forall_nil.
  - destruct (noise_process_wf n Hn) as (x & n' & E & Hx & Hn' & _).
    rewrite E.
    destruct (IH n' Hn') as (xs & n'' & E' & Hl & Hxs & Hn'').
    rewrite E'. exists (x :: xs), n''.
    split; [reflexivity |]. split; [cbn; congruence |].
    split; [apply Forall_cons; assumption | exact Hn''].
Qed.

(** The noise generator never reads outside its table: for draws of
    [std::rand] that are not negative and a frequency between 0 and the
    sample rate, any number of [process] calls after [setSampleRate] and
    [setFrequency] all return a table entry, each of them one of the
    sixteen values [j/8] with [-8 <= j <= 7], and leave the phase in
    [[0, wtSize)]. *)
Theorem noise_stays_in_table
  (rand : nat -> Z) (increment0 sr f : Q) (k : nat) :
  (forall i, 0 <= rand i) -> (0 < sr)%Q -> (0 <= f <= sr)%Q ->
  exists xs n',
    Noise.run k
      (Noise.setFrequency f
         (Noise.setSampleRate sr (Noise.construct rand increment0)))
    = Some (xs, n') /\
    length xs = k /\
    Forall Noise.four_bit xs /\
    (0 <= Noise.phase n' < inject_Z Noise.wtSize)%Q.
Proof.
  intros Hr Hsr Hf.
  destruct (noise_construct_wf rand increment0 Hr) as [Hlen Htab].
  destruct (noise_run_wf k
              (Noise.setFrequency f
                 (Noise.setSampleRate sr (Noise.construct rand increment0))))
    as (xs & n' & E & Hl & Hxs & Hn').
  { unfold Noise.wf.
    cbn [Noise.setFrequency Noise.setSampleRate Noise.waveTable Noise.phase
         Noise.increment Noise.sampleRate].
    split; [exact Hlen |]. split; [exact Htab |].
    split; [cbn [Noise.construct Noise.phase]; split; [lra | reflexivity] |].
    change (inject_Z Noise.wtSize) with 3000%Q. split.
    - apply Qle_shift_div_l; lra.
    - apply Qle_shift_div_r; lra. }
  exists xs, n'. repeat split; try assumption; apply Hn'.
Qed.

Lemma noise_stays_in_table_witness :
  exists xs n',
    Noise.run 4
      (Noise.setFrequency 440
         (Noise.setSampleRate 44100
            (Noise.construct (fun i => Z.of_nat (7 * i + 3)) 0)))
    = Some (xs, n') /\
    length xs = 4%nat /\
    Forall Noise.four_bit xs /\
    (0 <= Noise.phase n' < inject_Z Noise.wtSize)%Q.
Proof.
  apply (noise_stays_in_table (fun i => Z.of_nat (7 * i + 3)) 0 44100 440 4).
  - intros i. lia.
  - reflexivity.
  - split; discriminate.
Defined.

(** ** Pulse width modulation *)

Lemma trunc_scaled (x s : Q) (n : Z) :
  (0 <= x <= 1)%Q -> (0 <= s < inject_Z n)%Q -> 0 <= trunc (x * s) < n.
Proof.
  intros [Hlo Hhi] [Hs Hn].
  assert (H0 : (0 <= x * s)%Q) by (apply Qmult_le_0_compat; assumption).
  assert (H1 : (x * s <= 1 * s)%Q) by (apply Qmult_le_compat_r; assumption).
  rewrite (trunc_floor _ H0). apply floor_in_range. split; lra.
Qed.

Section PulseWidthModulationFacts.

Import PulseWidthModulation.

Context {Smoothed : Type}.
Variable setTargetValue : Q -> Smoothed -> Smoothed.
Variable getNextValue : Smoothed -> Q * Smoothed.

Lemma updateSustainParameters_arpOsc (c : params) (p : t Smoothed) :
  arpOsc (updateSustainParameters c p) = arpOsc p.
Proof.
  unfold updateSustainParameters.
  destruct (Qeq_bool _ _); cbn;
    match goal with |- context [?a =? ?b] => destruct (a =? b) end;
    reflexivity.
Qed.

Lemma updateSustainParameters_mode (c : params) (p : t Smoothed) :
  currentPwMode (updateSustainParameters c p) = trunc (pwmMode c).
Proof.
  unfold updateSustainParameters.
  destruct (Qeq_bool _ _); cbn;
    match goal with |- context [?a =? ?b] => destruct (Z.eqb_spec a b) end;
    cbn; congruence.
Qed.

Lemma select_ready (c : params) (p : t Smoothed) :
  in_layout c -> ready p ->
  ready (select c p) /\ in_mode (trunc (pwmMode c)) (pwIndex (select c p)).
Proof.
  intros [(m & Hm & Em) Hrate] [Hsr Hph]. unfold select.
  set (q := updateSustainParameters c (setRate c p)).
  assert (Eo : arpOsc q = Phasor.setFrequency (pwmRate c * 10) (arpOsc p))
    by (unfold q; rewrite updateSustainParameters_arpOsc; reflexivity).
  assert (Emode : currentPwMode q = m).
  { unfold q. rewrite updateSustainParameters_mode, Em.
    apply trunc_integer. reflexivity. }
  assert (Et : trunc (pwmMode c) = m)
    by (rewrite Em; apply trunc_integer; reflexivity).
  rewrite Et.
  assert (Hd : (0 <= Phasor.phaseDelta (arpOsc q) <= 1)%Q).
  { rewrite Eo. cbn [Phasor.setFrequency Phasor.phaseDelta]. split.
    - apply Qle_shift_div_l; lra.
    - apply Qle_shift_div_r; lra. }
  assert (Hp : (0 <= Phasor.phase (arpOsc q) <= 1)%Q)
    by (rewrite Eo; exact Hph).
  assert (Hs : (10 <= Phasor.sampleRate (arpOsc q))%Q)
    by (rewrite Eo; exact Hsr).
  clearbody q.
  destruct (sustainCounter q <? sustainSamples q).
  - split; [split; assumption |].
    cbn [pwIndex]. rewrite Emode. unfold in_mode.
    assert (m = 0 \/ m = 1 \/ m = 2 \/ m = 3 \/ m = 4 \/ m = 5) as Hc by lia.
    destruct Hc as [-> | [-> | [-> | [-> | [-> | ->]]]]]; lia.
  - unfold calculateIndex, Phasor.process. rewrite Et.
    destruct (updatePhase_range _ Hd Hp) as [Hp' _].
    set (r := Phasor.updatePhase (arpOsc q)) in *.
    assert (Hs' : Phasor.sampleRate r = Phasor.sampleRate (arpOsc q))
      by reflexivity.
    clearbody r. split; [split; cbn [arpOsc]; [rewrite Hs'; exact Hs | exact Hp'] |].
    cbn [pwIndex]. unfold Phasor.output.
    assert (Hq : (0 <= 1 - Phasor.phase r <= 1)%Q) by (split; lra).
    pose proof (trunc_scaled (Phasor.phase r) (199 # 100) 2 Hp'
                  ltac:(split; [discriminate | reflexivity])) as A2.
    pose proof (trunc_scaled (Phasor.phase r) (299 # 100) 3 Hp'
                  ltac:(split; [discriminate | reflexivity])) as A3.
    pose proof (trunc_scaled (1 - Phasor.phase r) (199 # 100) 2 Hq
                  ltac:(split; [discriminate | reflexivity])) as B2.
    pose proof (trunc_scaled (1 - Phasor.phase r) (299 # 100) 3 Hq
                  ltac:(split; [discriminate | reflexivity])) as B3.
    unfold in_mode.
    assert (m = 0 \/ m = 1 \/ m = 2 \/ m = 3 \/ m = 4 \/ m = 5) as Hc by lia.
    destruct Hc as [-> | [-> | [-> | [-> | [-> | ->]]]]];
      try rewrite int32_small by lia; lia.
Qed.

Lemma in_mode_index (m i : Z) : in_mode m i -> 0 <= i <= 2.
Proof.
  unfold in_mode.
  destruct m as [| [[| |] | [[| |] | [| |] |] |] |]; lia.
Qed.

Lemma process_ready (c : params) (p : t Smoothed) :
  in_layout c -> ready p ->
  exists y p',
    process setTargetValue getNextValue c p = Some (y, p') /\
    ready p' /\ in_mode (trunc (pwmMode c)) (pwIndex p') /\
    In (nth (Z.to_nat (pwIndex p')) pulseWidths 0%Q) pulseWidths.
Proof.
  intros Hc Hp. destruct (select_ready c p Hc Hp) as [Hr Hm].
  pose proof (in_mode_index _ _ Hm) as Hi.
  unfold process.
  replace ((0 <=? pwIndex (select c p))
           && (pwIndex (select c p) <? Z.of_nat (length pulseWidths)))
    with true
    by (symmetry; apply andb_true_intro; split;
        [apply Z.leb_le | apply Z.ltb_lt]; cbn; lia).
  destruct (getNextValue _) as [y s].
  eexists. eexists. split; [reflexivity |].
  split; [exact Hr |]. split; [exact Hm |].
  cbn [pwIndex]. apply nth_In. cbn. lia.
Qed.

Lemma run_ready (cs : list params) (p : t Smoothed) :
  Forall in_layout cs -> ready p ->
  exists out p',
    run setTargetValue getNextValue cs p = Some (out, p') /\
    Forall2 (fun c o => in_mode (trunc (pwmMode c)) (fst o)) cs out /\
    ready p'.
Proof.
  intros Hcs. revert p.
  induction Hcs as [| c cs Hc Hcs IH]; intros p Hp; cbn [run].
  - exists [], p. repeat split; try apply Hp. apply Forall2_nil.
  - destruct (process_ready c p Hc Hp) as (y & p' & E & Hp' & Hm & _).
    rewrite E. destruct (IH p' Hp') as (out & p'' & E' & Hout & Hp'').
    rewrite E'. exists ((pwIndex p', y) :: out), p''.
    split; [reflexivity |]. split; [| exact Hp''].
    apply Forall2_cons; [exact Hm | exact Hout].
Qed.

End PulseWidthModulationFacts.

(** The pulse width modulation never indexes outside its table of widths:
    at a sample rate of at least 10 Hz, for any sequence of controls the
    parameter layout allows (one of the six modes, a rate in [[0, 1]], any
    sustain), every [process] call finds [pulseWidths[pwIndex]] inside the
    table, and the index it chose is one the polled mode names, also when
    the modulation oscillator's phase is exactly 1. *)
Theorem pwm_index_in_table
  (Smoothed : Type) (reset : Q -> Q -> Smoothed -> Smoothed)
  (setTargetValue : Q -> Smoothed -> Smoothed)
  (getNextValue : Smoothed -> Q * Smoothed)
  (sr : Q) (cs : list PulseWidthModulation.params)
  (p : PulseWidthModulation.t Smoothed) :
  (10 <= sr)%Q ->
  (0 <= Phasor.phase (PulseWidthModulation.arpOsc p) <= 1)%Q ->
  Forall PulseWidthModulation.in_layout cs ->
  exists out p',
    PulseWidthModulation.run setTargetValue getNextValue cs
      (PulseWidthModulation.setSampleRate reset sr p)
    = Some (out, p') /\
    Forall2
      (fun c o =>
         PulseWidthModulation.in_mode (trunc (PulseWidthModulation.pwmMode c))
           (fst o))
      cs out /\
    (0 <= Phasor.phase (PulseWidthModulation.arpOsc p') <= 1)%Q.
Proof.
  intros Hsr Hp Hcs.
  destruct (run_ready setTargetValue getNextValue cs
              (PulseWidthModulation.setSampleRate reset sr p) Hcs)
    as (out & p' & E & Hout & Hp').
  { split; [exact Hsr | exact Hp]. }
  exists out, p'. split; [exact E |]. split; [exact Hout | apply Hp'].
Qed.

Lemma pwm_index_in_table_witness :
  exists out p',
    PulseWidthModulation.run (fun w _ => w) (fun s => (s, s))
      [PulseWidthModulation.mkParams 0 4 (1 # 2);
       PulseWidthModulation.mkParams (1 # 10) 1 1]
      (PulseWidthModulation.setSampleRate (fun _ _ s => s) 44100
         (PulseWidthModulation.construct 0%Q))
    = Some (out, p') /\
    Forall2
      (fun c o =>
         PulseWidthModulation.in_mode (trunc (PulseWidthModulation.pwmMode c))
           (fst o))
      [PulseWidthModulation.mkParams 0 4 (1 # 2);
       PulseWidthModulation.mkParams (1 # 10) 1 1]
      out /\
    (0 <= Phasor.phase (PulseWidthModulation.arpOsc p') <= 1)%Q.
Proof.
  apply (pwm_index_in_table Q (fun _ _ s => s) (fun w _ => w)
           (fun s => (s, s)) 44100
           [PulseWidthModulation.mkParams 0 4 (1 # 2);
            PulseWidthModulation.mkParams (1 # 10) 1 1]
           (PulseWidthModulation.construct 0%Q)).
  - discriminate.
  - split; discriminate.
  - apply Forall_cons; [| apply Forall_cons; [| apply Forall_nil]].
    + split; [exists 4; split; [lia | reflexivity] | split; discriminate].
    + split; [exists 1; split; [lia | reflexivity] | split; discriminate].
Defined.

(** ** Arpeggiator: the loop and the length of a note *)

Lemma loop_split (s N x : Z) :
  0 < s -> 0 < N ->
  x mod (s * N) = x mod s + s * ((x / s) mod N).
Proof.
  intros Hs HN. apply Z.rem_mul_r; lia.
Qed.

Lemma loop_congr (s N x y : Z) :
  0 < s -> 0 < N -> x mod (s * N) = y mod (s * N) ->
  x mod s = y mod s /\ (x / s) mod N = (y / s) mod N.
Proof.
  intros Hs HN E.
  rewrite (loop_split s N x Hs HN), (loop_split s N y Hs HN) in E.
  pose proof (Z.mod_pos_bound x s Hs) as Hx.
  pose proof (Z.mod_pos_bound y s Hs) as Hy.
  generalize dependent (x mod s). generalize dependent (y mod s).
  generalize ((x / s) mod N). generalize ((y / s) mod N).
  intros v' v u' Hu' u E Hu.
  assert (v = v').
  { destruct (Z.lt_trichotomy v v') as [L | [L | L]]; [| exact L |]; nia. }
  subst v'. split; [lia | reflexivity].
Qed.

Section ArpeggioFacts.

Import Arpeggiator Arpeggio.

Context {Random : Type}.

Lemma incrementPattern_note (n : Z) (a : t Random) :
  incrementPattern (with_currentNote n a)
  = with_currentNote n (incrementPattern a).
Proof.
  unfold incrementPattern.
  change (size (with_currentNote n a)) with (size a).
  cbn [with_currentNote noteIndex noteIncrement numOctaves].
  destruct (size a <=? to_size_t (int32 (noteIndex a + 1)));
    [destruct (0 <? numOctaves a) |]; reflexivity.
Qed.

Lemma advance_place (c : Z) (a : t Random) :
  in_pattern a -> 0 < numOctaves a < 2 ^ 31 ->
  noteIndex a = c mod size a ->
  noteIncrement a = (c / size a) mod numOctaves a ->
  advance a = Some (with_currentNote (note_at c a) (at_place (c + 1) a)).
Proof.
  intros [Hi Hs] HN Ei Ej.
  assert (Hsz : 0 < size a) by lia.
  pose proof (Z.mod_pos_bound (c / size a) (numOctaves a) ltac:(lia)) as Hj.
  unfold advance. rewrite to_size_t_small by lia.
  rewrite (nth_error_nth' (pattern a) 0) by (unfold size in Hi; lia).
  f_equal. rewrite incrementPattern_note.
  unfold note_at, at_place. rewrite <- Ei, <- Ej.
  cbn [with_currentNote rootNote pattern noteIncrement]. f_equal.
  unfold incrementPattern.
  rewrite (int32_small (noteIndex a + 1)) by lia.
  rewrite (to_size_t_small (noteIndex a + 1)) by lia.
  pose proof (Z.div_mod c (size a) ltac:(lia)) as Hc.
  destruct (size a <=? noteIndex a + 1) eqn:E.
  - apply Z.leb_le in E.
    assert (E1 : c + 1 = (c / size a + 1) * size a) by nia.
    assert (Em : (c + 1) mod size a = 0)
      by (rewrite E1; apply Z.mod_mul; lia).
    assert (Ed : (c + 1) / size a = c / size a + 1)
      by (rewrite E1; apply Z.div_mul; lia).
    rewrite Em, Ed.
    replace (0 <? numOctaves a) with true by (symmetry; apply Z.ltb_lt; lia).
    rewrite (int32_small (noteIncrement a + 1)) by lia.
    destruct (numOctaves a <=? noteIncrement a + 1) eqn:E'.
    + apply Z.leb_le in E'.
      assert (En : c / size a + 1
                   = (c / size a / numOctaves a + 1) * numOctaves a).
      { pose proof (Z.div_mod (c / size a) (numOctaves a) ltac:(lia)). nia. }
      rewrite En, Z.mod_mul by lia. reflexivity.
    + apply Z.leb_gt in E'.
      assert (En : (c / size a + 1) mod numOctaves a = noteIncrement a + 1).
      { pose proof (Z.div_mod (c / size a) (numOctaves a) ltac:(lia)).
        symmetry.
        apply Z.mod_unique with (q := c / size a / numOctaves a); lia. }
      rewrite En. reflexivity.
  - apply Z.leb_gt in E.
    assert (Em : (c + 1) mod size a = noteIndex a + 1)
      by (symmetry; apply Z.mod_unique with (q := c / size a); lia).
    assert (Ed : (c + 1) / size a = c / size a)
      by (symmetry; apply Z.div_unique with (r := noteIndex a + 1); lia).
    rewrite Em, Ed, <- Ej. reflexivity.
Qed.

Lemma advances_place (k : nat) (c : Z) (a : t Random) :
  in_pattern a -> 0 < numOctaves a < 2 ^ 31 ->
  noteIndex a = c mod size a ->
  noteIncrement a = (c / size a) mod numOctaves a ->
  advances (S k) a
  = Some (with_currentNote (note_at (c + Z.of_nat k) a)
            (at_place (c + Z.of_nat k + 1) a)).
Proof.
  revert c a. induction k as [| k IH]; intros c a Ha HN Ei Ej.
  - cbn [advances]. rewrite (advance_place c a Ha HN Ei Ej).
    rewrite Z.add_0_r. reflexivity.
  - change (advances (S (S k)) a)
      with (match advance a with
            | Some a' => advances (S k) a'
            | None => None
            end).
    rewrite (advance_place c a Ha HN Ei Ej).
    destruct Ha as [Hi Hs].
    assert (Hsz : 0 < size a) by lia.
    rewrite (IH (c + 1)).
    + f_equal. unfold note_at, at_place, size.
      cbn [with_currentNote with_position pattern rootNote numOctaves
           noteIndex noteIncrement currentNote speed sampleRate
           samplesPerNote sampleCounter currentArpPattern currentArpOctave
           randomEngine].
      replace (c + 1 + Z.of_nat k) with (c + Z.of_nat (S k)) by lia.
      reflexivity.
    + unfold in_pattern, at_place, size.
      cbn [with_currentNote with_position pattern noteIndex].
      fold (size a). split; [apply Z.mod_pos_bound; lia | exact Hs].
    + exact HN.
    + reflexivity.
    + reflexivity.
Qed.

End ArpeggioFacts.

(** In a looping mode (one octave or more) the arpeggio walks the pattern
    once per octave and starts over: from a position within the pattern,
    the advance number [k+1] emits the note at place [c+k] of the loop
    (pattern entry [(c+k) mod size], raised by [((c+k) / size) mod
    numOctaves] octaves, [c] the starting place) and leaves the position at
    place [c+k+1]; so the states repeat with period [size * numOctaves]. *)
Theorem arpeggiator_loop (Random : Type) (a : Arpeggiator.t Random) (k : nat) :
  Arpeggiator.in_pattern a ->
  0 < Arpeggiator.numOctaves a < 2 ^ 31 ->
  0 <= Arpeggiator.noteIncrement a < Arpeggiator.numOctaves a ->
  Arpeggiator.advances (S k) a
  = Some (Arpeggiator.with_currentNote
            (Arpeggio.note_at (Arpeggio.place a + Z.of_nat k) a)
            (Arpeggio.at_place (Arpeggio.place a + Z.of_nat k + 1) a)) /\
  Arpeggiator.advances
    (S k + Z.to_nat (Arpeggiator.size a * Arpeggiator.numOctaves a)) a
  = Arpeggiator.advances (S k) a.
Proof.
  intros Ha HN Hj. pose proof Ha as [Hi Hs].
  assert (Hsz : 0 < Arpeggiator.size a) by lia.
  assert (Ei : Arpeggiator.noteIndex a
               = Arpeggio.place a mod Arpeggiator.size a).
  { unfold Arpeggio.place. rewrite Z.add_comm, Z.mod_add by lia.
    symmetry. apply Z.mod_small. lia. }
  assert (Ej : Arpeggiator.noteIncrement a
               = (Arpeggio.place a / Arpeggiator.size a)
                 mod Arpeggiator.numOctaves a).
  { unfold Arpeggio.place. rewrite Z.add_comm, Z.div_add by lia.
    rewrite Z.div_small by lia. symmetry. apply Z.mod_small. lia. }
  split; [apply advances_place; assumption |].
  change (S k + ?n)%nat with (S (k + n)).
  rewrite (advances_place _ (Arpeggio.place a) a Ha HN Ei Ej).
  rewrite (advances_place k (Arpeggio.place a) a Ha HN Ei Ej).
  set (c := Arpeggio.place a). set (s := Arpeggiator.size a) in *.
  set (N := Arpeggiator.numOctaves a) in *.
  assert (En : Z.of_nat (k + Z.to_nat (s * N)) = Z.of_nat k + s * N) by nia.
  rewrite En.
  destruct (loop_congr s N (c + (Z.of_nat k + s * N)) (c + Z.of_nat k))
    as [A1 A2]; try lia.
  { replace (c + (Z.of_nat k + s * N)) with (c + Z.of_nat k + 1 * (s * N))
      by lia. apply Z.mod_add. nia. }
  destruct (loop_congr s N (c + (Z.of_nat k + s * N) + 1)
              (c + Z.of_nat k + 1)) as [B1 B2]; try lia.
  { replace (c + (Z.of_nat k + s * N) + 1)
      with (c + Z.of_nat k + 1 + 1 * (s * N)) by lia. apply Z.mod_add. nia. }
  unfold Arpeggio.note_at, Arpeggio.at_place. fold s N.
  rewrite A1, A2, B1, B2. reflexivity.
Qed.

Lemma arpeggiator_loop_witness :
  let a := Arpeggiator.mk (Random := unit) [0; 4; 7] 1 0 2 60 60 1 44100
             220 0 5 2 tt in
  Arpeggiator.advances 3 a
  = Some (Arpeggiator.with_currentNote
            (Arpeggio.note_at (Arpeggio.place a + 2) a)
            (Arpeggio.at_place (Arpeggio.place a + 2 + 1) a)) /\
  Arpeggiator.advances
    (3 + Z.to_nat (Arpeggiator.size a * Arpeggiator.numOctaves a)) a
  = Arpeggiator.advances 3 a.
Proof.
  apply (arpeggiator_loop unit
           (Arpeggiator.mk (Random := unit) [0; 4; 7] 1 0 2 60 60 1 44100
              220 0 5 2 tt) 2).
  - split; cbn; lia.
  - cbn; lia.
  - cbn; lia.
Defined.
Section ArpeggioTiming.

Import Arpeggiator Arpeggio.

Context {Random : Type}.
Variable getMidiNoteInHertz : Z -> Q.

Lemma same_notes_in_pattern (a b : t Random) :
  same_notes a b -> in_pattern a -> in_pattern b.
Proof.
  intros (Hp & Hi & _) Ha. unfold in_pattern, size in *.
  rewrite <- Hp, <- Hi. exact Ha.
Qed.

Lemma advance_same (a b : t Random) :
  same_notes a b ->
  match advance a, advance b with
  | Some a', Some b' => same_notes a' b'
  | None, None => True
  | _, _ => False
  end.
Proof.
  intros (Hp & Hi & Hj & HN & Hr & Hc). unfold advance.
  rewrite <- Hp, <- Hi, <- Hr, <- Hj.
  destruct (nth_error (pattern a) (Z.to_nat (to_size_t (noteIndex a))))
    as [offset |]; [| exact I].
  rewrite !incrementPattern_note. unfold incrementPattern, size.
  rewrite <- Hp, <- Hi, <- Hj, <- HN.
  destruct (Z.of_nat (length (pattern a))
            <=? to_size_t (int32 (noteIndex a + 1)));
    [destruct (0 <? numOctaves a) |];
    unfold same_notes; cbn; rewrite <- ?Hp; repeat split; assumption.
Qed.

Lemma advances_same (n : nat) (a b : t Random) :
  same_notes a b ->
  match advances n a, advances n b with
  | Some a', Some b' => same_notes a' b'
  | None, None => True
  | _, _ => False
  end.
Proof.
  revert a b. induction n as [| n IH]; intros a b H; cbn [advances].
  - exact H.
  - pose proof (advance_same a b H) as Hs.
    destruct (advance a) as [a' |], (advance b) as [b' |];
      try contradiction; [apply IH; exact Hs | exact I].
Qed.

Lemma getNextFrequency_holds (apvts : params) (a : t Random) :
  sampleCounter a < samplesPerNote (setSpeed apvts a) < 2 ^ 31 ->
  0 <= sampleCounter a ->
  exists a',
    getNextFrequency getMidiNoteInHertz apvts a
    = Some (getMidiNoteInHertz (currentNote a), a') /\
    same_notes a a' /\ sampleCounter a' = sampleCounter a + 1 /\
    sampleRate _ a' = sampleRate _ a.
Proof.
  intros Hc H0. unfold getNextFrequency.
  set (a1 := setSpeed apvts a) in *.
  change (sampleCounter a1) with (sampleCounter a).
  replace (samplesPerNote a1 <=? sampleCounter a) with false
    by (symmetry; apply Z.leb_gt; lia).
  eexists. split; [reflexivity |].
  cbn [with_sampleCounter sampleCounter sampleRate].
  split; [unfold same_notes; cbn; repeat split |].
  split; [apply int32_small; lia | reflexivity].
Qed.

Lemma getNextFrequency_steps (apvts : params) (a : t Random) :
  in_pattern a ->
  samplesPerNote (setSpeed apvts a) <= sampleCounter a ->
  exists b a',
    advance a = Some b /\
    getNextFrequency getMidiNoteInHertz apvts a
    = Some (getMidiNoteInHertz (currentNote b), a') /\
    same_notes b a' /\ sampleCounter a' = 1 /\
    sampleRate _ a' = sampleRate _ a.
Proof.
  intros Ha Hc. pose proof Ha as [Hi Hs].
  destruct (advance_in_pattern Random a Ha) as (b & Eb & _).
  unfold getNextFrequency.
  set (a1 := setSpeed apvts a) in *.
  change (sampleCounter a1) with (sampleCounter a).
  replace (samplesPerNote a1 <=? sampleCounter a) with true
    by (symmetry; apply Z.leb_le; lia).
  change (noteIndex (with_sampleCounter 0 a1)) with (noteIndex a).
  change (size (with_sampleCounter 0 a1)) with (size a).
  rewrite to_size_t_small by lia.
  replace (noteIndex a <=? size a) with true
    by (symmetry; apply Z.leb_le; lia).
  assert (Hsame : same_notes a (with_sampleCounter 0 a1))
    by (unfold same_notes; cbn; repeat split).
  pose proof (advance_same _ _ Hsame) as Hadv. rewrite Eb in Hadv.
  destruct (advance (with_sampleCounter 0 a1)) as [b1 |] eqn:E1;
    [| contradiction].
  assert (Hcnt : sampleCounter b1 = 0 /\ sampleRate _ b1 = sampleRate _ a).
  { unfold advance in E1.
    destruct (nth_error _ _) as [offset |]; [| discriminate].
    injection E1 as <-. rewrite incrementPattern_note.
    unfold incrementPattern.
    destruct (_ <=? _); [destruct (_ <? _) |]; split; reflexivity. }
  destruct Hcnt as [Hcnt Hsr].
  exists b. eexists. split; [exact Eb |].
  cbn [with_sampleCounter currentNote].
  destruct Hadv as (Hp & Hx & Hj & HN & Hr & Hn).
  rewrite <- Hn. split; [reflexivity |].
  cbn [sampleCounter sampleRate]. rewrite Hcnt.
  split; [unfold same_notes; cbn; repeat split; assumption |].
  split; [reflexivity | exact Hsr].
Qed.

Lemma run_notes (apvts : params) (spn : Z) (n : nat) :
  1 <= spn < 2 ^ 31 - 1 ->
  forall (a r : t Random),
    in_pattern a -> same_notes r a ->
    samplesPerNote (setSpeed apvts a) = spn ->
    0 <= sampleCounter a <= spn ->
    exists fs a',
      run getMidiNoteInHertz (repeat apvts n) a = Some (fs, a') /\
      length fs = n /\
      forall i : nat, (i < n)%nat ->
        exists b,
          advances (Z.to_nat ((sampleCounter a + Z.of_nat i) / spn)) r
          = Some b /\
          nth_error fs i = Some (getMidiNoteInHertz (currentNote b)).
Proof.
  intros Hspn. induction n as [| n IH]; intros a r Ha Hr Es Hc.
  - exists [], a. split; [reflexivity |]. split; [reflexivity |].
    intros i Hi. inversion Hi.
  - cbn [repeat run].
    assert (Hkeep : forall a' : t Random,
               sampleRate _ a' = sampleRate _ a ->
               samplesPerNote (setSpeed apvts a') = spn).
    { intros a' E. rewrite <- Es. unfold setSpeed, updateSamplesPerNote.
      cbn [samplesPerNote sampleRate]. rewrite E. reflexivity. }
    destruct (Z.eq_dec (sampleCounter a) spn) as [Efull | Hlt].
    + destruct (getNextFrequency_steps apvts a Ha ltac:(lia))
        as (b & a1 & Eb & E & Hb & Hc1 & Hsr).
      rewrite E.
      pose proof (advance_same _ _ Hr) as Hrb. rewrite Eb in Hrb.
      destruct (advance r) as [rb |] eqn:Erb; [| contradiction].
      assert (Ha1 : in_pattern a1).
      { apply (same_notes_in_pattern b a1 Hb).
        destruct (advance_in_pattern Random a Ha) as (b' & Eb' & _ & Hb').
        congruence. }
      assert (Hr1 : same_notes rb a1).
      { destruct Hrb as (R1 & R2 & R3 & R4 & R5 & R6).
        destruct Hb as (B1 & B2 & B3 & B4 & B5 & B6).
        unfold same_notes. repeat split; congruence. }
      destruct (IH a1 rb Ha1 Hr1 (Hkeep a1 Hsr) ltac:(lia))
        as (fs & a' & Erun & Hlen & Hfs).
      rewrite Erun. exists (getMidiNoteInHertz (currentNote b) :: fs), a'.
      split; [reflexivity |]. split; [cbn; congruence |].
      intros [| i] Hi.
      * exists rb. rewrite Efull, Z.add_0_r, Z.div_same by lia.
        change (Z.to_nat 1) with 1%nat. cbn [advances nth_error].
        rewrite Erb. split; [reflexivity |].
        destruct Hrb as (_ & _ & _ & _ & _ & R6). rewrite R6. reflexivity.
      * destruct (Hfs i ltac:(lia)) as (bb & Ebb & Hnth).
        exists bb. split; [| exact Hnth].
        rewrite Hc1 in Ebb. rewrite Efull.
        replace (spn + Z.of_nat (S i)) with (1 + Z.of_nat i + 1 * spn) by lia.
        rewrite Z.div_add by lia.
        assert (0 <= (1 + Z.of_nat i) / spn) by (apply Z.div_pos; lia).
        replace (Z.to_nat ((1 + Z.of_nat i) / spn + 1))
          with (S (Z.to_nat ((1 + Z.of_nat i) / spn))) by lia.
        cbn [advances]. rewrite Erb. exact Ebb.
    + destruct (getNextFrequency_holds apvts a ltac:(lia) ltac:(lia))
        as (a1 & E & Ha1 & Hc1 & Hsr).
      rewrite E.
      assert (Hr1 : same_notes r a1).
      { destruct Hr as (R1 & R2 & R3 & R4 & R5 & R6).
        destruct Ha1 as (B1 & B2 & B3 & B4 & B5 & B6).
        unfold same_notes. repeat split; congruence. }
      destruct (IH a1 r (same_notes_in_pattern a a1 Ha1 Ha) Hr1
                  (Hkeep a1 Hsr) ltac:(lia))
        as (fs & a' & Erun & Hlen & Hfs).
      rewrite Erun. exists (getMidiNoteInHertz (currentNote a) :: fs), a'.
      split; [reflexivity |]. split; [cbn; congruence |].
      intros [| i] Hi.
      * exists r. rewrite Z.add_0_r, Z.div_small by lia.
        split; [reflexivity |]. cbn [nth_error].
        destruct Hr as (_ & _ & _ & _ & _ & R6). rewrite R6. reflexivity.
      * destruct (Hfs i ltac:(lia)) as (bb & Ebb & Hnth).
        exists bb. split; [| exact Hnth].
        rewrite Hc1 in Ebb.
        replace (sampleCounter a + Z.of_nat (S i))
          with (sampleCounter a + 1 + Z.of_nat i) by lia.
        exact Ebb.
Qed.

End ArpeggioTiming.

(** Every note of an arpeggio lasts [samplesPerNote] samples: under fixed
    controls that give a note length [spn] of at least one sample, from a
    state that [startArpeggio] left (counter 0, index within the pattern),
    call number [i] of [getNextFrequency], counted from 0, returns the
    frequency of the note current after [i / spn] pattern advances, so the
    root sounds for the first [spn] calls and each later note for [spn]
    calls. *)
Theorem arpeggiator_note_length
  (Random : Type) (getMidiNoteInHertz : Z -> Q)
  (apvts : Arpeggiator.params) (a : Arpeggiator.t Random) (n : nat) :
  Arpeggiator.in_pattern a ->
  Arpeggiator.sampleCounter a = 0 ->
  1 <= Arpeggiator.samplesPerNote (Arpeggiator.setSpeed apvts a)
    < 2 ^ 31 - 1 ->
  exists fs a',
    Arpeggiator.run getMidiNoteInHertz (repeat apvts n) a = Some (fs, a') /\
    length fs = n /\
    forall i : nat, (i < n)%nat ->
      exists b,
        Arpeggiator.advances
          (Z.to_nat
             (Z.of_nat i
              / Arpeggiator.samplesPerNote (Arpeggiator.setSpeed apvts a)))
          a
        = Some b /\
        nth_error fs i = Some (getMidiNoteInHertz (Arpeggiator.currentNote b)).
Proof.
  intros Ha Hc Hspn.
  destruct (run_notes getMidiNoteInHertz apvts _ n Hspn a a Ha)
    as (fs & a' & E & Hlen & Hfs).
  - unfold Arpeggio.same_notes. repeat split.
  - reflexivity.
  - lia.
  - exists fs, a'. split; [exact E |]. split; [exact Hlen |].
    intros i Hi. destruct (Hfs i Hi) as (b & Eb & Hn).
    exists b. rewrite Hc in Eb. split; [exact Eb | exact Hn].
Qed.

Lemma arpeggiator_note_length_witness :
  let apvts := Arpeggiator.mkParams 5 1 (1 # 2) in
  let a := Arpeggiator.startArpeggio (Random := unit)
             (fun _ _ g => (0, g)) apvts 60
             (Arpeggiator.setSampleRate unit apvts 100
                (Arpeggiator.construct (fun _ _ g => (0, g)) apvts tt)) in
  exists fs a',
    Arpeggiator.run (fun n => inject_Z n) (repeat apvts 60) a
    = Some (fs, a') /\
    length fs = 60%nat /\
    forall i : nat, (i < 60)%nat ->
      exists b,
        Arpeggiator.advances
          (Z.to_nat
             (Z.of_nat i
              / Arpeggiator.samplesPerNote (Arpeggiator.setSpeed apvts a)))
          a
        = Some b /\
        nth_error fs i = Some (inject_Z (Arpeggiator.currentNote b)).
Proof.
  apply (arpeggiator_note_length unit (fun n => inject_Z n)
           (Arpeggiator.mkParams 5 1 (1 # 2))
           (Arpeggiator.startArpeggio (Random := unit)
              (fun _ _ g => (0, g)) (Arpeggiator.mkParams 5 1 (1 # 2)) 60
              (Arpeggiator.setSampleRate unit
                 (Arpeggiator.mkParams 5 1 (1 # 2)) 100
                 (Arpeggiator.construct (fun _ _ g => (0, g))
                    (Arpeggiator.mkParams 5 1 (1 # 2)) tt)))
           60).
  - split; cbn; lia.
  - reflexivity.
  - vm_compute. split; [discriminate | reflexivity].
Defined.

(** ** Pitch bend: the ramp, and the bend without offset *)

Lemma calls_succ (F : FloatOps) (k : Z) (p : PitchBend.t) :
  0 <= k ->
  PitchBend.calls (k + 1) p = snd (PitchBend.process (PitchBend.calls k p)).
Proof.
  intros Hk. unfold PitchBend.calls.
  destruct k as [| k | k]; [reflexivity | | lia].
  cbn [Z.add Z.iter]. rewrite Pos.add_1_r, Pos.iter_succ. reflexivity.
Qed.

Lemma exact_lt_false (a b : Q) : Exact.lt a b = false <-> (b <= a)%Q.
Proof.
  unfold Exact.lt. rewrite negb_false_iff. apply Qle_bool_iff.
Qed.

Section PitchBendRamp.

Variables (cur0 tgt : Q) (n : Z).
Hypothesis n_pos : 1 <= n.

Let step : Q := ((tgt - cur0) / inject_Z n)%Q.

Lemma ramp_process (k : Z) (p : PitchBend.t (F := Exact.ops)) :
  0 <= k ->
  (PitchBend.bendDelta p == step)%Q ->
  (PitchBend.inputFreq p == tgt)%Q ->
  (PitchBend.currentFreq p == cur0 + inject_Z (Z.min k n) * step)%Q ->
  (PitchBend.currentFreq (snd (PitchBend.process p))
   == cur0 + inject_Z (Z.min (k + 1) n) * step)%Q.
Proof.
  intros Hk Hd Ht Hc.
  assert (Hn : (1 <= inject_Z n)%Q)
    by (change 1%Q with (inject_Z 1); rewrite <- Zle_Qle; exact n_pos).
  assert (Hend : (tgt == cur0 + inject_Z n * step)%Q)
    by (unfold step; field; lra).
  unfold PitchBend.process.
  cbn [snd PitchBend.currentFreq flt float_of_int Exact.ops fadd].
  change (inject_Z 0) with 0%Q.
  destruct (Z_lt_le_dec k n) as [Hlt | Hge].
  - rewrite Z.min_l in Hc by lia. rewrite Z.min_l by lia.
    assert (Hgap : (PitchBend.inputFreq p - PitchBend.currentFreq p
                    == inject_Z (n - k) * step)%Q).
    { rewrite Hc, Ht, Hend. unfold Z.sub.
      rewrite inject_Z_plus, inject_Z_opp. ring. }
    assert (Hnk : (0 < inject_Z (n - k))%Q)
      by (change 0%Q with (inject_Z 0); rewrite <- Zlt_Qlt; lia).
    destruct (Qlt_le_dec 0 step) as [Hpos | Hnp].
    + assert (0 < inject_Z (n - k) * step)%Q
        by (apply Qmult_lt_0_compat; assumption).
      replace (Exact.lt 0 (PitchBend.bendDelta p)) with true
        by (symmetry; apply exact_lt_spec; lra).
      replace (Exact.lt (PitchBend.currentFreq p) (PitchBend.inputFreq p))
        with true by (symmetry; apply exact_lt_spec; lra).
      cbn [andb orb]. rewrite Hc, Hd, inject_Z_plus.
      change (inject_Z 1) with 1%Q. ring.
    + replace (Exact.lt 0 (PitchBend.bendDelta p)) with false
        by (symmetry; apply exact_lt_false; lra).
      cbn [andb orb].
      destruct (Qlt_le_dec step 0) as [Hneg | Hz].
      * assert (0 < inject_Z (n - k) * - step)%Q
          by (apply Qmult_lt_0_compat; lra).
        assert (inject_Z (n - k) * - step
                == - (inject_Z (n - k) * step))%Q by ring.
        replace (Exact.lt (PitchBend.bendDelta p) 0) with true
          by (symmetry; apply exact_lt_spec; lra).
        replace (Exact.lt (PitchBend.inputFreq p) (PitchBend.currentFreq p))
          with true by (symmetry; apply exact_lt_spec; lra).
        cbn [andb]. rewrite Hc, Hd, inject_Z_plus.
        change (inject_Z 1) with 1%Q. ring.
      * replace (Exact.lt (PitchBend.bendDelta p) 0) with false
          by (symmetry; apply exact_lt_false; lra).
        cbn [andb].
        assert (Hs0 : (step == 0)%Q) by lra.
        rewrite Ht, Hend, Hs0. ring.
  - rewrite Z.min_r in Hc by lia. rewrite Z.min_r by lia.
    assert (Heq : (PitchBend.currentFreq p == PitchBend.inputFreq p)%Q)
      by (rewrite Hc, Ht, Hend; reflexivity).
    replace (Exact.lt (PitchBend.currentFreq p) (PitchBend.inputFreq p))
      with false by (symmetry; apply exact_lt_false; lra).
    replace (Exact.lt (PitchBend.inputFreq p) (PitchBend.currentFreq p))
      with false by (symmetry; apply exact_lt_false; lra).
    rewrite !andb_false_r. cbn [orb]. rewrite Ht, Hend. reflexivity.
Qed.

Lemma ramp_calls (k : Z) (p : PitchBend.t (F := Exact.ops)) :
  0 <= k ->
  (PitchBend.bendDelta p == step)%Q ->
  (PitchBend.inputFreq p == tgt)%Q ->
  (PitchBend.currentFreq p == cur0)%Q ->
  (PitchBend.bendDelta (PitchBend.calls k p) == step)%Q /\
  (PitchBend.inputFreq (PitchBend.calls k p) == tgt)%Q /\
  (PitchBend.currentFreq (PitchBend.calls k p)
   == cur0 + inject_Z (Z.min k n) * step)%Q.
Proof.
  intros Hk Hd Ht Hc. revert k Hk.
  apply natlike_ind.
  - change (PitchBend.calls 0 p) with p. rewrite Z.min_l by lia.
    split; [exact Hd |]. split; [exact Ht |]. rewrite Hc.
    change (inject_Z 0) with 0%Q. ring.
  - intros k Hk (IHd & IHt & IHc).
    change (Z.succ k) with (k + 1). rewrite (calls_succ _ k p Hk).
    split; [exact IHd |]. split; [exact IHt |].
    apply ramp_process; assumption.
Qed.

End PitchBendRamp.

(** Over the rationals the bend is a straight ramp that lands on the
    target: with [bendSamples = n >= 1], after [k] calls of [process]
    following [startPitchBend] the frequency is the start frequency plus
    [min k n] steps of one [n]-th of the distance, so it is the note's own
    frequency from call [n] on. *)
Theorem pitch_bend_exact_ramp
  (getMidiNoteInHertz : Z -> @double Exact.ops)
  (apvts : PitchBend.params (F := Exact.ops)) (note k : Z)
  (p : PitchBend.t (F := Exact.ops)) :
  1 <= PitchBend.bendSamples p -> 0 <= k ->
  let start :=
    getMidiNoteInHertz (int32 (note + trunc (PitchBend.pbInitPitch apvts))) in
  let target := getMidiNoteInHertz note in
  let bent :=
    PitchBend.calls k
      (PitchBend.startPitchBend getMidiNoteInHertz apvts note p) in
  (PitchBend.currentFreq bent
   == start + inject_Z (Z.min k (PitchBend.bendSamples p))
              * ((target - start) / inject_Z (PitchBend.bendSamples p)))%Q /\
  (PitchBend.bendSamples p <= k ->
   (PitchBend.currentFreq bent == target)%Q).
Proof.
  intros Hn Hk start target bent.
  destruct (ramp_calls start target (PitchBend.bendSamples p) Hn k
              (PitchBend.startPitchBend getMidiNoteInHertz apvts note p) Hk)
    as (_ & _ & Hc).
  - reflexivity.
  - reflexivity.
  - reflexivity.
  - fold bent in Hc. split; [exact Hc |].
    intros Hge. rewrite Hc, Z.min_r by lia.
    assert (Hq : (1 <= inject_Z (PitchBend.bendSamples p))%Q)
      by (change 1%Q with (inject_Z 1); rewrite <- Zle_Qle; exact Hn).
    generalize dependent (inject_Z (PitchBend.bendSamples p)).
    generalize start target. cbv [float double Exact.ops].
    intros a b q _ Hq. field. lra.
Qed.

Lemma pitch_bend_exact_ramp_witness :
  let hz : Z -> @double Exact.ops := fun n => inject_Z (10 * n) in
  let apvts := PitchBend.mkParams (F := Exact.ops) (- (12))%Q (1 # 10)%Q in
  let p := PitchBend.setSampleRate (F := Exact.ops) apvts 100%Q
             PitchBend.init in
  let bent := PitchBend.calls 4
      (PitchBend.startPitchBend (F := Exact.ops) hz apvts 69 p) in
  (PitchBend.currentFreq bent
   == hz (int32 (69 + trunc (PitchBend.pbInitPitch apvts)))
      + inject_Z (Z.min 4 (PitchBend.bendSamples p))
        * ((hz 69%Z - hz (int32 (69 + trunc (PitchBend.pbInitPitch apvts))))
           / inject_Z (PitchBend.bendSamples p)))%Q /\
  (PitchBend.bendSamples p <= 4 ->
   (PitchBend.currentFreq bent == hz 69%Z)%Q).
Proof.
  apply (pitch_bend_exact_ramp (fun n => inject_Z (10 * n))
           (PitchBend.mkParams (F := Exact.ops) (- (12))%Q (1 # 10)%Q)
           69 4
           (PitchBend.setSampleRate (F := Exact.ops)
              (PitchBend.mkParams (F := Exact.ops) (- (12))%Q (1 # 10)%Q)
              100%Q PitchBend.init)).
  - vm_compute. discriminate.
  - lia.
Defined.

Lemma at_target_process (p : PitchBend.t (F := IEEE.ops)) :
  PitchBend.currentFreq p = PitchBend.inputFreq p ->
  PitchBend.process p = (PitchBend.inputFreq p, p).
Proof.
  intros E. unfold PitchBend.process. rewrite E.
  cbn [flt IEEE.ops]. rewrite SFltb_irrefl, !andb_false_r. cbn [orb].
  destruct p; cbn in *. subst. reflexivity.
Qed.

(** With no initial offset the pitch bend is transparent in binary32 as
    well: when the initial-pitch control truncates to 0, [startPitchBend]
    puts [currentFreq] on the target, and every later [process] returns the
    frequency of the note itself and changes nothing, whatever the step is
    (also the quotient 0/0 of a bend of no samples). *)
Theorem pitch_bend_without_offset
  (getMidiNoteInHertz : Z -> @double IEEE.ops)
  (apvts : PitchBend.params (F := IEEE.ops)) (note k : Z)
  (p : PitchBend.t (F := IEEE.ops)) :
  IEEE.int_of (PitchBend.pbInitPitch apvts) = 0 ->
  - 2 ^ 31 <= note < 2 ^ 31 ->
  let started := PitchBend.startPitchBend getMidiNoteInHertz apvts note p in
  PitchBend.calls k started = started /\
  PitchBend.process (PitchBend.calls k started)
  = (IEEE.narrow (getMidiNoteInHertz note), started).
Proof.
  intros Hinit Hnote started.
  assert (E : PitchBend.currentFreq started = PitchBend.inputFreq started).
  { unfold started, PitchBend.startPitchBend.
    cbn [PitchBend.currentFreq PitchBend.inputFreq int_of_float IEEE.ops].
    rewrite Hinit, Z.add_0_r, int32_small by exact Hnote. reflexivity. }
  assert (Hcalls : PitchBend.calls k started = started).
  { unfold PitchBend.calls, Z.iter. destruct k as [| k | k]; try reflexivity.
    apply Pos.iter_invariant with (Inv := fun q => q = started);
      [| reflexivity].
    intros q ->. rewrite (at_target_process started E). reflexivity. }
  split; [exact Hcalls |].
  rewrite Hcalls, (at_target_process started E). reflexivity.
Qed.

Lemma pitch_bend_without_offset_witness :
  let hz : Z -> @double IEEE.ops := fun n => IEEE.double_of (55 * n) (-3) in
  let apvts :=
    PitchBend.mkParams (F := IEEE.ops) (IEEE.float_of 0 0)
      (IEEE.float_of 1 (-7)) in
  let started :=
    PitchBend.startPitchBend (F := IEEE.ops) hz apvts 64
      (PitchBend.setSampleRate apvts (IEEE.double_of 100 0) PitchBend.init) in
  PitchBend.calls 5 started = started /\
  PitchBend.process (PitchBend.calls 5 started)
  = (IEEE.narrow (hz 64), started).
Proof.
  apply (pitch_bend_without_offset
           (fun n => IEEE.double_of (55 * n) (-3))
           (PitchBend.mkParams (F := IEEE.ops) (IEEE.float_of 0 0)
              (IEEE.float_of 1 (-7)))
           64 5
           (PitchBend.setSampleRate
              (PitchBend.mkParams (F := IEEE.ops) (IEEE.float_of 0 0)
                 (IEEE.float_of 1 (-7)))
              (IEEE.double_of 100 0) PitchBend.init)).
  - reflexivity.
  - lia.
Defined.

(** ** Sustain and depth of the modulations *)

Section PulseWidthModulationSustain.

Import PulseWidthModulation.

Context {Smoothed : Type}.
Variable setTargetValue : Q -> Smoothed -> Smoothed.
Variable getNextValue : Smoothed -> Q * Smoothed.
Variable c : params.
Variable m : Z.
Variable sr : Q.
Hypothesis mode : pwmMode c = inject_Z m.
Hypothesis m_range : 0 <= m <= 5.
Hypothesis fractional :
  forall z : Z, ~ (binary32 (pwmSustain c * sr) == inject_Z z)%Q.
Hypothesis one : 1 <= trunc (binary32 (pwmSustain c * sr)) < 2 ^ 24.

Lemma select_sustained (p : t Smoothed) :
  sampleRate p = sr -> - 2 ^ 24 < sustainSamples p < 2 ^ 24 ->
  pwIndex (select c p) = m / 2 /\
  sampleRate (select c p) = sr /\
  - 2 ^ 24 < sustainSamples (select c p) < 2 ^ 24 /\
  Phasor.phase (arpOsc (select c p)) = Phasor.phase (arpOsc p).
Proof.
  intros Hsr Hss. destruct p as [osc sr0 cm pi ss sc sm].
  cbn [sampleRate] in Hsr. cbn [sustainSamples] in Hss. subst sr0.
  unfold select, updateSustainParameters, setRate, resetSustainCounter.
  cbn [arpOsc sampleRate currentPwMode pwIndex sustainSamples
       sustainCounter smoothPulseWidth].
  destruct (Qeq_bool (binary32 (pwmSustain c * sr))
                     (binary32 (inject_Z ss))) eqn:E.
  { apply Qeq_bool_eq in E. rewrite (binary32_int ss Hss) in E.
    destruct (fractional _ E). }
  rewrite mode, (trunc_integer (inject_Z m) m) by reflexivity.
  cbn [arpOsc sampleRate currentPwMode pwIndex sustainSamples
       sustainCounter smoothPulseWidth].
  assert (Hlt : (0 <? trunc (binary32 (pwmSustain c * sr))) = true)
    by (apply Z.ltb_lt; lia).
  assert (Hc : m = 0 \/ m = 1 \/ m = 2 \/ m = 3 \/ m = 4 \/ m = 5) by lia.
  destruct (Z.eqb_spec m cm) as [Em | Em];
    cbn [arpOsc sampleRate currentPwMode pwIndex sustainSamples
         sustainCounter smoothPulseWidth];
    rewrite Hlt;
    cbn [pwIndex sampleRate sustainSamples arpOsc Phasor.setFrequency
         Phasor.phase];
    (split; [| split; [reflexivity | split; [lia | reflexivity]]]);
    try subst cm;
    destruct Hc as [-> | [-> | [-> | [-> | [-> | ->]]]]]; reflexivity.
Qed.

Lemma run_sustained (n : nat) (p : t Smoothed) :
  sampleRate p = sr -> - 2 ^ 24 < sustainSamples p < 2 ^ 24 ->
  exists out p',
    run setTargetValue getNextValue (repeat c n) p = Some (out, p') /\
    map fst out = repeat (m / 2) n /\
    Phasor.phase (arpOsc p') = Phasor.phase (arpOsc p).
Proof.
  revert p. induction n as [| n IH]; intros p Hsr Hss; cbn [repeat run].
  - exists [], p. repeat split.
  - destruct (select_sustained p Hsr Hss) as (Hi & Hs & Hss' & Hph).
    assert (Hm : 0 <= m / 2 < 3)
      by (split; [apply Z.div_pos; lia | apply Z.div_lt_upper_bound; lia]).
    unfold process. rewrite Hi.
    replace ((0 <=? m / 2) && (m / 2 <? Z.of_nat (length pulseWidths)))
      with true
      by (symmetry; apply andb_true_intro; split;
          [apply Z.leb_le | apply Z.ltb_lt]; cbn; lia).
    destruct (getNextValue _) as [y s].
    match goal with
    | |- context [run _ _ _ ?q] =>
        destruct (IH q Hs Hss') as (out & p' & E & Hout & Hp')
    end.
    rewrite E. eexists. eexists. split; [reflexivity |].
    cbn [map fst pwIndex]. rewrite Hout.
    split; [reflexivity |]. rewrite Hp'. cbn [arpOsc]. exact Hph.
Qed.

End PulseWidthModulationSustain.

(** When the binary32 product of the sustain control and the sample rate,
    as the code computes it, is not a whole number and reaches 1, the pulse
    width modulation never starts: [updateSustainParameters] compares the
    product with the truncated [sustainSamples], so every call resets the
    sustain counter, every [process] picks the fixed width of the mode
    (index [mode / 2]) and the modulation oscillator is never ticked.
    (When the product rounds to a whole number the comparison succeeds and
    the sustain ends as intended.) *)
Theorem pwm_stuck_in_sustain
  (Smoothed : Type) (setTargetValue : Q -> Smoothed -> Smoothed)
  (getNextValue : Smoothed -> Q * Smoothed)
  (c : PulseWidthModulation.params) (m : Z) (n : nat)
  (p : PulseWidthModulation.t Smoothed) :
  PulseWidthModulation.pwmMode c = inject_Z m -> 0 <= m <= 5 ->
  (forall z : Z,
     ~ (binary32 (PulseWidthModulation.pwmSustain c
                  * PulseWidthModulation.sampleRate p)
        == inject_Z z)%Q) ->
  1 <= trunc (binary32 (PulseWidthModulation.pwmSustain c
                        * PulseWidthModulation.sampleRate p)) < 2 ^ 24 ->
  - 2 ^ 24 < PulseWidthModulation.sustainSamples p < 2 ^ 24 ->
  exists out p',
    PulseWidthModulation.run setTargetValue getNextValue (repeat c n) p
    = Some (out, p') /\
    map fst out = repeat (m / 2) n /\
    Phasor.phase (PulseWidthModulation.arpOsc p')
    = Phasor.phase (PulseWidthModulation.arpOsc p).
Proof.
  intros Hmode Hm Hfrac Hone Hss.
  apply (run_sustained setTargetValue getNextValue c m
           (PulseWidthModulation.sampleRate p) Hmode Hm Hfrac Hone n p).
  - reflexivity.
  - exact Hss.
Qed.

Lemma pwm_stuck_in_sustain_witness :
  let c := PulseWidthModulation.mkParams (binary32 (3 # 10)) 3 1 in
  let p :=
    PulseWidthModulation.setSampleRate (fun _ _ s => s) 44100
      (PulseWidthModulation.construct 0%Q) in
  exists out p',
    PulseWidthModulation.run (fun w _ => w) (fun s => (s, s))
      (repeat c 4) p
    = Some (out, p') /\
    map fst out = repeat (3 / 2) 4 /\
    Phasor.phase (PulseWidthModulation.arpOsc p')
    = Phasor.phase (PulseWidthModulation.arpOsc p).
Proof.
  apply (pwm_stuck_in_sustain Q (fun w _ => w) (fun s => (s, s))
           (PulseWidthModulation.mkParams (binary32 (3 # 10)) 3 1) 3 4
           (PulseWidthModulation.setSampleRate (fun _ _ s => s) 44100
              (PulseWidthModulation.construct 0%Q))).
  - reflexivity.
  - lia.
  - intros z.
    replace (binary32
               (PulseWidthModulation.pwmSustain
                  (PulseWidthModulation.mkParams (binary32 (3 # 10)) 3 1)
                * PulseWidthModulation.sampleRate
                    (PulseWidthModulation.setSampleRate (fun _ _ s => s)
                       44100 (PulseWidthModulation.construct 0%Q))))
      with (13547521 # 1024)%Q by (vm_compute; reflexivity).
    unfold Qeq. cbn. lia.
  - vm_compute. split; [discriminate | reflexivity].
  - cbn. lia.
Defined.

Lemma vibrato_process_depth
  (sinOsc : Q -> Q) (apvts : Vibrato.params) (v : Vibrato.t) :
  (forall p : Q, Qabs (sinOsc p) <= 1)%Q ->
  (0 <= Vibrato.vibAmount apvts)%Q ->
  (Qabs (fst (Vibrato.process sinOsc apvts v))
   <= Vibrato.vibAmount apvts / 20000)%Q.
Proof.
  intros Hsin Ha.
  assert (Hd : (0 <= Vibrato.vibAmount apvts / 20000)%Q)
    by (apply Qle_shift_div_l; lra).
  unfold Vibrato.process.
  destruct (_ <? _).
  - cbn [fst]. exact Hd.
  - unfold Phasor.process. cbn [fst].
    rewrite Qabs_Qmult, (Qabs_pos _ Hd).
    match goal with |- (Qabs (sinOsc ?p) * _ <= _)%Q => specialize (Hsin p) end.
    apply Qle_trans with (1 * (Vibrato.vibAmount apvts / 20000))%Q; [| lra].
    apply Qmult_le_compat_r; assumption.
Qed.

(** In exact arithmetic the vibrato is shallow: for a waveform within
    [[-1, 1]] and an amount control that is not negative, every value
    [process] returns, in the sustain period or after it, is at most
    [amount / 20000] in absolute value.  (The code divides and multiplies
    in binary32, so its values can exceed the exact quotient by a
    rounding.) *)
Theorem vibrato_depth_bounded
  (sinOsc : Q -> Q) (apvts : Vibrato.params) (n : nat) (v : Vibrato.t) :
  (forall p : Q, Qabs (sinOsc p) <= 1)%Q ->
  (0 <= Vibrato.vibAmount apvts)%Q ->
  Forall (fun y => (Qabs y <= Vibrato.vibAmount apvts / 20000)%Q)
    (fst (Vibrato.run sinOsc apvts n v)).
Proof.
  intros Hsin Ha. revert v.
  induction n as [| n IH]; intros v; cbn [Vibrato.run].
  - apply Forall_nil.
  - pose proof (vibrato_process_depth sinOsc apvts v Hsin Ha) as Hy.
    destruct (Vibrato.process sinOsc apvts v) as [y v'].
    specialize (IH v').
    destruct (Vibrato.run sinOsc apvts n v') as [ys v''].
    cbn [fst] in *. apply Forall_cons; assumption.
Qed.

Lemma vibrato_depth_bounded_witness :
  Forall (fun y => (Qabs y <= (1 # 2) / 20000)%Q)
    (fst (Vibrato.run (fun p => if Qle_bool (Qabs p) 1 then p else 1%Q)
            (Vibrato.mkParams 0 (1 # 10) (1 # 2)) 3
            (Vibrato.resetSustainCounter
               (Vibrato.setSampleRate 44100 Vibrato.init)))).
Proof.
  apply (vibrato_depth_bounded (fun p => if Qle_bool (Qabs p) 1 then p else 1%Q)
           (Vibrato.mkParams 0 (1 # 10) (1 # 2)) 3
           (Vibrato.resetSustainCounter
              (Vibrato.setSampleRate 44100 Vibrato.init))).
  - intros p. destruct (Qle_bool (Qabs p) 1) eqn:E;
      [apply Qle_bool_iff; exact E | discriminate].
  - discriminate.
Defined.

(** ** The triangle voice *)

Lemma four_bit_half (v : Q) :
  Voice.four_bit v -> (- (1 # 2) <= v <= 1 # 2)%Q.
Proof.
  intros (k & Hk & E). rewrite E.
  assert (- (15) <= inject_Z k <= 15)%Q.
  { change 15%Q with (inject_Z 15). rewrite <- inject_Z_opp, <- !Zle_Qle.
    exact Hk. }
  split; [apply Qle_shift_div_l | apply Qle_shift_div_r]; lra.
Qed.

Lemma crush_four_bit (b : Bitcrusher.t) (x : Q) :
  (- (1 # 2) <= x <= 1 # 2)%Q ->
  Voice.four_bit (Bitcrusher.lastProcessedSample b) ->
  0 <= Bitcrusher.currentSampleCount b < 2 ^ 31 - 1 ->
  let r :=
    Bitcrusher.process x
      (Bitcrusher.setBitDepth 4 (Bitcrusher.setSampleRateReduction 2 b)) in
  Voice.four_bit (fst r) /\
  Voice.four_bit (Bitcrusher.lastProcessedSample (snd r)) /\
  0 <= Bitcrusher.currentSampleCount (snd r) < 2 ^ 31 - 1.
Proof.
  intros Hx Hb Hc r. subst r. unfold Bitcrusher.process.
  cbn [Bitcrusher.setBitDepth Bitcrusher.setSampleRateReduction
       Bitcrusher.sampleRateReduction Bitcrusher.currentSampleCount
       Bitcrusher.bitDepthScale Bitcrusher.lastProcessedSample
       Bitcrusher.bitDepth].
  rewrite int32_small by lia.
  change (Z.max 1 2) with 2. change (clamp 4 1 24) with 4.
  destruct (2 <=? Bitcrusher.currentSampleCount b + 1) eqn:E;
    cbn [fst snd Bitcrusher.lastProcessedSample
         Bitcrusher.currentSampleCount].
  - assert (Hq : Voice.four_bit
                   (inject_Z (round (2 * x * (inject_Z (2 ^ 4) - 1)))
                    / (inject_Z (2 ^ 4) - 1) / 2)).
    { exists (round (2 * x * (inject_Z (2 ^ 4) - 1))). split.
      - change (-15) with (- (15)). apply round_bounded.
        change (inject_Z (2 ^ 4) - 1)%Q with (16 - 1)%Q.
        change (inject_Z 15) with 15%Q. split; lra.
      - change (inject_Z (2 ^ 4) - 1)%Q with (16 - 1)%Q. field. }
    split; [exact Hq |]. split; [exact Hq | lia].
  - apply Z.leb_gt in E. split; [exact Hb |]. split; [exact Hb | lia].
Qed.

Lemma triangle_steady (sr : Q) (switch : bool) (freq : Q)
      (tri : Phasor.t) (b : Bitcrusher.t) :
  (0 < sr)%Q -> (0 <= freq <= sr)%Q -> Voice.steady sr tri b ->
  let r := Voice.triangle switch freq tri b in
  (Qabs (fst r) <= 3 # 5)%Q /\
  (switch = true -> exists v, Voice.four_bit v /\ fst r = (v * (12 # 10))%Q) /\
  Voice.steady sr (fst (snd r)) (snd (snd r)).
Proof.
  intros Hsr Hf (Es & Hp & Hb & Hc) r. subst r. unfold Voice.triangle.
  set (tri1 := Phasor.setFrequency freq tri).
  assert (Hd : (0 <= Phasor.phaseDelta tri1 <= 1)%Q).
  { unfold tri1. cbn [Phasor.setFrequency Phasor.phaseDelta]. rewrite Es.
    split; [apply Qle_shift_div_l | apply Qle_shift_div_r]; lra. }
  assert (Hp1 : (0 <= Phasor.phase tri1 <= 1)%Q) by exact Hp.
  destruct (updatePhase_range tri1 Hd Hp1) as [Hp2 _].
  pose proof (tri_output_range _ Hp2) as Hraw.
  assert (Es2 : Phasor.sampleRate (Phasor.updatePhase tri1) = sr)
    by exact Es.
  unfold Phasor.process.
  destruct switch.
  - destruct (crush_four_bit b _ Hraw Hb Hc) as (Hy & Hl & Hn).
    destruct (Bitcrusher.process _ _) as [y b'].
    cbn [fst snd] in *.
    pose proof (four_bit_half _ Hy) as Hh.
    split; [apply Qabs_Qle_condition; split; lra |].
    split; [intros _; exists y; split; [exact Hy | reflexivity] |].
    repeat split; assumption || apply Hp2 || apply Hn.
  - cbn [fst snd].
    split; [apply Qabs_Qle_condition; split; lra |].
    split; [discriminate |].
    repeat split; assumption || apply Hp2 || apply Hc.
Qed.

(** In exact arithmetic the triangle voice stays within 0.6 of full scale
    and its distortion is a 4-bit sample-and-hold: for frequencies between
    0 and the sample rate, whatever the switch does from sample to sample,
    every sample of the triangle case of [renderNextBlock] is at most 3/5
    in absolute value, and every sample rendered with the distortion on is
    1.2 times one of the 31 values [k/30], [-15 <= k <= 15].  (The code
    multiplies by the [double] 1.2 and narrows the product to [float]: at
    the peak it stores [0.6f], a rounding above 3/5.) *)
Theorem triangle_voice_levels
  (sr : Q) (controls : list (bool * Q))
  (triWave : Phasor.t) (bitcrusher : Bitcrusher.t) :
  (0 < sr)%Q ->
  Forall (fun c => (0 <= snd c <= sr)%Q) controls ->
  Voice.steady sr triWave bitcrusher ->
  Forall2
    (fun c y =>
       (Qabs y <= 3 # 5)%Q /\
       (fst c = true ->
        exists v, Voice.four_bit v /\ y = (v * (12 # 10))%Q))
    controls (fst (Voice.render controls triWave bitcrusher)) /\
  Voice.steady sr
    (fst (snd (Voice.render controls triWave bitcrusher)))
    (snd (snd (Voice.render controls triWave bitcrusher))).
Proof.
  intros Hsr Hcs. revert triWave bitcrusher.
  induction Hcs as [| [switch freq] cs Hc Hcs IH]; intros tri b Hst;
    cbn [Voice.render].
  - split; [apply Forall2_nil | exact Hst].
  - pose proof (triangle_steady sr switch freq tri b Hsr Hc Hst)
      as (Hy & Hv & Hst').
    destruct (Voice.triangle switch freq tri b) as [y [tri' b']].
    cbn [fst snd] in *.
    destruct (IH tri' b' Hst') as [Hys Hfin].
    destruct (Voice.render cs tri' b') as [ys final].
    cbn [fst snd] in *.
    split; [| exact Hfin].
    apply Forall2_cons; [split; assumption | exact Hys].
Qed.

Lemma triangle_voice_levels_witness :
  let controls := [(true, 440%Q); (true, 440%Q); (false, 880%Q)] in
  let triWave := Phasor.setSampleRate 44100 Phasor.init in
  Forall2
    (fun c y =>
       (Qabs y <= 3 # 5)%Q /\
       (fst c = true ->
        exists v, Voice.four_bit v /\ y = (v * (12 # 10))%Q))
    controls (fst (Voice.render controls triWave Bitcrusher.init)) /\
  Voice.steady 44100
    (fst (snd (Voice.render controls triWave Bitcrusher.init)))
    (snd (snd (Voice.render controls triWave Bitcrusher.init))).
Proof.
  apply (triangle_voice_levels 44100
           [(true, 440%Q); (true, 440%Q); (false, 880%Q)]
           (Phasor.setSampleRate 44100 Phasor.init) Bitcrusher.init).
  - reflexivity.
  - repeat apply Forall_cons; try apply Forall_nil; split; discriminate.
  - split; [reflexivity |]. split; [split; discriminate |].
    split; [exists 0; split; [lia | reflexivity] | cbn; lia].
Defined.

(** ** The delay as an echo *)

Lemma read_write_same (l : list Q) (i : Z) (v : Q) :
  0 <= i < Z.of_nat (length l) -> Delay.read (Delay.write l i v) i = v.
Proof.
  intros Hi. unfold Delay.read, Delay.write.
  replace (i <? 0) with false by (symmetry; apply Z.ltb_ge; lia).
  assert (Hn : (Z.to_nat i < length l)%nat) by lia.
  generalize dependent (Z.to_nat i). clear Hi i. intros i.
  revert i. induction l as [| x l IH]; intros i Hn; cbn in *; [lia |].
  destruct i; cbn; [reflexivity | apply IH; lia].
Qed.

Lemma read_write_other (l : list Q) (i j : Z) (v : Q) :
  0 <= i -> 0 <= j -> i <> j ->
  Delay.read (Delay.write l i v) j = Delay.read l j.
Proof.
  intros Hi Hj Hne. unfold Delay.read, Delay.write.
  replace (i <? 0) with false by (symmetry; apply Z.ltb_ge; lia).
  replace (j <? 0) with false by (symmetry; apply Z.ltb_ge; lia).
  assert (Hn : Z.to_nat i <> Z.to_nat j) by lia.
  generalize dependent (Z.to_nat j). generalize dependent (Z.to_nat i).
  clear. intros i j Hn. revert i j Hn.
  induction l as [| x l IH]; intros i j Hn; [reflexivity |].
  destruct i, j; cbn; try reflexivity; [congruence | apply IH; congruence].
Qed.

Lemma read_zeros (n : nat) (i : Z) : Delay.read (repeat 0%Q n) i = 0%Q.
Proof.
  unfold Delay.read. destruct (i <? 0); [reflexivity |].
  generalize (Z.to_nat i). induction n as [| n IH]; intros k; cbn.
  - destruct k; reflexivity.
  - destruct k; [reflexivity | apply IH].
Qed.

Lemma mod_wrap (a n : Z) :
  0 < n -> - n <= a < n -> a mod n = if a <? 0 then a + n else a.
Proof.
  intros Hn Ha. destruct (a <? 0) eqn:E.
  - apply Z.ltb_lt in E. symmetry.
    apply Z.mod_unique with (q := -1); lia.
  - apply Z.ltb_ge in E. apply Z.mod_small. lia.
Qed.

Lemma advance_whole (pos : Q) (w n : Z) :
  0 < n -> 0 <= w < n -> (pos == inject_Z w)%Q ->
  (Delay.advance pos n == inject_Z ((w + 1) mod n))%Q /\
  (w + 1) mod n = (if w + 1 <? n then w + 1 else w + 1 - n).
Proof.
  intros Hn Hw E.
  assert (Em : (w + 1) mod n = (if w + 1 <? n then w + 1 else w + 1 - n)).
  { destruct (w + 1 <? n) eqn:L.
    - apply Z.ltb_lt in L. apply Z.mod_small. lia.
    - apply Z.ltb_ge in L. symmetry.
      apply Z.mod_unique with (q := 1); lia. }
  split; [| exact Em]. rewrite Em. unfold Delay.advance.
  assert (E1 : (pos + 1 == inject_Z (w + 1))%Q)
    by (rewrite E, inject_Z_plus; reflexivity).
  destruct (Qlt_le_dec (pos + 1) (inject_Z n)) as [L | L];
    rewrite E1 in L.
  - rewrite <- Zlt_Qlt in L.
    replace (w + 1 <? n) with true by (symmetry; apply Z.ltb_lt; lia).
    exact E1.
  - rewrite <- Zle_Qle in L.
    replace (w + 1 <? n) with false by (symmetry; apply Z.ltb_ge; lia).
    rewrite E1. unfold Z.sub. rewrite (inject_Z_plus (w + 1)), inject_Z_opp.
    reflexivity.
Qed.

Lemma process_stores (D : Z) (hist : list Q) (x : Q) (d : Delay.t) :
  1 <= D <= Delay.size d -> (0 < Delay.delayTime d)%Q ->
  Echo.stores D hist d ->
  let wet := nth (Z.to_nat (D - 1)) hist 0%Q in
  (fst (Delay.process x d)
   == x * (1 - Delay.dryWetMix d) + wet * Delay.dryWetMix d)%Q /\
  Echo.stores D ((x + wet * Delay.feedback d)%Q :: hist)
    (snd (Delay.process x d)) /\
  Delay.size (snd (Delay.process x d)) = Delay.size d /\
  Delay.delayTime (snd (Delay.process x d)) = Delay.delayTime d /\
  Delay.feedback (snd (Delay.process x d)) = Delay.feedback d /\
  Delay.dryWetMix (snd (Delay.process x d)) = Delay.dryWetMix d.
Proof.
  intros HD Ht (Hlen & w & Hw & Ew & Er & Hbuf) wet.
  set (n := Delay.size d) in *.
  assert (Hn : 0 < n) by lia.
  unfold Delay.process.
  destruct (Qlt_le_dec 0 (Delay.delayTime d)) as [_ | Hle]; [| lra].
  cbn [fst snd Delay.size Delay.delayTime Delay.feedback Delay.dryWetMix].
  assert (Hr : 0 <= (w - D) mod n < n) by (apply Z.mod_pos_bound; lia).
  assert (Ef : Qfloor (Delay.readPos d) = (w - D) mod n)
    by (rewrite (Qfloor_comp _ _ Er); apply Qfloor_Z).
  assert (Eout : (Delay.linearInterpolation d == wet)%Q).
  { unfold Delay.linearInterpolation. rewrite Ef.
    assert (E0 : (Delay.readPos d - inject_Z ((w - D) mod n) == 0)%Q)
      by (rewrite Er; ring).
    rewrite E0.
    specialize (Hbuf (D - 1) ltac:(lia)).
    replace (w - 1 - (D - 1)) with (w - D) in Hbuf by lia.
    fold n in Hbuf. unfold wet. rewrite <- Hbuf. ring. }
  split; [rewrite Eout; reflexivity |].
  split; [| repeat split].
  unfold Echo.stores.
  cbn [Delay.buffer Delay.size Delay.writePos Delay.readPos]. fold n.
  rewrite write_length. split; [exact Hlen |].
  destruct (advance_whole (Delay.writePos d) w n Hn Hw Ew) as [Ew' Ewm].
  exists ((w + 1) mod n).
  split; [apply Z.mod_pos_bound; lia |]. split; [exact Ew' |]. split.
  - destruct (advance_whole (Delay.readPos d) ((w - D) mod n) n Hn Hr Er)
      as [Er' _].
    rewrite Er'.
    rewrite Z.add_mod_idemp_l by lia.
    rewrite (Zminus_mod_idemp_l (w + 1) D n).
    replace (w - D + 1) with (w + 1 - D) by lia. reflexivity.
  - intros j Hj. rewrite (trunc_integer _ w Ew).
    assert (Ei : ((w + 1) mod n - 1 - j) mod n = (w - j) mod n).
    { rewrite <- (Zminus_mod_idemp_l ((w + 1) mod n - 1) j n).
      rewrite (Zminus_mod_idemp_l (w + 1) 1 n).
      rewrite (Zminus_mod_idemp_l (w + 1 - 1) j n).
      f_equal. lia. }
    rewrite Ei.
    destruct (Z.eq_dec j 0) as [-> | Hj0].
    + rewrite Z.sub_0_r, Z.mod_small by lia.
      rewrite read_write_same by lia. cbn [Z.to_nat nth].
      rewrite Eout. reflexivity.
    + assert (Hm : 0 <= (w - j) mod n < n) by (apply Z.mod_pos_bound; lia).
      assert (Hne : w <> (w - j) mod n).
      { rewrite mod_wrap by lia. destruct (w - j <? 0); lia. }
      rewrite read_write_other by lia.
      specialize (Hbuf (j - 1) ltac:(lia)).
      replace (w - 1 - (j - 1)) with (w - j) in Hbuf by lia.
      rewrite Hbuf.
      replace (Z.to_nat j) with (S (Z.to_nat (j - 1))) by lia.
      reflexivity.
Qed.

Lemma run_stores (D : Z) (xs : list Q) :
  forall (hist : list Q) (d : Delay.t),
    1 <= D <= Delay.size d -> (0 < Delay.delayTime d)%Q ->
    Echo.stores D hist d ->
    Forall2 Qeq (fst (DelayLine.run xs d))
      (Echo.shift_register D (Delay.feedback d) (Delay.dryWetMix d) hist xs).
Proof.
  induction xs as [| x xs IH]; intros hist d HD Ht Hst;
    cbn [DelayLine.run Echo.shift_register].
  - apply Forall2_nil.
  - destruct (process_stores D hist x d HD Ht Hst)
      as (Hy & Hst' & Hs & Hdt & Hf & Hm).
    destruct (Delay.process x d) as [y d']. cbn [fst snd] in *.
    specialize (IH _ d' ltac:(rewrite Hs; exact HD)
                   ltac:(rewrite Hdt; exact Ht) Hst').
    destruct (DelayLine.run xs d') as [ys d'']. cbn [fst] in *.
    rewrite Hf, Hm in IH. apply Forall2_cons; assumption.
Qed.

(** The delay is an echo of exactly [D] samples: on a buffer of [n] zeros
    and for a whole delay time [D] with [1 <= D <= n], the circular buffer
    with its two positions gives the outputs of a shift register: each
    output mixes the input with the sample stored [D] calls earlier (0 for
    the first [D] calls), and what is stored is the input plus that sample
    times the feedback. *)
Theorem delay_is_shift_register
  (n D : Z) (f m delayTime0 : Q) (size0 : Z) (xs : list Q) :
  1 <= D <= n ->
  let d :=
    Delay.setDryWetMix m
      (Delay.setFeedback f
         (Delay.setDelayTime (inject_Z D)
            (Delay.setSize n (DelayLine.fresh delayTime0 size0)))) in
  Forall2 Qeq (fst (DelayLine.run xs d))
    (Echo.shift_register D (Delay.feedback d) (Delay.dryWetMix d) [] xs).
Proof.
  intros HD d. apply run_stores.
  - exact HD.
  - cbn. change 0%Q with (inject_Z 0). rewrite <- Zlt_Qlt. lia.
  - unfold Echo.stores, d.
    cbn [Delay.setDryWetMix Delay.setFeedback Delay.setDelayTime
         Delay.setSize DelayLine.fresh Delay.buffer Delay.size
         Delay.writePos Delay.readPos].
    split; [rewrite resize_length; lia |].
    exists 0. split; [lia |]. split; [reflexivity |]. split.
    + destruct (Qlt_le_dec (0 - inject_Z D) 0) as [L | L].
      * rewrite mod_wrap by lia.
        replace (0 - D <? 0) with true by (symmetry; apply Z.ltb_lt; lia).
        rewrite inject_Z_plus. unfold Z.sub.
        rewrite inject_Z_plus, inject_Z_opp. ring.
      * exfalso.
        assert (1 <= inject_Z D)%Q
          by (change 1%Q with (inject_Z 1); rewrite <- Zle_Qle; lia).
        lra.
    + intros j Hj. unfold Delay.resize. cbn [firstn length app].
      rewrite firstn_nil. cbn [app]. rewrite read_zeros.
      destruct (Z.to_nat j); reflexivity.
Qed.

Lemma delay_is_shift_register_witness :
  let d :=
    Delay.setDryWetMix (1 # 2)
      (Delay.setFeedback (1 # 2)
         (Delay.setDelayTime (inject_Z 2)
            (Delay.setSize 4 (DelayLine.fresh 0 0)))) in
  Forall2 Qeq (fst (DelayLine.run [1%Q; 0%Q; 0%Q; 0%Q; 0%Q] d))
    (Echo.shift_register 2 (Delay.feedback d) (Delay.dryWetMix d) []
       [1%Q; 0%Q; 0%Q; 0%Q; 0%Q]).
Proof.
  apply (delay_is_shift_register 4 2 (1 # 2) (1 # 2) 0 0
           [1%Q; 0%Q; 0%Q; 0%Q; 0%Q]).
  lia.
Defined.

(** ** The master chain under the parameter layout *)

Lemma bitcrusher_process_within (b : Bitcrusher.t) (x : Q) (k : Z) :
  1 <= k -> (Bitcrusher.bitDepthScale b == inject_Z k)%Q ->
  Bitcrusher.sampleRateReduction b < 2 ^ 31 ->
  (- (1 # 2) <= x <= 1 # 2)%Q ->
  (- (1 # 2) <= Bitcrusher.lastProcessedSample b <= 1 # 2)%Q ->
  0 <= Bitcrusher.currentSampleCount b < 2 ^ 31 - 1 ->
  (- (1 # 2) <= fst (Bitcrusher.process x b) <= 1 # 2)%Q /\
  (- (1 # 2) <= Bitcrusher.lastProcessedSample (snd (Bitcrusher.process x b))
   <= 1 # 2)%Q /\
  0 <= Bitcrusher.currentSampleCount (snd (Bitcrusher.process x b))
  < 2 ^ 31 - 1.
Proof.
  intros Hk Es Hr Hx Hl Hc. unfold Bitcrusher.process.
  rewrite int32_small by lia.
  destruct (Bitcrusher.sampleRateReduction b
            <=? Bitcrusher.currentSampleCount b + 1) eqn:E;
    cbn [fst snd Bitcrusher.lastProcessedSample
         Bitcrusher.currentSampleCount].
  - assert (HS : (1 <= inject_Z k)%Q)
      by (change 1%Q with (inject_Z 1); rewrite <- Zle_Qle; exact Hk).
    assert (Hq : (- (1 # 2)
                  <= inject_Z (round (2 * x * Bitcrusher.bitDepthScale b))
                     / Bitcrusher.bitDepthScale b / 2
                  <= 1 # 2)%Q).
    { destruct (round_bounded (2 * x * Bitcrusher.bitDepthScale b) k)
        as [Rlo Rhi].
      { rewrite Es. split.
        - setoid_replace (- inject_Z k)%Q
            with ((2 * - (1 # 2)) * inject_Z k)%Q by ring.
          apply Qmult_le_compat_r; lra.
        - setoid_replace (inject_Z k)%Q
            with ((2 * (1 # 2)) * inject_Z k)%Q at 2 by ring.
          apply Qmult_le_compat_r; lra. }
      rewrite Zle_Qle in Rlo, Rhi. rewrite inject_Z_opp in Rlo.
      set (r := inject_Z (round _)) in *. clearbody r.
      rewrite Es. split.
      + apply Qle_shift_div_l; [lra |]. apply Qle_shift_div_l; lra.
      + apply Qle_shift_div_r; [lra |]. apply Qle_shift_div_r; lra. }
    split; [exact Hq |]. split; [exact Hq | lia].
  - apply Z.leb_gt in E. split; [exact Hl |]. split; [exact Hl | lia].
Qed.

Lemma trunc_sized (sr : Q) :
  (1 <= sr)%Q -> 2 <= trunc (sr * 3) /\ (sr <= inject_Z (trunc (sr * 3)))%Q.
Proof.
  intros Hsr. rewrite trunc_floor by lra.
  pose proof (Qlt_floor (sr * 3)) as Hf.
  rewrite inject_Z_plus in Hf. change (inject_Z 1) with 1%Q in Hf.
  assert (H2 : (inject_Z 2 <= inject_Z (Qfloor (sr * 3)))%Q).
  { rewrite <- Zle_Qle. change 2 with (Qfloor 2). apply Qfloor_resp_le. lra. }
  split; [rewrite Zle_Qle; exact H2 |].
  change (inject_Z 2) with 2%Q in H2. lra.
Qed.

Lemma refresh_sound (n : Z) (sr : Q) (p : Plugin.controls)
      (c : Master.channel) :
  (1 <= sr)%Q -> (sr <= inject_Z n)%Q -> Plugin.in_layout p ->
  Plugin.sound n c ->
  let c' := Master.refresh sr (Plugin.rateReductionParam p)
              (Plugin.bitDepthParam p) (Plugin.delayTimeParam p)
              (Plugin.feedbackParam p) (Plugin.dryWetMixParam p) c in
  Plugin.sound n c' /\
  Bitcrusher.sampleRateReduction (fst c') < 2 ^ 31 /\
  exists k, 1 <= k /\ (Bitcrusher.bitDepthScale (fst c') == inject_Z k)%Q.
Proof.
  intros Hsr Hn [Hrr Hdt] [[Hl Hc] (Hwf & Hsz & Hb & Hf & Hm)] c'.
  subst c'. unfold Master.refresh. cbn [fst snd].
  split; [split |].
  - split; [exact Hl | exact Hc].
  - assert (Ht : (0 <= sr * Plugin.delayTimeParam p <= inject_Z n)%Q).
    { split; [apply Qmult_le_0_compat; lra |].
      apply Qle_trans with (sr * 1)%Q; [| lra].
      rewrite (Qmult_comm sr), (Qmult_comm sr 1).
      apply Qmult_le_compat_r; lra. }
    destruct (wf_apply n (DelayLine.SetDelayTime
                            (sr * Plugin.delayTimeParam p)) (snd c)
                Ht Hwf Hsz) as [Hwf1 Hsz1].
    cbn [DelayLine.apply] in Hwf1, Hsz1.
    split; [exact Hwf1 |]. split; [exact Hsz1 |]. split; [exact Hb |].
    cbn [Delay.setDryWetMix Delay.setFeedback Delay.feedback
         Delay.dryWetMix].
    split; apply jlimit_range; lra.
  - cbn [Bitcrusher.setBitDepth Bitcrusher.setSampleRateReduction
         Bitcrusher.sampleRateReduction Bitcrusher.bitDepthScale].
    split.
    + assert (0 <= trunc (Plugin.rateReductionParam p) < 11).
      { rewrite trunc_floor by lra. apply floor_in_range.
        change (inject_Z 11) with 11%Q. split; lra. }
      lia.
    + exists (quantLevels (clamp (trunc (Plugin.bitDepthParam p)) 1 24)).
      split; [| apply scale_quantLevels].
      pose proof (pow2_clamped (trunc (Plugin.bitDepthParam p))).
      unfold quantLevels. lia.
Qed.

Lemma sample_sound (n : Z) (x : Q) (c : Master.channel) :
  Plugin.sound n c ->
  Bitcrusher.sampleRateReduction (fst c) < 2 ^ 31 ->
  (exists k, 1 <= k /\ (Bitcrusher.bitDepthScale (fst c) == inject_Z k)%Q) ->
  (- (1 # 2) <= x <= 1 # 2)%Q ->
  (- (101 # 2) <= fst (Master.sample x c) <= 101 # 2)%Q /\
  Plugin.sound n (snd (Master.sample x c)) /\
  Bitcrusher.sampleRateReduction (fst (snd (Master.sample x c)))
  = Bitcrusher.sampleRateReduction (fst c) /\
  Bitcrusher.bitDepthScale (fst (snd (Master.sample x c)))
  = Bitcrusher.bitDepthScale (fst c).
Proof.
  intros [[Hl Hc] (Hwf & Hsz & Hb & Hf & Hm)] Hr (k & Hk & Es) Hx.
  unfold Master.sample.
  destruct (bitcrusher_process_within (fst c) x k Hk Es Hr Hx Hl Hc)
    as (Hy & Hl' & Hc').
  assert (Ekeep :
            Bitcrusher.sampleRateReduction (snd (Bitcrusher.process x (fst c)))
            = Bitcrusher.sampleRateReduction (fst c) /\
            Bitcrusher.bitDepthScale (snd (Bitcrusher.process x (fst c)))
            = Bitcrusher.bitDepthScale (fst c)).
  { unfold Bitcrusher.process. destruct (_ <=? _); split; reflexivity. }
  destruct (Bitcrusher.process x (fst c)) as [y b']. cbn [fst snd] in *.
  destruct (process_bounded (1 # 2) (101 # 2) y (snd c)) as (Ho & Hb' & Ef & Em);
    try assumption; try lra.
  destruct (wf_apply n (DelayLine.Process y) (snd c) I Hwf Hsz)
    as [Hwf' Hsz'].
  cbn [DelayLine.apply] in Hwf', Hsz'.
  destruct (Delay.process y (snd c)) as [out d']. cbn [fst snd] in *.
  split; [exact Ho |]. split; [| exact Ekeep].
  unfold Plugin.sound. cbn [fst snd].
  split; [split; assumption |].
  split; [exact Hwf' |]. split; [exact Hsz' |]. split; [exact Hb' |].
  rewrite Ef, Em. split; assumption.
Qed.

Lemma samples_sound (n : Z) (xs : list Q) :
  forall c : Master.channel,
    Plugin.sound n c ->
    Bitcrusher.sampleRateReduction (fst c) < 2 ^ 31 ->
    (exists k, 1 <= k /\ (Bitcrusher.bitDepthScale (fst c) == inject_Z k)%Q) ->
    DelayLine.bounded (1 # 2) xs ->
    DelayLine.bounded (101 # 2) (fst (Plugin.samples xs c)) /\
    Plugin.sound n (snd (Plugin.samples xs c)).
Proof.
  induction xs as [| x xs IH]; intros c Hc Hr Hk Hxs; cbn [Plugin.samples].
  - split; [apply Forall_nil | exact Hc].
  - inversion Hxs as [| ? ? Hx Hrest]; subst.
    destruct (sample_sound n x c Hc Hr Hk Hx) as (Hy & Hc' & Er & Es).
    destruct (Master.sample x c) as [y c']. cbn [fst snd] in *.
    destruct (IH c' Hc') as [Hys Hfin];
      [rewrite Er; exact Hr | rewrite Es; exact Hk | exact Hrest |].
    destruct (Plugin.samples xs c') as [ys c'']. cbn [fst snd] in *.
    split; [apply Forall_cons; assumption | exact Hfin].
Qed.

Lemma blocks_sound (n : Z) (sr : Q) (bs : list (Plugin.controls * list Q)) :
  (1 <= sr)%Q -> (sr <= inject_Z n)%Q ->
  Forall (fun b => Plugin.in_layout (fst b) /\
                   DelayLine.bounded (1 # 2) (snd b)) bs ->
  forall c : Master.channel,
    Plugin.sound n c ->
    Forall (DelayLine.bounded (101 # 2)) (fst (Plugin.blocks sr bs c)) /\
    Plugin.sound n (snd (Plugin.blocks sr bs c)).
Proof.
  intros Hsr Hn Hbs.
  induction Hbs as [| [p xs] bs [Hp Hxs] Hbs IH]; intros c Hc;
    cbn [Plugin.blocks].
  - split; [apply Forall_nil | exact Hc].
  - cbn [fst snd] in Hp, Hxs. unfold Plugin.processBlock.
    destruct (refresh_sound n sr p c Hsr Hn Hp Hc) as (Hc1 & Hr & Hk).
    destruct (samples_sound n xs _ Hc1 Hr Hk Hxs) as [Hys Hc2].
    destruct (Plugin.samples xs _) as [ys c']. cbn [fst snd] in *.
    destruct (IH c' Hc2) as [Hyss Hfin].
    destruct (Plugin.blocks sr bs c') as [yss c'']. cbn [fst snd] in *.
    split; [apply Forall_cons; assumption | exact Hfin].
Qed.

(** In exact arithmetic the master chain is safe under the plugin's own
    parameter ranges: after [prepareToPlay] at a sample rate of 1 Hz at
    least, through any number of blocks whose rate reduction lies in
    [[1, 10]] and delay time in [[0, 1]] (any bit depth, feedback and mix)
    and whose rendered samples lie in [[-1/2, 1/2]], the delay buffer keeps
    its [3 * sampleRate] entries, the indices the delay reads and writes
    stay inside it, and every output sample is at most 50.5 in absolute
    value.  (In binary32 the read position of [setDelayTime] can round to
    [size], so the index part does not carry over to the compiled code.) *)
Theorem plugin_chain_safe
  (sr delayTime0 : Q) (size0 : Z) (bs : list (Plugin.controls * list Q)) :
  (1 <= sr)%Q ->
  Forall (fun b => Plugin.in_layout (fst b) /\
                   DelayLine.bounded (1 # 2) (snd b)) bs ->
  let r := Plugin.blocks sr bs (Plugin.prepareToPlay sr delayTime0 size0) in
  Forall (DelayLine.bounded (101 # 2)) (fst r) /\
  DelayLine.in_bounds (snd (snd r)) /\
  Z.of_nat (length (Delay.buffer (snd (snd r)))) = trunc (sr * 3).
Proof.
  intros Hsr Hbs r. destruct (trunc_sized sr Hsr) as [H2 Hn].
  destruct (blocks_sound (trunc (sr * 3)) sr bs Hsr Hn Hbs
              (Plugin.prepareToPlay sr delayTime0 size0))
    as [Hout [_ (Hwf & Hsz & _)]].
  - unfold Plugin.sound, Plugin.prepareToPlay. cbn [fst snd].
    split; [split; [split; discriminate | cbn; lia] |].
    assert (H0 : DelayLine.wf
                   (Delay.setSize (trunc (sr * 3))
                      (DelayLine.fresh delayTime0 size0))).
    { unfold DelayLine.wf, Delay.setSize, DelayLine.fresh.
      cbn [Delay.size Delay.buffer Delay.readPos Delay.writePos].
      rewrite resize_length.
      assert (HQ : (2 <= inject_Z (trunc (sr * 3)))%Q)
        by (change 2%Q with (inject_Z 2); rewrite <- Zle_Qle; exact H2).
      repeat split; try lia; try lra. }
    destruct (wf_apply (trunc (sr * 3))
                (DelayLine.SetDelayTime (sr * (1 # 2))) _
                ltac:(cbn [DelayLine.fits]; split; lra) H0 eq_refl)
      as [Hwf1 Hsz1].
    cbn [DelayLine.apply] in Hwf1, Hsz1.
    split; [exact Hwf1 |]. split; [exact Hsz1 |]. split.
    + cbn [Delay.setDryWetMix Delay.setFeedback Delay.setDelayTime
           Delay.setSize Delay.buffer DelayLine.fresh].
      unfold Delay.resize. rewrite firstn_nil. cbn [app length].
      unfold DelayLine.bounded. apply Forall_forall. intros v Hv.
      apply repeat_spec in Hv. subst v. split; discriminate.
    + cbn [Delay.setDryWetMix Delay.setFeedback Delay.feedback
           Delay.dryWetMix].
      split; apply jlimit_range; lra.
  - fold r in Hout, Hwf, Hsz. split; [exact Hout |].
    split; [apply wf_in_bounds; exact Hwf |].
    destruct Hwf as [_ [Hlen _]]. rewrite Hlen. exact Hsz.
Qed.

Lemma plugin_chain_safe_witness :
  let bs :=
    [(Plugin.mkControls 2 4 (1 # 2) (9 # 10) (1 # 2),
      [(1 # 2)%Q; (- (1 # 4))%Q; 0%Q]);
     (Plugin.mkControls 1 24 0 0 1, [(1 # 3)%Q])] in
  let r := Plugin.blocks 4 bs (Plugin.prepareToPlay 4 0 0) in
  Forall (DelayLine.bounded (101 # 2)) (fst r) /\
  DelayLine.in_bounds (snd (snd r)) /\
  Z.of_nat (length (Delay.buffer (snd (snd r)))) = trunc (4 * 3).
Proof.
  apply (plugin_chain_safe 4 0 0
           [(Plugin.mkControls 2 4 (1 # 2) (9 # 10) (1 # 2),
             [(1 # 2)%Q; (- (1 # 4))%Q; 0%Q]);
            (Plugin.mkControls 1 24 0 0 1, [(1 # 3)%Q])]).
  - discriminate.
  - apply Forall_cons; [| apply Forall_cons; [| apply Forall_nil]].
    + split; [split; split; discriminate |].
      repeat apply Forall_cons; try apply Forall_nil; split; discriminate.
    + split; [split; split; discriminate |].
      repeat apply Forall_cons; try apply Forall_nil; split; discriminate.
Defined.

(** ** Arpeggiator: the range of the notes *)

Section ArpeggioRange.

Import Arpeggiator Arpeggio.

Context {Random : Type}.
Variable nextInt : Z -> Z -> Random -> Z * Random.
Variable getMidiNoteInHertz : Z -> Q.
Hypothesis nextInt_range :
  forall g : Random, -7 <= fst (nextInt (-7) 8 g) < 8.

Lemma draws_range (n : nat) (g : Random) :
  Forall (fun o => -7 <= o <= 14) (fst (draws nextInt n g)) /\
  length (fst (draws nextInt n g)) = n.
Proof.
  revert g. induction n as [| n IH]; intros g; cbn [draws].
  - split; [apply Forall_nil | reflexivity].
  - pose proof (nextInt_range g) as Hv.
    destruct (nextInt (-7) 8 g) as [v g']. cbn [fst] in Hv.
    destruct (IH g') as [Hvs Hlen].
    destruct (draws nextInt n g') as [vs g'']. cbn [fst] in *.
    split; [apply Forall_cons; [lia | exact Hvs] | cbn; congruence].
Qed.

Lemma startArpeggio_ranged (apvts : params) (root : Z) (a : t Random) :
  0 <= trunc (arpPattern apvts) <= 8 ->
  0 <= trunc (arpOctave apvts) <= 2 ->
  ranged root (startArpeggio nextInt apvts root a) /\
  sampleCounter (startArpeggio nextInt apvts root a) = 0.
Proof.
  intros Hsel Hoct.
  unfold startArpeggio, switchArpOctave, switchArpPattern, ranged,
    in_pattern, size.
  cbn [pattern noteIndex noteIncrement rootNote currentNote numOctaves
       sampleCounter].
  assert (Ho : (match trunc (arpOctave apvts) with
                | 0 => 0 | 1 => 1 | 2 => 2 | _ => numOctaves a
                end) <= 2).
  { assert (Hc : trunc (arpOctave apvts) = 0 \/ trunc (arpOctave apvts) = 1
                 \/ trunc (arpOctave apvts) = 2) by lia.
    destruct Hc as [-> | [-> | ->]]; lia. }
  destruct (trunc (arpPattern apvts) =? 8) eqn:E8.
  - unfold generateRandomPattern. cbn [randomEngine].
    destruct (draws_range 6 (randomEngine a)) as [Hvs Hlen].
    destruct (draws nextInt 6 (randomEngine a)) as [vs g].
    cbn [fst] in Hvs, Hlen.
    cbn [with_pattern pattern noteIndex noteIncrement rootNote currentNote
         numOctaves sampleCounter length].
    rewrite Hlen.
    repeat split; try lia; try exact Ho.
    apply Forall_cons; [lia | exact Hvs].
  - apply Z.eqb_neq in E8.
    destruct (trunc (arpPattern apvts)) as [| sel | sel]; [| | lia].
    + cbn [with_pattern pattern noteIndex noteIncrement rootNote currentNote
           numOctaves sampleCounter length].
      repeat split; try (cbn; lia); try exact Ho.
      repeat apply Forall_cons; try apply Forall_nil; lia.
    + repeat (destruct sel as [sel | sel |]; try lia);
        cbn [with_pattern pattern noteIndex noteIncrement rootNote
             currentNote numOctaves sampleCounter length];
        (repeat split; try (cbn; lia); try exact Ho;
         repeat apply Forall_cons; try apply Forall_nil; lia).
Qed.

Lemma advance_ranged (root : Z) (a : t Random) :
  - 2 ^ 30 <= root < 2 ^ 30 -> ranged root a ->
  exists b, advance a = Some b /\ ranged root b /\
            sampleCounter b = sampleCounter a.
Proof.
  intros Hroot (Ha & Hpat & Hinc & HN & Er & Hcur).
  pose proof Ha as [Hi Hs]. unfold advance.
  rewrite to_size_t_small by lia.
  assert (Hlt : (Z.to_nat (noteIndex a) < length (pattern a))%nat)
    by (unfold size in Hi; lia).
  rewrite (nth_error_nth' (pattern a) 0 Hlt).
  assert (Hoff : -7 <= nth (Z.to_nat (noteIndex a)) (pattern a) 0 <= 14).
  { apply (proj1 (Forall_forall _ _) Hpat). apply nth_In. exact Hlt. }
  set (offset := nth (Z.to_nat (noteIndex a)) (pattern a) 0) in *.
  eexists. split; [reflexivity |].
  rewrite incrementPattern_note.
  pose proof (incrementPattern_in_pattern Random a Ha) as Hip.
  pose proof (incrementPattern_pattern Random a) as Hpp.
  assert (Hrest : 0 <= noteIncrement (incrementPattern a) <= 1 /\
                  numOctaves (incrementPattern a) = numOctaves a /\
                  rootNote (incrementPattern a) = rootNote a /\
                  sampleCounter (incrementPattern a) = sampleCounter a).
  { unfold incrementPattern.
    rewrite (int32_small (noteIncrement a + 1)) by lia.
    destruct (size a <=? to_size_t (int32 (noteIndex a + 1)));
      [destruct (0 <? numOctaves a) |];
      cbn [with_position noteIncrement numOctaves rootNote sampleCounter];
      repeat split; try lia;
      destruct (numOctaves a <=? noteIncrement a + 1) eqn:E;
      try apply Z.leb_gt in E; lia. }
  destruct Hrest as (Hinc' & HN' & Er' & Hsc').
  split; [| exact Hsc'].
  unfold ranged. split; [exact Hip |].
  cbn [with_currentNote pattern noteIndex noteIncrement numOctaves rootNote
       currentNote].
  rewrite Hpp. split; [exact Hpat |].
  split; [exact Hinc' |]. split; [lia |]. split; [congruence |].
  rewrite int32_small by lia. lia.
Qed.

Lemma getNextFrequency_ranged (root : Z) (apvts : params) (a : t Random) :
  - 2 ^ 30 <= root < 2 ^ 30 -> ranged root a ->
  exists note a',
    getNextFrequency getMidiNoteInHertz apvts a
    = Some (getMidiNoteInHertz note, a') /\
    root - 7 <= note <= root + 26 /\ ranged root a'.
Proof.
  intros Hroot Ha. unfold getNextFrequency.
  set (a1 := setSpeed apvts a).
  assert (Ha1 : ranged root a1) by exact Ha. clearbody a1.
  destruct (samplesPerNote a1 <=? sampleCounter a1).
  - assert (Ha2 : ranged root (with_sampleCounter 0 a1)) by exact Ha1.
    destruct (to_size_t (noteIndex (with_sampleCounter 0 a1))
              <=? size (with_sampleCounter 0 a1)).
    + destruct (advance_ranged root _ Hroot Ha2) as (b & E & Hb & _).
      rewrite E. eexists. eexists. split; [reflexivity |].
      split; [apply Hb | exact Hb].
    + eexists. eexists. split; [reflexivity |].
      split; [apply Ha1 | exact Ha1].
  - eexists. eexists. split; [reflexivity |].
    split; [apply Ha1 | exact Ha1].
Qed.

Lemma run_ranged (root : Z) (calls : list params) (a : t Random) :
  - 2 ^ 30 <= root < 2 ^ 30 -> ranged root a ->
  exists fs a',
    run getMidiNoteInHertz calls a = Some (fs, a') /\
    Forall (fun f => exists note,
                root - 7 <= note <= root + 26 /\
                f = getMidiNoteInHertz note) fs.
Proof.
  intros Hroot. revert a.
  induction calls as [| apvts rest IH]; intros a Ha; cbn [run].
  - exists [], a. split; [reflexivity | apply Forall_nil].
  - destruct (getNextFrequency_ranged root apvts a Hroot Ha)
      as (note & a1 & E & Hn & Ha1).
    rewrite E. destruct (IH a1 Ha1) as (fs & a' & Er & Hfs). rewrite Er.
    eexists. eexists. split; [reflexivity |].
    apply Forall_cons; [exists note; split; [exact Hn | reflexivity] |].
    exact Hfs.
Qed.

End ArpeggioRange.

(** An arpeggio stays near its root: for any of the nine patterns (the
    random one drawing from [nextInt] of the range -7 to 8) and any of the
    three loop modes, every frequency [getNextFrequency] returns after
    [startArpeggio] is that of a note from 7 semitones below to 26
    semitones above the root, whatever the speed control does. *)
Theorem arpeggiator_note_range
  (Random : Type) (nextInt : Z -> Z -> Random -> Z * Random)
  (getMidiNoteInHertz : Z -> Q)
  (apvts : Arpeggiator.params) (root : Z)
  (calls : list Arpeggiator.params) (a : Arpeggiator.t Random) :
  (forall g : Random, -7 <= fst (nextInt (-7) 8 g) < 8) ->
  0 <= trunc (Arpeggiator.arpPattern apvts) <= 8 ->
  0 <= trunc (Arpeggiator.arpOctave apvts) <= 2 ->
  - 2 ^ 30 <= root < 2 ^ 30 ->
  exists fs a',
    Arpeggiator.run getMidiNoteInHertz calls
      (Arpeggiator.startArpeggio nextInt apvts root a)
    = Some (fs, a') /\
    Forall (fun f => exists note,
                root - 7 <= note <= root + 26 /\
                f = getMidiNoteInHertz note) fs.
Proof.
  intros Hnext Hsel Hoct Hroot.
  apply run_ranged; [exact Hroot |].
  apply (startArpeggio_ranged nextInt Hnext apvts root a Hsel Hoct).
Qed.

Lemma arpeggiator_note_range_witness :
  let apvts := Arpeggiator.mkParams 8 2 1 in
  exists fs a',
    Arpeggiator.run (fun n => inject_Z n) [apvts; apvts; apvts]
      (Arpeggiator.startArpeggio (Random := Z)
         (fun lo hi g => (lo + (g mod (hi - lo)), g + 5)) apvts 60
         (Arpeggiator.construct
            (fun lo hi g => (lo + (g mod (hi - lo)), g + 5)) apvts 3))
    = Some (fs, a') /\
    Forall (fun f => exists note,
                60 - 7 <= note <= 60 + 26 /\ f = inject_Z note) fs.
Proof.
  apply (arpeggiator_note_range Z
           (fun lo hi g => (lo + (g mod (hi - lo)), g + 5))
           (fun n => inject_Z n)
           (Arpeggiator.mkParams 8 2 1) 60
           [Arpeggiator.mkParams 8 2 1; Arpeggiator.mkParams 8 2 1;
            Arpeggiator.mkParams 8 2 1]
           (Arpeggiator.construct
              (fun lo hi g => (lo + (g mod (hi - lo)), g + 5))
              (Arpeggiator.mkParams 8 2 1) 3)).
  - intros g. cbn [fst].
    pose proof (Z.mod_pos_bound g (8 - -7) ltac:(lia)). lia.
  - cbn; lia.
  - cbn; lia.
  - lia.
Defined.

(** ** The same code in binary32 *)

(** In binary32 the read position can reach [size], one past the buffer.
    At 44100 Hz the buffer has 132300 entries.  With the write position at
    26460 and the delay control at [0.6f], or at 13230 with [0.3f], the
    delay time passed to [setDelayTime] is a little above the write
    position, the difference is a small negative number, and its sum with
    [size] rounds to 132300: [linearInterpolation] then takes
    [indexA = 132300], which is not an index of the buffer.  (Over the
    rationals the sum stays below [size].) *)
Theorem delay32_read_position_reaches_size :
  trunc (44100 * 3) = 132300 /\
  (Delay32.readPos 26460 (Delay32.delayTime 44100 (binary32 (6 # 10))) 132300
   == inject_Z 132300)%Q /\
  Qfloor
    (Delay32.readPos 26460 (Delay32.delayTime 44100 (binary32 (6 # 10)))
       132300)
  = 132300 /\
  (Delay32.readPos 13230 (Delay32.delayTime 44100 (binary32 (3 # 10))) 132300
   == inject_Z 132300)%Q /\
  Qfloor
    (Delay32.readPos 13230 (Delay32.delayTime 44100 (binary32 (3 # 10)))
       132300)
  = 132300 /\
  (Delay.readPos
     (Delay.setDelayTime (Delay32.delayTime 44100 (binary32 (6 # 10)))
        (Delay.mk [] 0 26460 0 0 132300 0))
   < inject_Z 132300)%Q.
Proof.
  split; [reflexivity |].
  split; [vm_compute; reflexivity |].
  split; [vm_compute; reflexivity |].
  split; [vm_compute; reflexivity |].
  split; [vm_compute; reflexivity |].
  vm_compute. reflexivity.
Qed.

Lemma process32_sustained
  (sinOsc : Q -> Q) (apvts : Vibrato.params) (v : Vibrato.t) :
  (forall z : Z,
     ~ (binary32 (Vibrato.vibSustain apvts * Vibrato.sampleRate v)
        == inject_Z z)%Q) ->
  1 <= trunc (binary32 (Vibrato.vibSustain apvts * Vibrato.sampleRate v))
    < 2 ^ 24 ->
  - 2 ^ 24 < Vibrato.sustainSamples v < 2 ^ 24 ->
  Vibrato32.process sinOsc apvts v
  = (0%Q,
     Vibrato.mk (Vibrato.vibratoLFO v) (Vibrato.VibratoFreq v)
       (Vibrato.VibratoAmount v) (Vibrato.sampleRate v)
       (trunc (binary32 (Vibrato.vibSustain apvts * Vibrato.sampleRate v)))
       1).
Proof.
  intros Hfrac Hone Hss.
  unfold Vibrato32.process, Vibrato32.updateSustainParameters.
  destruct (Qeq_bool _ _) eqn:E.
  { apply Qeq_bool_eq in E. rewrite (binary32_int _ Hss) in E.
    destruct (Hfrac _ E). }
  cbn [Vibrato.resetSustainCounter Vibrato.sustainCounter
       Vibrato.sustainSamples Vibrato.vibratoLFO Vibrato.VibratoFreq
       Vibrato.VibratoAmount Vibrato.sampleRate].
  replace (0 <? trunc (binary32 (Vibrato.vibSustain apvts
                                 * Vibrato.sampleRate v)))
    with true by (symmetry; apply Z.ltb_lt; lia).
  reflexivity.
Qed.

(** The vibrato can stay silent for ever.  When the binary32 product of the
    sustain control and the sample rate, as [updateSustainParameters]
    computes it, is not a whole number and reaches 1, the comparison with
    the truncated [sustainSamples] fails on every call: every call resets
    the sustain counter, [process] returns 0 on every call and the LFO is
    never ticked.  (When the product rounds to a whole number the vibrato
    starts after the sustain, as intended.) *)
Theorem vibrato32_stuck_in_sustain
  (sinOsc : Q -> Q) (apvts : Vibrato.params) (n : nat) (v : Vibrato.t) :
  (forall z : Z,
     ~ (binary32 (Vibrato.vibSustain apvts * Vibrato.sampleRate v)
        == inject_Z z)%Q) ->
  1 <= trunc (binary32 (Vibrato.vibSustain apvts * Vibrato.sampleRate v))
    < 2 ^ 24 ->
  - 2 ^ 24 < Vibrato.sustainSamples v < 2 ^ 24 ->
  fst (Vibrato32.run sinOsc apvts n v) = repeat 0%Q n /\
  Vibrato.vibratoLFO (snd (Vibrato32.run sinOsc apvts n v))
  = Vibrato.vibratoLFO v.
Proof.
  revert v. induction n as [| n IH]; intros v Hfrac Hone Hss.
  - split; reflexivity.
  - cbn [Vibrato32.run]. rewrite (process32_sustained _ _ _ Hfrac Hone Hss).
    match goal with
    | |- context [Vibrato32.run _ _ _ ?w] =>
        destruct (IH w) as [Hys Hlfo];
          [exact Hfrac | exact Hone | cbn [Vibrato.sustainSamples]; lia |];
          destruct (Vibrato32.run sinOsc apvts n w) as [ys v'']
    end.
    cbn [fst snd] in *. rewrite Hys. split; [reflexivity | exact Hlfo].
Qed.

Lemma vibrato32_stuck_in_sustain_witness :
  let apvts := Vibrato.mkParams (binary32 (3 # 10)) (1 # 10) (1 # 2) in
  let v := Vibrato.resetSustainCounter
             (Vibrato.setSampleRate 44100 Vibrato.init) in
  fst (Vibrato32.run (fun p => p) apvts 5 v) = repeat 0%Q 5 /\
  Vibrato.vibratoLFO (snd (Vibrato32.run (fun p => p) apvts 5 v))
  = Vibrato.vibratoLFO v.
Proof.
  apply (vibrato32_stuck_in_sustain (fun p => p)
           (Vibrato.mkParams (binary32 (3 # 10)) (1 # 10) (1 # 2)) 5
           (Vibrato.resetSustainCounter
              (Vibrato.setSampleRate 44100 Vibrato.init))).
  - intros z.
    replace (binary32
               (Vibrato.vibSustain
                  (Vibrato.mkParams (binary32 (3 # 10)) (1 # 10) (1 # 2))
                * Vibrato.sampleRate
                    (Vibrato.resetSustainCounter
                       (Vibrato.setSampleRate 44100 Vibrato.init))))
      with (13547521 # 1024)%Q by (vm_compute; reflexivity).
    unfold Qeq. cbn. lia.
  - vm_compute. split; [discriminate | reflexivity].
  - cbn. lia.
Defined.
